(** * Nomm-App, [backend/yelp_scraper.py]: a shallow embedding and its properties

    The module collects restaurants from a business directory, guesses the
    address of each restaurant's menu page, extracts dishes from the page and
    stores restaurant, menu and dishes in a relational store.

    The file has three parts: the embedding of the module, function by
    function; the notions in which the properties are stated, with the
    concrete pages, directories and stores used as examples; the properties.

    Conventions of the embedding:
    - a Python [str] is a list of Unicode code points ([list N]);
    - a value decoded from JSON is a [json] tree; a [dict] is an association
      list in which a key occurs at most once;
    - a call that may raise returns a [res]: [Ok v] or [Raise e];
    - a float returned by [float] is a [pyfloat]: the exact value of a
      double, or infinity; [float] rounds to the nearest double;
    - the network and the store are explicit: every HTTP answer comes from a
      [World] record of oracles, the store is a [DB] value threaded through
      the calls that write to it, and a request to the store fails when the
      world says so;
    - [logger] lines and [time.sleep] have no effect on any returned value
      and are left out, except that [save_to_database] returns the exception
      its handler logged. *)

From Stdlib Require Import List Bool Arith ZArith NArith QArith Lia.
From Stdlib Require Import Qabs Qpower Lqa.
From Stdlib Require Import Strings.String Strings.Ascii.
Import ListNotations.

Set Implicit Arguments.

(** ** Python strings *)

Definition str := list N.

(** [lit "abc"] is the Python literal ['abc'] (ASCII text only). *)
Definition lit (s : string) : str :=
  map N_of_ascii (list_ascii_of_string s).

Definition str_eqb (a b : str) : bool :=
  if list_eq_dec N.eq_dec a b then true else false.

(** The Unicode tables Python consults and the source does not contain. *)
Class Unicode := {
  (** the full lower-case mapping of a code point above 255, the capital
      sigma apart *)
  unicode_lower_full : N -> str;
  (** whether a capital sigma that stands between the two texts is in final
      position (CPython's [handle_capital_sigma]) *)
  final_sigma : str -> str -> bool;
  (** the decimal value of a code point above 127 of category Nd, the
      characters that [\d] matches and [float] reads as digits *)
  unicode_decimal : N -> option N
}.

Definition is_ascii (c : N) : bool := (c <? 128)%N.

Definition ascii_lower (c : N) : N :=
  if ((65 <=? c) && (c <=? 90))%N then (c + 32)%N else c.

(** The lower-case mapping of a code point below 256 (ASCII and Latin-1):
    the letters A-Z and the letters from 192 to 222, the multiplication sign
    215 apart, move up by 32; no other character changes. *)
Definition latin1_lower (c : N) : N :=
  if ((65 <=? c) && (c <=? 90) || (192 <=? c) && (c <=? 214)
      || (216 <=? c) && (c <=? 222))%N
  then (c + 32)%N else c.

Definition capital_sigma : N := 931.
Definition final_small_sigma : N := 962.
Definition small_sigma : N := 963.

(** Tables that know nothing above Latin-1: no character above 255 changes
    under [lower()], no sigma is final, no character above 127 is a digit. *)
Definition ascii_tables : Unicode :=
  {| unicode_lower_full := fun c => [c];
     final_sigma := fun _ _ => false;
     unicode_decimal := fun _ => None |}.

Definition is_az09 (c : N) : bool :=
  ((97 <=? c) && (c <=? 122) || (48 <=? c) && (c <=? 57))%N.

Definition hyphen : N := 45.
Definition dot : N := 46.
Definition comma : N := 44.
Definition dollar : N := 36.

Definition is_hyphen (c : N) : bool := (c =? hyphen)%N.

(** [str.isspace] of one character (CPython's [_PyUnicode_IsWhitespace]). *)
Definition is_space (c : N) : bool :=
  ((9 <=? c) && (c <=? 13) || (28 <=? c) && (c <=? 32)
   || (c =? 133) || (c =? 160) || (c =? 5760)
   || (8192 <=? c) && (c <=? 8202)
   || (c =? 8232) || (c =? 8233) || (c =? 8239) || (c =? 8287)
   || (c =? 12288))%N.

Fixpoint drop_while (p : N -> bool) (s : str) : str :=
  match s with
  | [] => []
  | c :: t => if p c then drop_while p t else s
  end.

(** [s.strip(chars)], [p] being membership in [chars]; [s.strip()] is
    [strip_chars is_space s]. *)
Definition strip_chars (p : N -> bool) (s : str) : str :=
  rev (drop_while p (rev (drop_while p s))).

Fixpoint is_prefix (p s : str) : bool :=
  match p, s with
  | [], _ => true
  | a :: p', b :: s' => (a =? b)%N && is_prefix p' s'
  | _ :: _, [] => false
  end.

(** [needle in hay] for strings. *)
Fixpoint contains (needle hay : str) : bool :=
  is_prefix needle hay ||
  match hay with
  | [] => false
  | _ :: t => contains needle t
  end.

(** [s.split(sep)] for a one-character separator: [cur] holds, reversed,
    the characters of the piece being read. *)
Fixpoint split_from (sep : N) (cur : str) (s : str) : list str :=
  match s with
  | [] => [rev cur]
  | c :: t => if (c =? sep)%N then rev cur :: split_from sep [] t
              else split_from sep (c :: cur) t
  end.

Definition split_on (sep : N) (s : str) : list str := split_from sep [] s.

(** [sep.join(parts)] *)
Fixpoint join (sep : str) (parts : list str) : str :=
  match parts with
  | [] => []
  | [p] => p
  | p :: rest => p ++ sep ++ join sep rest
  end.

(** [re.sub(r'[C]+', rep, s)] for a character class [C] given by [p]: every
    maximal run of characters of the class is replaced by one [rep].
    [in_run] tells that the previous character was in the class. *)
Fixpoint sub_runs_from (in_run : bool) (p : N -> bool) (rep : str) (s : str) : str :=
  match s with
  | [] => []
  | c :: t =>
      if p c then (if in_run then [] else rep) ++ sub_runs_from true p rep t
      else c :: sub_runs_from false p rep t
  end.

Definition sub_runs := sub_runs_from false.

Section WithUnicode.
Context {U : Unicode}.

(** [_PyUnicode_ToLowerFull]: the lower-case mapping of one code point, which
    may be several code points long. *)
Definition to_lower_full (c : N) : str :=
  if (c <? 256)%N then [latin1_lower c] else unicode_lower_full c.

(** CPython's [do_lower]: the code points are mapped one by one, the capital
    sigma by its position; [before] holds, reversed, the text already read. *)
Fixpoint lower_from (before : str) (s : str) : str :=
  match s with
  | [] => []
  | c :: t =>
      (if (c =? capital_sigma)%N
       then [if final_sigma (rev before) t then final_small_sigma else small_sigma]
       else to_lower_full c)
      ++ lower_from (c :: before) t
  end.

(** [s.lower()]: an ASCII string takes the byte-wise path. *)
Definition lower (s : str) : str :=
  if forallb is_ascii s then map ascii_lower s else lower_from [] s.

(** The class [\d] of [re] on [str] patterns, with the digit's value. *)
Definition decimal_value (c : N) : option N :=
  if is_ascii c then
    (if ((48 <=? c) && (c <=? 57))%N then Some (c - 48)%N else None)
  else unicode_decimal c.

Definition is_digit (c : N) : bool :=
  match decimal_value c with Some _ => true | None => false end.

End WithUnicode.

(** ** Exceptions and fallible results *)

(** The exceptions the module can meet; all derive from [Exception].
    [HTTPError] (raised by [raise_for_status]) and [ConnectionError] derive
    from [requests.RequestException]; [StoreError] stands for whatever the
    store client raises. *)
Inductive exn :=
| KeyError (key : str)
| TypeError
| AttributeError
| ValueError
| IndexError
| RequestException
| HTTPError (status : N)
| StoreError (code : N).

Inductive res (A : Type) :=
| Ok (a : A)
| Raise (e : exn).
Arguments Ok {A} a.
Arguments Raise {A} e.

Definition bind {A B} (m : res A) (k : A -> res B) : res B :=
  match m with
  | Ok a => k a
  | Raise e => Raise e
  end.

Declare Scope res_scope.
Delimit Scope res_scope with res.
Notation "x <- m ;; k" := (bind m (fun x => k))
  (at level 100, m at next level, right associativity) : res_scope.
Open Scope res_scope.

(** A comprehension [[f(x) for x in l]]: stops at the first [f(x)] that
    raises. *)
Fixpoint map_res {A B} (f : A -> res B) (l : list A) : res (list B) :=
  match l with
  | [] => Ok []
  | x :: t => y <- f x ;; ys <- map_res f t ;; Ok (y :: ys)
  end.

(** ** JSON values and the Python operations the module applies to them *)

#[warnings="-register-all"]
Inductive json :=
| JNull
| JBool (b : bool)
| JNum (q : Q)
| JStr (s : str)
| JList (l : list json)
| JDict (d : list (str * json)).

Definition dict := list (str * json).

(** [bool(v)] *)
Definition truthy (v : json) : bool :=
  match v with
  | JNull => false
  | JBool b => b
  | JNum q => negb (Qnum q =? 0)%Z
  | JStr s => match s with [] => false | _ => true end
  | JList l => match l with [] => false | _ => true end
  | JDict d => match d with [] => false | _ => true end
  end.

Fixpoint dict_lookup (d : dict) (k : str) : option json :=
  match d with
  | [] => None
  | (k', v) :: t => if str_eqb k' k then Some v else dict_lookup t k
  end.

(** [d.get(k, default)] *)
Definition dict_get (d : dict) (k : str) (default : json) : json :=
  match dict_lookup d k with Some v => v | None => default end.

(** [d[k] = v] *)
Fixpoint dict_set (d : dict) (k : str) (v : json) : dict :=
  match d with
  | [] => [(k, v)]
  | (k', v') :: t => if str_eqb k' k then (k, v) :: t else (k', v') :: dict_set t k v
  end.

(** [v.get(k)] on an arbitrary value: only a dict has the method. *)
Definition py_get (v : json) (k : str) : res json :=
  match v with
  | JDict d => Ok (dict_get d k JNull)
  | _ => Raise AttributeError
  end.

(** [v[k]] for a string key [k]. *)
Definition py_getitem (v : json) (k : str) : res json :=
  match v with
  | JDict d => match dict_lookup d k with
               | Some x => Ok x
               | None => Raise (KeyError k)
               end
  | _ => Raise TypeError
  end.

(** Iteration over a value: a list gives its elements, a string its
    characters, a dict its keys; anything else is not iterable. *)
Definition py_iter (v : json) : res (list json) :=
  match v with
  | JList l => Ok l
  | JStr s => Ok (map (fun c => JStr [c]) s)
  | JDict d => Ok (map (fun kv => JStr (fst kv)) d)
  | _ => Raise TypeError
  end.

Definition as_str (v : json) : res str :=
  match v with
  | JStr s => Ok s
  | _ => Raise TypeError
  end.

(** [sep.join(items)]: every item has to be a string. *)
Definition join_items (sep : str) (items : list json) : res str :=
  strs <- map_res as_str items ;; Ok (join sep strs).

(** ** The Restaurant entity (lines 15-25)

    The dataclass does not check its annotations: a field holds whatever
    value the directory sent, [None] being [JNull]. *)
Record Restaurant := {
  name : json;
  rating : json;
  review_count : json;
  price_range : json;
  yelp_id : json;
  website : json;
  address : json;
  phone : json;
  cuisine_type : json
}.

(** [convert_to_restaurant] (lines 113-138) *)
Definition convert_to_restaurant (business_data : dict) : res Restaurant :=
  display_address <- py_get (dict_get business_data (lit "location") (JDict [])) (lit "display_address") ;;
  address <- (if truthy display_address
              then parts <- py_iter display_address ;;
                   s <- join_items (lit ", ") parts ;; Ok (JStr s)
              else Ok JNull) ;;
  cuisine_type <- (if truthy (dict_get business_data (lit "categories") JNull)
                   then cats <- py_iter (dict_get business_data (lit "categories") JNull) ;;
                        titles <- map_res (fun cat => py_getitem cat (lit "title")) cats ;;
                        s <- join_items (lit ", ") titles ;; Ok (JStr s)
                   else Ok JNull) ;;
  let price_range := dict_get business_data (lit "price") JNull in
  Ok {| name := dict_get business_data (lit "name") (JStr (lit "Unknown"));
        rating := dict_get business_data (lit "rating") JNull;
        review_count := dict_get business_data (lit "review_count") JNull;
        price_range := price_range;
        yelp_id := dict_get business_data (lit "id") (JStr (lit ""));
        website := dict_get business_data (lit "url") JNull;
        address := address;
        phone := dict_get business_data (lit "phone") JNull;
        cuisine_type := cuisine_type |}.

(** ** MenuUrlResolver, PriceParser and MenuExtractor *)

(** What the extractor observes of a parsed page: [select] is
    [soup.select(selector)], [select_one] is [item.select_one(selector)] and
    [get_text] is [elem.get_text(strip=True)].  The two queries may raise. *)
Record Elem := { get_text : str }.
Record Item := { select_one : str -> res (option Elem) }.
Record Soup := { select : str -> res (list Item) }.

(** A scraped dish: the dict built at lines 248-252, whose three keys are
    always present. *)
Record Dish := {
  dish_name : str;
  dish_description : str;
  dish_price : str
}.

(** A menu dict (lines 276-281); [restaurant_id] is set at line 329. *)
Record Menu := {
  menu_name : str;
  menu_description : str;
  menu_type : str;
  display_order : Z;
  restaurant_id : option Z
}.

Definition nonempty {A} (l : list A) : bool :=
  match l with [] => false | _ :: _ => true end.

Fixpoint take_while (p : N -> bool) (s : str) : str :=
  match s with
  | [] => []
  | c :: t => if p c then c :: take_while p t else []
  end.

(** [try: body except Exception as e: handler(e)] *)
Definition try_except {A} (body : res A) (handler : exn -> res A) : res A :=
  match body with
  | Ok a => Ok a
  | Raise e => handler e
  end.

(** ** Python floats *)

(** A value of Python's [float], an IEEE 754 binary64, that is not negative:
    a finite double, given by its exact value in lowest terms, or
    infinity. *)
Inductive pyfloat :=
| Finite (value : Q)
| Infinity.

(** The integer nearest to [a / b], for [b > 0]; a tie goes to the even
    one. *)
Definition round_half_even (a b : Z) : Z :=
  let q := (a / b)%Z in
  match (2 * (a mod b) ?= b)%Z with
  | Lt => q
  | Gt => (q + 1)%Z
  | Eq => if Z.even q then q else (q + 1)%Z
  end.

(** The fraction [a / (b * 2^e)] as numerator and denominator. *)
Definition scaled (a b e : Z) : Z * Z :=
  ((a * 2 ^ Z.max 0 (- e))%Z, (b * 2 ^ Z.max 0 e)%Z).

(** The integer [l] with [2^l <= a / b < 2^(l+1)], for [a, b > 0]. *)
Definition log2_ratio (a b : Z) : Z :=
  let l := (Z.log2 a - Z.log2 b)%Z in
  if (fst (scaled a b l) <? snd (scaled a b l))%Z then (l - 1)%Z else l.

(** The number [m * 2^e]. *)
Definition dyadic (m e : Z) : Q :=
  (m * 2 ^ Z.max 0 e)%Z # Z.to_pos (2 ^ Z.max 0 (- e)).

(** The double nearest to [a / b], for [a >= 0] and [b > 0]: the value is
    written [m * 2^e] with [m] an integer of at most 53 bits, [e] being at
    least -1074 (the subnormal doubles), and [m] is rounded to the nearest
    integer, a tie going to the even one; a result of [2^1024] or more is
    infinity. *)
Definition nearest_double (a b : Z) : pyfloat :=
  if (a =? 0)%Z then Finite 0
  else
    let e := Z.max (log2_ratio a b - 52) (- 1074) in
    let m := round_half_even (fst (scaled a b e)) (snd (scaled a b e)) in
    if (1024 <=? Z.log2 m + e)%Z then Infinity
    else Finite (Qred (dyadic m e)).

Section Extraction.
Context {U : Unicode}.

(** The city scan of lines 154-167 for one piece of the address. *)
Definition scan_part (location : str) (part : str) : str :=
  let part := strip_chars is_space part in
  if contains (lit "san ramon") part then lit "san-ramon"
  else if contains (lit "dublin") part then lit "dublin"
  else if contains (lit "pleasanton") part then lit "pleasanton"
  else if contains (lit "livermore") part then lit "livermore"
  else if contains (lit "castro valley") part then lit "castro-valley"
  else if contains (lit "hayward") part then lit "hayward"
  else location.

(** The name slug of lines 143-147. *)
Definition name_slug (restaurant_name : str) : str :=
  let business_name := lower restaurant_name in
  let business_name := sub_runs (fun c => negb (is_az09 c)) (lit "-") business_name in
  strip_chars is_hyphen (sub_runs is_hyphen (lit "-") business_name).

(** [construct_menu_url] (lines 140-171): [.lower()] exists on strings
    only. *)
Definition construct_menu_url (restaurant : Restaurant) : res str :=
  business_name <- match name restaurant with
                   | JStr n => Ok (name_slug n)
                   | _ => Raise AttributeError
                   end ;;
  location <- (if truthy (address restaurant)
               then match address restaurant with
                    | JStr a => Ok (fold_left scan_part (split_on comma (lower a)) (lit "san-ramon"))
                    | _ => Raise AttributeError
                    end
               else Ok (lit "san-ramon")) ;;
  Ok (lit "https://www.yelp.com/menu/" ++ business_name ++ lit "-" ++ location).

(** The number a run of digits writes after [acc]; [None] when a character
    is not a digit. *)
Fixpoint digits_value (acc : N) (s : str) : option N :=
  match s with
  | [] => Some acc
  | c :: t => match decimal_value c with
              | Some d => digits_value (10 * acc + d) t
              | None => None
              end
  end.

(** [float(s)] for a text made of digits and decimal points, the only
    texts [clean_price] passes to it: at most one point and at least one
    digit, or [ValueError].  The result is the double nearest to the decimal
    value (CPython converts with correct rounding), infinity when the value
    is too large. *)
Definition float_of_decimal (s : str) : res pyfloat :=
  let int_part := take_while (fun c => negb (c =? dot)%N) s in
  match skipn (List.length int_part) s with
  | [] => match int_part, digits_value 0 int_part with
          | _ :: _, Some n => Ok (nearest_double (Z.of_N n) 1)
          | _, _ => Raise ValueError
          end
  | _ :: frac_part =>
      match int_part ++ frac_part, digits_value 0 (int_part ++ frac_part) with
      | _ :: _, Some n =>
          Ok (nearest_double (Z.of_N n) (10 ^ Z.of_nat (List.length frac_part)))
      | _, _ => Raise ValueError
      end
  end.

(** The characters that [re.sub(r'[^\d.]', '', s)] keeps. *)
Definition is_digit_or_dot (c : N) : bool := is_digit c || (c =? dot)%N.

(** [clean_price] (lines 287-298); the handler catches [ValueError] only. *)
Definition clean_price (price_str : str) : res (option pyfloat) :=
  if negb (nonempty price_str) then Ok None
  else
    let cleaned := filter is_digit_or_dot price_str in
    match (if nonempty cleaned then q <- float_of_decimal cleaned ;; Ok (Some q)
           else Ok None) with
    | Raise ValueError => Ok None
    | r => r
    end.

(** [re.search(r'\$[\d,]+\.?\d*', text)]: a match starts at a dollar sign
    followed by a digit or comma, and is as long as possible. *)
Definition is_digit_or_comma (c : N) : bool := is_digit c || (c =? comma)%N.

Definition currency_at (s : str) : option str :=
  match s with
  | c :: t =>
      if (c =? dollar)%N then
        let body := take_while is_digit_or_comma t in
        match body with
        | [] => None
        | _ :: _ =>
            match skipn (List.length body) t with
            | d :: rest =>
                if (d =? dot)%N
                then Some (c :: body ++ d :: take_while is_digit rest)
                else Some (c :: body)
            | [] => Some (c :: body)
            end
        end
      else None
  | [] => None
  end.

Fixpoint search_currency (s : str) : option str :=
  match currency_at s with
  | Some m => Some m
  | None => match s with
            | [] => None
            | _ :: t => search_currency t
            end
  end.

Definition selectors_to_try : list str :=
  [lit "div.menu-item"; lit "[data-testid=" ++ [34%N] ++ lit "menu-item" ++ [34%N] ++ lit "]";
   lit ".menu-item-details"; lit ".menuItem"; lit ".biz-menu-item"].

Definition name_selectors : list str :=
  [lit "h4"; lit ".menu-item-name"; lit ".item-name"; lit "h3"; lit "strong"].

Definition desc_selectors : list str :=
  [lit ".menu-item-details-description"; lit ".menu-item-description";
   lit ".item-description"; lit "p"].

Definition price_selectors : list str :=
  [lit ".menu-item-price-amount"; lit ".menu-item-price"; lit ".item-price"; lit ".price"].

(** Lines 193-197: [items] is the answer to the first selector that finds
    something, or the (empty) answer to the last one. *)
Fixpoint select_items (soup : Soup) (selectors : list str) (items : list Item)
  : res (list Item) :=
  match selectors with
  | [] => Ok items
  | selector :: rest =>
      found <- select soup selector ;;
      if nonempty found then Ok found else select_items soup rest found
  end.

(** The loops of lines 208-212, 222-226 and 236-244: the first selector
    that finds an element decides the field; [read] turns the element's text
    into the field's value. *)
Fixpoint first_match (item : Item) (selectors : list str) (read : str -> str)
  : res str :=
  match selectors with
  | [] => Ok []
  | sel :: rest =>
      found <- select_one item sel ;;
      match found with
      | Some elem => Ok (read (get_text elem))
      | None => first_match item rest read
      end
  end.

Definition read_price (price_text : str) : str :=
  match search_currency price_text with
  | Some m => m
  | None => []
  end.

(** The body of the per-item [try] (lines 205-252): the dish to append, if
    any. *)
Definition extract_item (item : Item) : res (option Dish) :=
  item_name <- first_match item name_selectors (fun t => t) ;;
  description <- first_match item desc_selectors (fun t => t) ;;
  price <- first_match item price_selectors read_price ;;
  if nonempty item_name && (nonempty description || nonempty price)
  then Ok (Some {| dish_name := item_name;
                   dish_description := description;
                   dish_price := price |})
  else Ok None.

(** Lines 203-256: an item whose processing raises is logged and left
    out. *)
Fixpoint extract_items (items : list Item) : list Dish :=
  match items with
  | [] => []
  | item :: rest =>
      match extract_item item with
      | Ok (Some d) => d :: extract_items rest
      | Ok None => extract_items rest
      | Raise _ => extract_items rest
      end
  end.

(** [scrape_menu_from_yelp] (lines 173-266).  [fetch url] stands for
    [requests.get], [raise_for_status] and the [BeautifulSoup] parse. *)
Definition scrape_menu_from_yelp (fetch : str -> res Soup) (menu_url : str)
  : res (list Dish) :=
  try_except
    (soup <- fetch menu_url ;;
     items <- select_items soup selectors_to_try [] ;;
     if negb (nonempty items) then Ok []
     else Ok (extract_items items))
    (fun e => match e with
              | RequestException | HTTPError _ => Ok []
              | _ => Ok []
              end).

(** The text an f-string gives for the restaurant's name.  Where it is used
    the name is a string: [construct_menu_url] has raised otherwise. *)
Definition format_name (v : json) : str :=
  match v with JStr s => s | _ => [] end.

(** [get_menu_data] (lines 268-285) *)
Definition get_menu_data (fetch : str -> res Soup) (restaurant : Restaurant)
  : res (option (list Menu * list Dish)) :=
  menu_url <- construct_menu_url restaurant ;;
  scraped_dishes <- scrape_menu_from_yelp fetch menu_url ;;
  if nonempty scraped_dishes then
    let menu := {| menu_name := format_name (name restaurant) ++ lit " Menu";
                   menu_description := lit "Main menu for " ++ format_name (name restaurant);
                   menu_type := lit "main";
                   display_order := 0;
                   restaurant_id := None |} in
    Ok (Some ([menu], scraped_dishes))
  else Ok None.

End Extraction.

(** ** PersistenceStore *)

(** Values are compared structurally when the store filters on a column. *)
Fixpoint json_eqb (a b : json) : bool :=
  match a, b with
  | JNull, JNull => true
  | JBool x, JBool y => Bool.eqb x y
  | JNum x, JNum y => (Qnum x =? Qnum y)%Z && (Qden x =? Qden y)%positive
  | JStr x, JStr y => str_eqb x y
  | JList x, JList y =>
      (fix go (x y : list json) : bool :=
         match x, y with
         | [], [] => true
         | h1 :: t1, h2 :: t2 => json_eqb h1 h2 && go t1 t2
         | _, _ => false
         end) x y
  | JDict x, JDict y =>
      (fix go (x y : list (str * json)) : bool :=
         match x, y with
         | [], [] => true
         | (k1, v1) :: t1, (k2, v2) :: t2 => str_eqb k1 k2 && json_eqb v1 v2 && go t1 t2
         | _, _ => false
         end) x y
  | _, _ => false
  end.

(** A table with a serial primary key. *)
Record Table (A : Type) := {
  rows : list (Z * A);
  next_id : Z
}.

Definition table_insert {A} (t : Table A) (a : A) : Z * Table A :=
  (next_id t, {| rows := rows t ++ [(next_id t, a)]; next_id := (next_id t + 1)%Z |}).

(** The row built at lines 340-346. *)
Record DishRow := {
  row_menu_id : Z;
  row_name : str;
  row_description : str;
  row_price : option pyfloat;
  row_display_order : Z
}.

Record DB := {
  restaurant_table : Table Restaurant;
  menu_table : Table Menu;
  dish_table : Table DishRow
}.

(** The store and the number of requests sent to it so far.  Request
    number [n] fails, without effect, when the fault oracle says so. *)
Record Store := {
  db : DB;
  calls : nat
}.

Definition M (A : Type) := Store -> res A * Store.

Definition ret {A} (a : A) : M A := fun st => (Ok a, st).

Definition lift {A} (r : res A) : M A := fun st => (r, st).

Definition bindM {A B} (m : M A) (k : A -> M B) : M B :=
  fun st => match m st with
            | (Ok a, st') => k a st'
            | (Raise e, st') => (Raise e, st')
            end.

Declare Scope store_scope.
Delimit Scope store_scope with store.
Notation "x <~ m ;; k" := (bindM m (fun x => k))
  (at level 100, m at next level, right associativity) : store_scope.

(** [....execute()] *)
Definition execute {A} (fault : nat -> option exn) (op : DB -> A * DB) : M A :=
  fun st =>
    match fault (calls st) with
    | Some e => (Raise e, {| db := db st; calls := S (calls st) |})
    | None => let (a, d) := op (db st) in (Ok a, {| db := d; calls := S (calls st) |})
    end.

(** [table('restaurant').select('id').eq('yelp_id', key)] *)
Definition select_restaurant (key : json) (d : DB) : list (Z * Restaurant) * DB :=
  (filter (fun row => json_eqb (yelp_id (snd row)) key) (rows (restaurant_table d)), d).

Definition insert_restaurant (r : Restaurant) (d : DB) : Z * DB :=
  let (id, t) := table_insert (restaurant_table d) r in
  (id, {| restaurant_table := t; menu_table := menu_table d; dish_table := dish_table d |}).

Definition insert_menu (m : Menu) (d : DB) : Z * DB :=
  let (id, t) := table_insert (menu_table d) m in
  (id, {| restaurant_table := restaurant_table d; menu_table := t; dish_table := dish_table d |}).

Definition insert_dish (r : DishRow) (d : DB) : Z * DB :=
  let (id, t) := table_insert (dish_table d) r in
  (id, {| restaurant_table := restaurant_table d; menu_table := menu_table d; dish_table := t |}).

Section Persistence.
Context {U : Unicode}.
Variable fault : nat -> option exn.
Open Scope store_scope.

(** Lines 337-346: the row to insert for a dish. *)
Definition dish_insert_data (menu_id : Z) (dish_data : Dish) : res DishRow :=
  (cleaned_price <- clean_price (dish_price dish_data) ;;
   Ok {| row_menu_id := menu_id;
         row_name := dish_name dish_data;
         row_description := dish_description dish_data;
         row_price := cleaned_price;
         row_display_order := 0 |})%res.

(** The loop of lines 336-348. *)
Fixpoint insert_dishes (menu_id : Z) (dishes : list Dish) : M unit :=
  match dishes with
  | [] => ret tt
  | dish_data :: rest =>
      row <~ lift (dish_insert_data menu_id dish_data) ;;
      _ <~ execute fault (insert_dish row) ;;
      insert_dishes menu_id rest
  end.

(** The loop of lines 328-350. *)
Fixpoint insert_menus (restaurant_id : Z) (menus : list Menu) (dishes : list Dish) : M unit :=
  match menus with
  | [] => ret tt
  | menu_data :: rest =>
      menu_id <~ execute fault (insert_menu {| menu_name := menu_name menu_data;
                                               menu_description := menu_description menu_data;
                                               menu_type := menu_type menu_data;
                                               display_order := display_order menu_data;
                                               restaurant_id := Some restaurant_id |}) ;;
      _ <~ insert_dishes menu_id dishes ;;
      insert_menus restaurant_id rest dishes
  end.

(** Lines 316-325: the id of the first row that carries the restaurant's
    [yelp_id], or of the row inserted when there is none. *)
Definition upsert_restaurant (restaurant : Restaurant) : M Z :=
  existing <~ execute fault (select_restaurant (yelp_id restaurant)) ;;
  match existing with
  | row :: _ => ret (fst row)
  | [] => execute fault (insert_restaurant restaurant)
  end.

(** [save_to_database] (lines 300-353).  The result is the exception the
    handler of line 352 logged, if any, and the store as the call left
    it. *)
Definition save_to_database (restaurant : Restaurant) (menus : list Menu)
    (dishes : list Dish) (st : Store) : option exn * Store :=
  match (restaurant_id <~ upsert_restaurant restaurant ;;
         insert_menus restaurant_id menus dishes) st with
  | (Ok _, st') => (None, st')
  | (Raise e, st') => (Some e, st')
  end.

End Persistence.

(** ** DirectorySearchClient *)

(** The outside world of one run.
    - [search_page location batch_num offset limit]: the decoded body of the
      search request of batch [batch_num], or the exception that
      [requests.get], [raise_for_status] or [response.json] raised;
    - [business_detail idx business_id]: the same for the detail request
      made for the business at position [idx] of the batch;
    - [menu_page idx url]: the parsed menu page fetched for that business;
    - [store_fault n]: the exception raised by the [n]-th store request. *)
Record World := {
  search_page : str -> nat -> Z -> Z -> res json;
  business_detail : nat -> json -> res json;
  menu_page : nat -> str -> res Soup;
  store_fault : nat -> option exn
}.

(** A page request as issued at line 73, with [len(all_businesses)] at that
    moment. *)
Record PageRequest := {
  req_batch : nat;
  req_offset : Z;
  req_limit : Z;
  req_collected : nat
}.

Definition batch_size : Z := 50.

Inductive page_outcome :=
| PageBreak
| PageExtend (businesses : list json).

(** The [try] body of lines 71-89 up to the [extend]. *)
Definition fetch_page (w : World) (location : str) (batch_num : nat) (offset limit : Z)
  : res page_outcome :=
  data <- search_page w location batch_num offset limit ;;
  businesses <- match data with
                | JDict d => Ok (dict_get d (lit "businesses") (JList []))
                | _ => Raise AttributeError
                end ;;
  if negb (truthy businesses) then Ok PageBreak
  else more <- py_iter businesses ;; Ok (PageExtend more).

(** The loop of lines 55-94 over the remaining batch numbers; the second
    component lists the page requests issued, in order. *)
Fixpoint search_loop (w : World) (location : str) (total_limit : Z)
    (batches : list nat) (all_businesses : list json) (issued : list PageRequest)
  : list json * list PageRequest :=
  match batches with
  | [] => (all_businesses, issued)
  | batch_num :: rest =>
      let offset := (Z.of_nat batch_num * batch_size)%Z in
      let limit := Z.min batch_size (total_limit - Z.of_nat (List.length all_businesses)) in
      if (limit <=? 0)%Z then (all_businesses, issued)
      else
        let issued := issued ++ [{| req_batch := batch_num; req_offset := offset;
                                    req_limit := limit;
                                    req_collected := List.length all_businesses |}] in
        match fetch_page w location batch_num offset limit with
        | Ok PageBreak => (all_businesses, issued)
        | Ok (PageExtend more) =>
            search_loop w location total_limit rest (all_businesses ++ more) issued
        | Raise _ => search_loop w location total_limit rest all_businesses issued
        end
  end.

Definition num_batches (total_limit : Z) : Z :=
  ((total_limit + batch_size - 1) / batch_size)%Z.

Definition search_run (w : World) (location : str) (total_limit : Z)
  : list json * list PageRequest :=
  search_loop w location total_limit (seq 0 (Z.to_nat (num_batches total_limit))) [] [].

(** [search_restaurants_batch] (lines 44-97) *)
Definition search_restaurants_batch (w : World) (location : str) (total_limit : Z)
  : list json :=
  fst (search_run w location total_limit).

(** The page requests [search_restaurants_batch] issues. *)
Definition search_requests (w : World) (location : str) (total_limit : Z)
  : list PageRequest :=
  snd (search_run w location total_limit).

(** [get_restaurant_details] (lines 99-111); [None] is [JNull]. *)
Definition get_restaurant_details (w : World) (idx : nat) (business_id : json) : json :=
  match business_detail w idx business_id with
  | Ok details => details
  | Raise _ => JNull
  end.

(** ** RestaurantIngestor *)

Fixpoint fold_res {A B} (f : A -> B -> res A) (l : list B) (a : A) : res A :=
  match l with
  | [] => Ok a
  | x :: t => a' <- f a x ;; fold_res f t a'
  end.

(** One element of a sequence given to [dict.update]: it has to be a
    sequence of length two with a hashable first component.  A key that is
    not a string is left out: no lookup of the module can find it. *)
Definition update_entry (d : dict) (elem : json) : res dict :=
  pair <- py_iter elem ;;
  match pair with
  | [k; v] => match k with
              | JStr key => Ok (dict_set d key v)
              | JList _ | JDict _ => Raise TypeError
              | _ => Ok d
              end
  | _ => Raise ValueError
  end.

(** [d.update(other)] *)
Definition dict_update (d : dict) (other : json) : res dict :=
  match other with
  | JDict entries => Ok (fold_left (fun acc kv => dict_set acc (fst kv) (snd kv)) entries d)
  | _ => elems <- py_iter other ;; fold_res update_entry elems d
  end.

(** The ingestor's state: the store, the two counters of lines 372-373 and
    the calls made to [save_to_database] so far. *)
Record Run := {
  store : Store;
  restaurants_processed : nat;
  restaurants_skipped : nat;
  save_calls : list (Restaurant * list Menu * list Dish)
}.

Section Ingestor.
Context {U : Unicode}.
Variable w : World.

(** Lines 376-384: the business merged with its details and converted. *)
Definition build_restaurant (idx : nat) (business : json) : res Restaurant :=
  match business with
  | JDict d =>
      _ <- py_getitem business (lit "name") ;;
      business_id <- py_getitem business (lit "id") ;;
      let detailed_info := get_restaurant_details w idx business_id in
      merged <- (if truthy detailed_info then dict_update d detailed_info else Ok d) ;;
      convert_to_restaurant merged
  | _ => Raise TypeError
  end.

(** The body of the loop of lines 375-407.  Every statement that can raise
    comes before the first write, so a raising body leaves [run] as it
    was. *)
Definition process_business (idx : nat) (business : json) (run : Run) : res Run :=
  restaurant <- build_restaurant idx business ;;
  menu_data <- get_menu_data (menu_page w idx) restaurant ;;
  match menu_data with
  | Some (menus, dishes) =>
      let (_, st) := save_to_database (store_fault w) restaurant menus dishes (store run) in
      Ok {| store := st;
            restaurants_processed := S (restaurants_processed run);
            restaurants_skipped := restaurants_skipped run;
            save_calls := save_calls run ++ [(restaurant, menus, dishes)] |}
  | None =>
      Ok {| store := store run;
            restaurants_processed := restaurants_processed run;
            restaurants_skipped := S (restaurants_skipped run);
            save_calls := save_calls run |}
  end.

(** The loop itself: an exception of the body leaves the loop and the
    method. *)
Fixpoint collect_loop (idx : nat) (businesses : list json) (run : Run)
  : option exn * Run :=
  match businesses with
  | [] => (None, run)
  | business :: rest =>
      match process_business idx business run with
      | Ok run' => collect_loop (S idx) rest run'
      | Raise e => (Some e, run)
      end
  end.

(** [collect_san_ramon_data] (lines 355-412), started on store [st]: the
    exception that ended the method, if any, and the final state. *)
Definition collect_san_ramon_data (total_restaurants : Z) (st : Store)
  : option exn * Run :=
  let businesses := search_restaurants_batch w (lit "San Ramon, CA") total_restaurants in
  let run := {| store := st; restaurants_processed := 0%nat;
                restaurants_skipped := 0%nat; save_calls := [] |} in
  if negb (nonempty businesses) then (None, run)
  else collect_loop 0 businesses run.

End Ingestor.

(** * Notions used by the statements

    Predicates and functions in which the properties are stated, the field
    rule as the specification words it, and the concrete pages, worlds and
    stores at which statements are evaluated. *)

Section Notions.
Context {U : Unicode}.

(** ** Extraction of an item *)

(** The field rule as the specification words it: a selector decides a
    field only when the value read from its element is not empty. *)
Fixpoint first_nonempty (item : Item) (selectors : list str) (read : str -> str)
  : res str :=
  match selectors with
  | [] => Ok []
  | sel :: rest =>
      found <- select_one item sel ;;
      match found with
      | Some elem =>
          if nonempty (read (get_text elem)) then Ok (read (get_text elem))
          else first_nonempty item rest read
      | None => first_nonempty item rest read
      end
  end.

(** [decided_by item selectors r]: [r] is the element found by the first
    selector of the list that finds one in [item], [None] when no selector
    finds one. *)
Inductive decided_by (item : Item) : list str -> option Elem -> Prop :=
| decided_nil : decided_by item [] None
| decided_here sel rest elem :
    select_one item sel = Ok (Some elem) ->
    decided_by item (sel :: rest) (Some elem)
| decided_later sel rest r :
    select_one item sel = Ok None ->
    decided_by item rest r ->
    decided_by item (sel :: rest) r.

Definition field_of (read : str -> str) (r : option Elem) : str :=
  match r with
  | Some elem => read (get_text elem)
  | None => []
  end.

Definition kept (d : Dish) : bool :=
  nonempty (dish_name d) && (nonempty (dish_description d) || nonempty (dish_price d)).

(** [extract_item] with the field rule of the specification. *)
Definition extract_item_as_specified (item : Item) : res (option Dish) :=
  item_name <- first_nonempty item name_selectors (fun t => t) ;;
  description <- first_nonempty item desc_selectors (fun t => t) ;;
  price <- first_nonempty item price_selectors read_price ;;
  if nonempty item_name && (nonempty description || nonempty price)
  then Ok (Some {| dish_name := item_name;
                   dish_description := description;
                   dish_price := price |})
  else Ok None.

(** ** Slugs and addresses *)

(** A clean slug: lower-case letters, digits and single hyphens, with no
    hyphen at either end. *)
Definition slug_char (c : N) : bool := is_az09 c || is_hyphen c.

Definition first_is_hyphen (s : str) : bool :=
  match s with
  | c :: _ => is_hyphen c
  | [] => false
  end.

Definition is_clean_slug (s : str) : bool :=
  forallb slug_char s && negb (contains (lit "--") s)
  && negb (first_is_hyphen s) && negb (first_is_hyphen (rev s)).

(** The letters s, d, p, l and h: every city name of the scan has one. *)
Definition city_letter (c : N) : bool :=
  ((c =? 115) || (c =? 100) || (c =? 112) || (c =? 108) || (c =? 104))%N.

(** What may follow the state in the last piece of an address: digits,
    spaces and hyphens, as in a ZIP code. *)
Definition zip_char (c : N) : bool :=
  ((c =? 32) || (48 <=? c) && (c <=? 57) || (c =? 45))%N.

(** ** Page requests *)

(** The directory honours [limit]: a page never holds more businesses than
    the request asked for. *)
Definition honours_limit (w : World) : Prop :=
  forall location batch_num offset limit more,
    fetch_page w location batch_num offset limit = Ok (PageExtend more) ->
    (Z.of_nat (List.length more) <= limit)%Z.

(** What the claim asks of a page request. *)
Definition within_limit (total_limit : Z) (rq : PageRequest) : Prop :=
  (1 <= req_limit rq <= batch_size)%Z
  /\ (Z.of_nat (req_collected rq) + req_limit rq <= total_limit)%Z.

(** ** The store *)

(** The identifiers stored in the restaurant table, one per row. *)
Definition yelp_ids (d : DB) : list json :=
  map (fun row => yelp_id (snd row)) (rows (restaurant_table d)).

(** The invariant of the data model: no identifier has two rows. *)
Definition unique_ids (d : DB) : Prop := NoDup (yelp_ids d).

(** [clean_price] never raising, the row of a dish is always built. *)
Definition dish_row (menu_id : Z) (dish_data : Dish) : DishRow :=
  {| row_menu_id := menu_id;
     row_name := dish_name dish_data;
     row_description := dish_description dish_data;
     row_price := match clean_price (dish_price dish_data) with
                  | Ok cleaned_price => cleaned_price
                  | Raise _ => None
                  end;
     row_display_order := 0 |}.

(** The rows appended by successful inserts, in order. *)
Definition insert_rows (new_rows : list DishRow) (d : DB) : DB :=
  fold_left (fun d r => snd (insert_dish r d)) new_rows d.

(** The store requests [upsert_restaurant] makes when none fails: the
    lookup, and the insert when the lookup finds no row. *)
Definition upsert_requests (restaurant : Restaurant) (d : DB) : nat :=
  if nonempty (fst (select_restaurant (yelp_id restaurant) d)) then 1 else 2.

(** The menu [get_menu_data] makes up for a restaurant. *)
Definition synthetic_menu (restaurant : Restaurant) : Menu :=
  {| menu_name := format_name (name restaurant) ++ lit " Menu";
     menu_description := lit "Main menu for " ++ format_name (name restaurant);
     menu_type := lit "main";
     display_order := 0;
     restaurant_id := None |}.

(** ** Shape of a business record *)

Definition is_str (v : json) : bool :=
  match v with JStr _ => true | _ => false end.

Definition has_title (cat : json) : bool :=
  match cat with
  | JDict d => match dict_lookup d (lit "title") with
               | Some (JStr _) => true
               | _ => false
               end
  | _ => false
  end.

(** The shape the directory documents for the two nested fields: [location]
    is an object whose [display_address], when present and not empty, is a
    list of strings; [categories], when present and not empty, is a list of
    objects that each have a string [title]. *)
Definition location_shaped (business_data : dict) : bool :=
  match dict_lookup business_data (lit "location") with
  | None => true
  | Some (JDict location) =>
      let display_address := dict_get location (lit "display_address") JNull in
      if truthy display_address
      then match display_address with
           | JList lines => forallb is_str lines
           | _ => false
           end
      else true
  | Some _ => false
  end.

Definition categories_shaped (business_data : dict) : bool :=
  let categories := dict_get business_data (lit "categories") JNull in
  if truthy categories
  then match categories with
       | JList cats => forallb has_title cats
       | _ => false
       end
  else true.

End Notions.

(** ** Scenarios *)

(** The item of the markup
    [<div class="menu-item"><h4></h4><h3>Burger</h3><p>Juicy</p></div>]. *)
Definition empty_h4_item : Item :=
  {| select_one := fun sel =>
       if str_eqb sel (lit "h4") then Ok (Some {| get_text := lit "" |})
       else if str_eqb sel (lit "h3") then Ok (Some {| get_text := lit "Burger" |})
       else if str_eqb sel (lit "p") then Ok (Some {| get_text := lit "Juicy" |})
       else Ok None |}.

(** An item with a name and two price elements, the first without an
    amount: [<h4>Burger</h4><span class="menu-item-price">Market price</span>
    <span class="price">$9.99</span>]. *)
Definition market_price_item : Item :=
  {| select_one := fun sel =>
       if str_eqb sel (lit "h4") then Ok (Some {| get_text := lit "Burger" |})
       else if str_eqb sel (lit ".menu-item-price")
            then Ok (Some {| get_text := lit "Market price" |})
       else if str_eqb sel (lit ".price") then Ok (Some {| get_text := lit "$9.99" |})
       else Ok None |}.

(** The name ["Joe's Café!"]: the letter e with acute accent is code point
    233. *)
Definition joes_cafe : str := lit "Joe's Caf" ++ [233%N] ++ lit "!".

(** A directory that answers every page request with two businesses. *)
Definition two_per_page : World :=
  {| search_page := fun _ _ _ _ =>
       Ok (JDict [(lit "businesses",
                   JList [JDict [(lit "id", JStr (lit "a"))];
                          JDict [(lit "id", JStr (lit "b"))]])]);
     business_detail := fun _ _ => Raise RequestException;
     menu_page := fun _ _ => Raise RequestException;
     store_fault := fun _ => None |}.

(** A directory with a single business, which it sends whenever at least one
    is asked for. *)
Definition one_business : World :=
  {| search_page := fun _ _ _ limit =>
       Ok (JDict [(lit "businesses",
                   JList (if (1 <=? limit)%Z
                          then [JDict [(lit "id", JStr (lit "a"))]] else []))]);
     business_detail := fun _ _ => Raise RequestException;
     menu_page := fun _ _ => Raise RequestException;
     store_fault := fun _ => None |}.

Definition empty_table (A : Type) : Table A := {| rows := []; next_id := 1 |}.

Definition empty_store : Store :=
  {| db := {| restaurant_table := empty_table Restaurant;
              menu_table := empty_table Menu;
              dish_table := empty_table DishRow |};
     calls := 0 |}.

(** The store request number [n] raises [e], the others succeed. *)
Definition fault_at (n : nat) (e : exn) : nat -> option exn :=
  fun i => if Nat.eqb i n then Some e else None.

Definition test_diner : json :=
  JDict [(lit "id", JStr (lit "abc"));
         (lit "name", JStr (lit "Test Diner"));
         (lit "location",
          JDict [(lit "display_address",
                  JList [JStr (lit "1 Main St"); JStr (lit "San Ramon, CA")])])].

Definition test_diner_restaurant : Restaurant :=
  {| name := JStr (lit "Test Diner"); rating := JNull; review_count := JNull;
     price_range := JNull; yelp_id := JStr (lit "abc"); website := JNull;
     address := JStr (lit "1 Main St, San Ramon, CA"); phone := JNull;
     cuisine_type := JNull |}.

Definition test_diner_menu : Menu :=
  {| menu_name := lit "Test Diner Menu";
     menu_description := lit "Main menu for Test Diner";
     menu_type := lit "main"; display_order := 0; restaurant_id := None |}.

Definition burger : Dish :=
  {| dish_name := lit "Burger"; dish_description := lit ""; dish_price := lit "$9.99" |}.
Definition fries : Dish :=
  {| dish_name := lit "Fries"; dish_description := lit "Crisp"; dish_price := lit "$3.50" |}.
Definition shake : Dish :=
  {| dish_name := lit "Shake"; dish_description := lit ""; dish_price := lit "$4" |}.

(** The item [<h4>Burger</h4><span class="price">$9.99</span>]. *)
Definition burger_item : Item :=
  {| select_one := fun sel =>
       if str_eqb sel (lit "h4") then Ok (Some {| get_text := lit "Burger" |})
       else if str_eqb sel (lit ".price") then Ok (Some {| get_text := lit "$9.99" |})
       else Ok None |}.

(** A page whose items carry the class [menuItem]. *)
Definition diner_page : Soup :=
  {| select := fun sel => if str_eqb sel (lit ".menuItem") then Ok [burger_item] else Ok [] |}.

(** A world with the given directory listing and store faults: the listing
    is the first page, detail requests fail, and the only menu page that
    exists is the Test Diner's. *)
Definition diner_world (listing : list json) (faults : nat -> option exn) : World :=
  {| search_page := fun _ batch_num _ _ =>
       match batch_num with
       | O => Ok (JDict [(lit "businesses", JList listing)])
       | S _ => Ok (JDict [(lit "businesses", JList [])])
       end;
     business_detail := fun _ _ => Raise RequestException;
     menu_page := fun _ url =>
       if str_eqb url (lit "https://www.yelp.com/menu/test-diner-san-ramon")
       then Ok diner_page else Raise (HTTPError 404);
     store_fault := faults |}.

(** A business record without the key [name]. *)
Definition nameless : json := JDict [(lit "id", JStr (lit "xyz"))].

Definition fresh_run : Run :=
  {| store := empty_store; restaurants_processed := 0;
     restaurants_skipped := 0; save_calls := [] |}.

(** ** Notions for the further properties *)

(** A directory that holds [listing] and serves it page by page, as asked:
    [limit] entries from position [offset], fewer at the end. *)
Definition paginates (w : World) (listing : list json) : Prop :=
  forall location batch_num offset limit,
    search_page w location batch_num offset limit
    = Ok (JDict [(lit "businesses",
                  JList (firstn (Z.to_nat limit) (skipn (Z.to_nat offset) listing)))]).

(** A directory none of whose search requests succeeds. *)
Definition search_down (w : World) : Prop :=
  forall location batch_num offset limit,
    exists e, search_page w location batch_num offset limit = Raise e.

(** A directory that is down. *)
Definition directory_down : World :=
  {| search_page := fun _ _ _ _ => Raise RequestException;
     business_detail := fun _ _ => Raise RequestException;
     menu_page := fun _ _ => Raise RequestException;
     store_fault := fun _ => None |}.

(** A directory that serves [listing] page by page; nothing else answers. *)
Definition paginating_directory (listing : list json) : World :=
  {| search_page := fun _ _ offset limit =>
       Ok (JDict [(lit "businesses",
                   JList (firstn (Z.to_nat limit) (skipn (Z.to_nat offset) listing)))]);
     business_detail := fun _ _ => Raise RequestException;
     menu_page := fun _ _ => Raise RequestException;
     store_fault := fun _ => None |}.

Definition base_url : str := lit "https://www.yelp.com/menu/".

(** The location slugs [construct_menu_url] can produce, and the city
    names it looks for. *)
Definition localities : list str :=
  [lit "san-ramon"; lit "dublin"; lit "pleasanton"; lit "livermore";
   lit "castro-valley"; lit "hayward"].

Definition city_names : list str :=
  [lit "san ramon"; lit "dublin"; lit "pleasanton"; lit "livermore";
   lit "castro valley"; lit "hayward"].

(** The piece of an address names one of the cities. *)
Definition names_city (part : str) : bool :=
  existsb (fun kw => contains kw (strip_chars is_space part)) city_names.

(** [t'] holds the rows of [t], unchanged and in place, and maybe more. *)
Definition grows {A} (t t' : Table A) : Prop :=
  exists added, rows t' = rows t ++ added.

Definition db_grows (d d' : DB) : Prop :=
  grows (restaurant_table d) (restaurant_table d')
  /\ grows (menu_table d) (menu_table d')
  /\ grows (dish_table d) (dish_table d').

Definition restaurant_ids (d : DB) : list Z := map fst (rows (restaurant_table d)).
Definition menu_ids (d : DB) : list Z := map fst (rows (menu_table d)).

(** No foreign key dangles: every menu row names a restaurant row, every
    dish row a menu row. *)
Definition references_ok (d : DB) : Prop :=
  (forall row, In row (rows (menu_table d)) ->
     exists rid, restaurant_id (snd row) = Some rid /\ In rid (restaurant_ids d))
  /\ (forall row, In row (rows (dish_table d)) ->
        In (row_menu_id (snd row)) (menu_ids d)).

(** The id [upsert_restaurant] resolves to when no request fails. *)
Definition resolved_id (restaurant : Restaurant) (d : DB) : Z :=
  match fst (select_restaurant (yelp_id restaurant) d) with
  | row :: _ => fst row
  | [] => next_id (restaurant_table d)
  end.

(** A menu as [save_to_database] inserts it. *)
Definition linked (restaurant_id : Z) (menu_data : Menu) : Menu :=
  {| menu_name := menu_name menu_data;
     menu_description := menu_description menu_data;
     menu_type := menu_type menu_data;
     display_order := display_order menu_data;
     restaurant_id := Some restaurant_id |}.

Section MoreNotions.
Context {U : Unicode}.

(** The dish rows written for [n] menus whose ids start at
    [first_menu_id]: all the dishes under each menu. *)
Fixpoint dish_rows_for (first_menu_id : Z) (n : nat) (dishes : list Dish) : list DishRow :=
  match n with
  | O => []
  | S n' => map (dish_row first_menu_id) dishes
            ++ dish_rows_for (first_menu_id + 1) n' dishes
  end.


(** The store after the given calls of [save_to_database], made in order. *)
Definition replay (fault : nat -> option exn)
    (saves : list (Restaurant * list Menu * list Dish)) (st : Store) : Store :=
  fold_left (fun st call =>
               snd (save_to_database fault (fst (fst call)) (snd (fst call)) (snd call) st))
    saves st.

End MoreNotions.

(** A directory whose detail request answers with a telephone number and a
    new name. *)
Definition detailed_directory : World :=
  {| search_page := fun _ _ _ _ => Raise RequestException;
     business_detail := fun _ _ =>
       Ok (JDict [(lit "phone", JStr (lit "+19255550100"));
                  (lit "name", JStr (lit "Test Diner and Bar"))]);
     menu_page := fun _ _ => Raise RequestException;
     store_fault := fun _ => None |}.

(** The directory serves [listing] page by page, except that every request
    for page [failing] raises. *)
Definition paginates_except (w : World) (listing : list json) (failing : nat) : Prop :=
  (forall location batch_num offset limit,
      batch_num <> failing ->
      search_page w location batch_num offset limit
      = Ok (JDict [(lit "businesses",
                    JList (firstn (Z.to_nat limit) (skipn (Z.to_nat offset) listing)))]))
  /\ (forall location offset limit,
         exists e, search_page w location failing offset limit = Raise e).

Definition failing_directory (listing : list json) (failing : nat) : World :=
  {| search_page := fun _ batch_num offset limit =>
       if Nat.eqb batch_num failing then Raise RequestException
       else Ok (JDict [(lit "businesses",
                        JList (firstn (Z.to_nat limit) (skipn (Z.to_nat offset) listing)))]);
     business_detail := fun _ _ => Raise RequestException;
     menu_page := fun _ _ => Raise RequestException;
     store_fault := fun _ => None |}.

(** ** Notions for the conversion to a float *)

(** The doubles that are not negative: [m * 2^e] with [m] of at most 53 bits
    and [e] from -1074 to 971. *)
Definition is_double (q : Q) : Prop :=
  exists m e : Z,
    (0 <= m < 2 ^ 53)%Z /\ (- 1074 <= e <= 971)%Z /\ q == inject_Z m * 2 ^ e.

(** Half way between the largest double and [2^1024]: from here on a value
    is nearer to [2^1024] than to any double. *)
Definition overflow_threshold : Q := 2 ^ 1024 - 2 ^ 970.

(** [x] is a correct rounding of the value [v]: a double that no other
    double is nearer to [v], or infinity when [v] is beyond every double. *)
Definition rounds_to (v : Q) (x : pyfloat) : Prop :=
  match x with
  | Finite q =>
      v <= overflow_threshold /\ is_double q
      /\ forall q', is_double q' -> Qabs (q - v) <= Qabs (q' - v)
  | Infinity => overflow_threshold <= v
  end.

Definition nonnegative (x : pyfloat) : Prop :=
  match x with
  | Finite q => 0 <= q
  | Infinity => True
  end.

(** ** Notions for the name slug and the Dublin address *)

Section SlugNotions.
Context {U : Unicode}.

(** The slug as the specification words it: the name in lower case, every
    run of characters other than a-z and 0-9 replaced by one hyphen, the
    hyphens at both ends trimmed. *)
Definition slug_as_specified (restaurant_name : str) : str :=
  let lowered := lower restaurant_name in
  let hyphenated := sub_runs (fun c => negb (is_az09 c)) (lit "-") lowered in
  strip_chars is_hyphen hyphenated.

End SlugNotions.

(** The ASCII letters and digits. *)
Definition is_ascii_alnum (c : N) : bool :=
  ((48 <=? c) && (c <=? 57) || (65 <=? c) && (c <=? 90) || (97 <=? c) && (c <=? 122))%N.

(** The text after the last comma of [s], all of [s] when it has none. *)
Definition last_part (s : str) : str := last (split_on comma s) [].

(** A restaurant of the given name and address. *)
Definition restaurant_at (restaurant_name address_text : str) : Restaurant :=
  {| name := JStr restaurant_name; rating := JNull; review_count := JNull;
     price_range := JNull; yelp_id := JStr (lit "abc"); website := JNull;
     address := JStr address_text; phone := JNull; cuisine_type := JNull |}.

(** * Properties *)

(** ** The string operations on small inputs *)

Example split_on_commas :
  split_on comma (lit "1 Main St, Dublin,,CA")
  = [lit "1 Main St"; lit " Dublin"; lit ""; lit "CA"].
Proof. reflexivity. Qed.

Example strip_spaces : strip_chars is_space (lit "  san ramon ") = lit "san ramon".
Proof. reflexivity. Qed.

Example name_slug_runs :
  name_slug (U := ascii_tables) (lit "  Bob & Sons -- BBQ (2nd St.) ") = lit "bob-sons-bbq-2nd-st".
Proof. reflexivity. Qed.

Example search_currency_amount :
  search_currency (U := ascii_tables) (lit "from $1,234.50 each") = Some (lit "$1,234.50").
Proof. reflexivity. Qed.

Example search_currency_nothing :
  search_currency (U := ascii_tables) (lit "Market price $ .50") = None.
Proof. reflexivity. Qed.

Example num_batches_values :
  num_batches 200 = 4%Z /\ num_batches 120 = 3%Z /\ num_batches 0 = 0%Z
  /\ num_batches (-5) = 0%Z.
Proof. repeat split; reflexivity. Qed.

(** ** Python floats: rounding to a double *)

Lemma round_half_even_spec (a b : Z) :
  (0 < b)%Z ->
  ((2 * round_half_even a b - 1) * b <= 2 * a <= (2 * round_half_even a b + 1) * b)%Z.
Proof.
  intros Hb. unfold round_half_even.
  pose proof (Z.div_mod a b ltac:(lia)) as Hdm.
  pose proof (Z.mod_pos_bound a b Hb) as Hr.
  destruct (Z.compare_spec (2 * (a mod b)) b) as [He|Hl|Hg];
    [destruct (Z.even (a / b))| |]; nia.
Qed.

Lemma inject_Z_pos (z : Z) : (0 < z)%Z -> 0 < inject_Z z.
Proof. intros H. rewrite Zlt_Qlt in H. exact H. Qed.

Lemma inject_Z_nonneg (z : Z) : (0 <= z)%Z -> 0 <= inject_Z z.
Proof. intros H. rewrite Zle_Qle in H. exact H. Qed.

Lemma inject_Z_sub (x y : Z) : inject_Z (x - y) == inject_Z x - inject_Z y.
Proof. unfold Z.sub. rewrite inject_Z_plus, inject_Z_opp. reflexivity. Qed.

Lemma pow2_pos (e : Z) : (0 < 2 ^ Z.max 0 e)%Z.
Proof. apply Z.pow_pos_nonneg; lia. Qed.

Lemma Qpow2_pos (e : Z) : 0 < 2 ^ e.
Proof. apply Qpower_0_lt. reflexivity. Qed.

Lemma Qpow2_add (n m : Z) : 2 ^ (n + m) == 2 ^ n * 2 ^ m.
Proof. apply Qpower_plus. discriminate. Qed.

Lemma Qpow2_succ (n : Z) : 2 ^ (n + 1) == 2 * 2 ^ n.
Proof. rewrite Qpow2_add. change (2 ^ 1) with 2. ring. Qed.

Lemma Qpow2_opp (n : Z) : 2 ^ n * 2 ^ (- n) == 1.
Proof. rewrite <- Qpow2_add, Z.add_opp_diag_r. reflexivity. Qed.

Lemma Qpow2_le (n m : Z) : (n <= m)%Z -> 2 ^ n <= 2 ^ m.
Proof.
  intros H. replace m with (n + (m - n))%Z by lia. rewrite Qpow2_add.
  assert (1 <= 2 ^ (m - n)) as H1.
  { rewrite <- (Zpower_Qpower 2 (m - n)) by lia.
    change 1 with (inject_Z 1). rewrite <- Zle_Qle.
    pose proof (Z.pow_pos_nonneg 2 (m - n)). lia. }
  pose proof (Qpow2_pos n). nra.
Qed.

(** [2 ^ max 0 e / 2 ^ max 0 (-e) = 2 ^ e] *)
Lemma pow2_ratio (e : Z) :
  inject_Z (2 ^ Z.max 0 e) == 2 ^ e * inject_Z (2 ^ Z.max 0 (- e)).
Proof.
  destruct (Z.le_gt_cases 0 e) as [H|H].
  - rewrite (Z.max_r 0 e), (Z.max_l 0 (- e)) by lia.
    rewrite (Zpower_Qpower 2 e) by lia. change (inject_Z (2 ^ 0)) with 1.
    change (inject_Z 2) with 2. ring.
  - rewrite (Z.max_l 0 e), (Z.max_r 0 (- e)) by lia.
    rewrite (Zpower_Qpower 2 (- e)) by lia. change (inject_Z (2 ^ 0)) with 1.
    change (inject_Z 2) with 2. rewrite Qpow2_opp. reflexivity.
Qed.

Lemma dyadic_value (m e : Z) : dyadic m e == inject_Z m * 2 ^ e.
Proof.
  unfold dyadic. rewrite Qmake_Qdiv, Z2Pos.id by apply pow2_pos.
  rewrite inject_Z_mult, pow2_ratio.
  pose proof (inject_Z_pos (pow2_pos (- e))) as Hp. field. lra.
Qed.

(** The value of the scaled fraction. *)
Lemma scaled_value (a b e : Z) :
  (0 < b)%Z ->
  inject_Z (fst (scaled a b e)) / inject_Z (snd (scaled a b e))
  == inject_Z a / inject_Z b * 2 ^ (- e).
Proof.
  intros Hb. unfold scaled. cbn [fst snd].
  rewrite !inject_Z_mult, (pow2_ratio e).
  pose proof (inject_Z_pos (pow2_pos (- e))) as Hp.
  apply inject_Z_pos in Hb.
  pose proof (Qpow2_pos e) as He. rewrite Qpower_opp.
  field. repeat split; lra.
Qed.

Lemma Qmult_neg_pos (x y : Q) : x * y < 0 -> 0 < y -> x < 0.
Proof.
  intros H Hy. destruct (Qlt_le_dec x 0) as [Hx|Hx]; [exact Hx|].
  pose proof (Qmult_le_0_compat x y Hx ltac:(lra)). lra.
Qed.

Lemma Qmult_pos_neg (x y : Q) : x < 0 -> 0 < y -> x * y < 0.
Proof.
  intros Hx Hy. pose proof (Qmult_lt_compat_r x 0 y Hy Hx) as H.
  rewrite Qmult_0_l in H. exact H.
Qed.

Lemma Qmult_pos_pos (x y : Q) : 0 < x -> 0 < y -> 0 < x * y.
Proof.
  intros Hx Hy. pose proof (Qmult_lt_compat_r 0 x y Hy Hx) as H.
  rewrite Qmult_0_l in H. exact H.
Qed.

Lemma Qmult_nonneg_pos (x y : Q) : 0 <= x * y -> 0 < y -> 0 <= x.
Proof.
  intros H Hy. destruct (Qlt_le_dec x 0) as [Hx|Hx]; [|exact Hx].
  pose proof (Qmult_pos_neg Hx Hy). lra.
Qed.

Lemma log2_bounds (a : Z) :
  (0 < a)%Z -> 2 ^ Z.log2 a <= inject_Z a /\ inject_Z a < 2 * 2 ^ Z.log2 a.
Proof.
  intros Ha. destruct (Z.log2_spec a Ha) as [Hl Hu].
  pose proof (Z.log2_nonneg a) as Hn.
  rewrite Z.pow_succ_r in Hu by exact Hn.
  rewrite Zle_Qle in Hl. rewrite Zlt_Qlt, inject_Z_mult in Hu.
  rewrite (Zpower_Qpower 2 (Z.log2 a)) in Hl, Hu by exact Hn.
  split; assumption.
Qed.

Lemma ratio_test (a b e : Z) :
  (0 < b)%Z ->
  (fst (scaled a b e) <? snd (scaled a b e))%Z = true
  <-> inject_Z a / inject_Z b < 2 ^ e.
Proof.
  intros Hb. rewrite Z.ltb_lt, Zlt_Qlt. unfold scaled. cbn [fst snd].
  rewrite !inject_Z_mult, (pow2_ratio e).
  pose proof (inject_Z_pos (pow2_pos (- e))) as Hp.
  apply inject_Z_pos in Hb. pose proof (Qpow2_pos e) as He.
  set (A := inject_Z a) in *. set (B := inject_Z b) in *.
  set (P := inject_Z (2 ^ Z.max 0 (- e))) in *. set (E := 2 ^ e) in *.
  assert (A / B * B == A) as Hv by (field; lra).
  set (v := A / B) in *.
  assert (0 < B * P) as H2 by (apply Qmult_pos_pos; assumption).
  split; intros H.
  - assert ((v - E) * (B * P) < 0) as H1 by (rewrite <- Hv in H; lra).
    pose proof (Qmult_neg_pos H1 H2). lra.
  - rewrite <- Hv. assert ((v - E) * (B * P) < 0) as H1 by (apply Qmult_pos_neg; lra).
    lra.
Qed.

(** [log2_ratio a b] is the binary exponent of [a / b]. *)
Lemma log2_ratio_spec (a b : Z) :
  (0 < a)%Z -> (0 < b)%Z ->
  2 ^ log2_ratio a b <= inject_Z a / inject_Z b
  /\ inject_Z a / inject_Z b < 2 * 2 ^ log2_ratio a b.
Proof.
  intros Ha Hb. destruct (log2_bounds Ha) as [Hal Hau].
  destruct (log2_bounds Hb) as [Hbl Hbu].
  unfold log2_ratio. cbv zeta.
  pose proof (ratio_test a (Z.log2 a - Z.log2 b) Hb) as Htest.
  pose proof (Qpow2_add (Z.log2 a - Z.log2 b) (Z.log2 b)) as Hadd.
  replace (Z.log2 a - Z.log2 b + Z.log2 b)%Z with (Z.log2 a) in Hadd by lia.
  pose proof (Qpow2_succ (Z.log2 a - Z.log2 b - 1)) as Hsucc.
  replace (Z.log2 a - Z.log2 b - 1 + 1)%Z with (Z.log2 a - Z.log2 b)%Z in Hsucc by lia.
  pose proof (Qpow2_pos (Z.log2 a)) as HX. pose proof (Qpow2_pos (Z.log2 b)) as HY.
  pose proof (Qpow2_pos (Z.log2 a - Z.log2 b)) as HL.
  pose proof (Qpow2_pos (Z.log2 a - Z.log2 b - 1)) as HL1.
  assert (0 < inject_Z b) as HB by (apply inject_Z_pos; exact Hb).
  assert (inject_Z a / inject_Z b * inject_Z b == inject_Z a) as Hv by (field; lra).
  set (v := inject_Z a / inject_Z b) in *.
  set (A := inject_Z a) in *. set (B := inject_Z b) in *.
  set (X := 2 ^ Z.log2 a) in *. set (Y := 2 ^ Z.log2 b) in *.
  set (L := 2 ^ (Z.log2 a - Z.log2 b)) in *.
  set (L1 := 2 ^ (Z.log2 a - Z.log2 b - 1)) in *.
  assert (0 <= L * (B - Y)) as HLB by (apply Qmult_le_0_compat; lra).
  assert (0 < L * (2 * Y - B)) as HLB' by (apply Qmult_pos_pos; lra).
  assert (v < 2 * L) as Hup.
  { assert ((v - 2 * L) * B < 0) as H1 by lra.
    pose proof (Qmult_neg_pos H1 HB). lra. }
  assert (L < 2 * v) as Hlow.
  { assert ((L - 2 * v) * B < 0) as H1 by lra.
    pose proof (Qmult_neg_pos H1 HB). lra. }
  destruct (fst (scaled a b (Z.log2 a - Z.log2 b)) <? snd (scaled a b (Z.log2 a - Z.log2 b)))%Z
    eqn:Et.
  - pose proof (proj1 Htest eq_refl). fold L1. split; lra.
  - assert (~ v < L) as Hn by (intros H; apply Htest in H; discriminate).
    fold L. split; lra.
Qed.

(** What the definition of [nearest_double] computes on the way: the value
    is [r * 2^e] with [r] below [2^53], and at least [2^52] unless the
    exponent is the least one, and [m] is an integer nearest to [r]. *)
Lemma rounding_facts (a b : Z) :
  (0 < a)%Z -> (0 < b)%Z ->
  let e := Z.max (log2_ratio a b - 52) (- 1074) in
  let m := round_half_even (fst (scaled a b e)) (snd (scaled a b e)) in
  exists r : Q,
    inject_Z a / inject_Z b == r * 2 ^ e
    /\ 0 <= r /\ r < 2 ^ 53
    /\ ((- 1074 < e)%Z -> 2 ^ 52 <= r)
    /\ 2 * inject_Z m - 1 <= 2 * r /\ 2 * r <= 2 * inject_Z m + 1.
Proof.
  intros Ha Hb e m.
  destruct (log2_ratio_spec Ha Hb) as [Hlow Hup].
  set (l := log2_ratio a b) in *.
  pose proof (scaled_value a e Hb) as Hr.
  assert (0 < snd (scaled a b e))%Z as Hd
    by (unfold scaled; cbn [snd]; pose proof (pow2_pos e); nia).
  pose proof (round_half_even_spec (fst (scaled a b e)) Hd) as Hm. fold m in Hm.
  destruct Hm as [Hm1 Hm2].
  rewrite Zle_Qle in Hm1, Hm2.
  rewrite !inject_Z_mult in Hm1, Hm2.
  rewrite inject_Z_sub, inject_Z_mult in Hm1.
  rewrite inject_Z_plus, inject_Z_mult in Hm2.
  change (inject_Z 2) with 2 in Hm1, Hm2. change (inject_Z 1) with 1 in Hm1, Hm2.
  apply inject_Z_pos in Hd.
  set (N := inject_Z (fst (scaled a b e))) in *.
  set (D := inject_Z (snd (scaled a b e))) in *.
  set (M := inject_Z m) in *.
  set (v := inject_Z a / inject_Z b) in *.
  assert (N / D * D == N) as HrD by (field; lra).
  set (r := N / D) in *.
  pose proof (Qpow2_pos e) as HE. pose proof (Qpow2_pos (- e)) as HF.
  pose proof (Qpow2_opp e) as HEF.
  pose proof (Qpow2_pos l) as HL.
  exists r. split; [|split; [|split; [|split; [|split]]]].
  - rewrite Hr, <- Qmult_assoc, (Qmult_comm (2 ^ (- e))), HEF. ring.
  - rewrite Hr. apply Qmult_le_0_compat; lra.
  - assert (2 * 2 ^ l * 2 ^ (- e) <= 2 ^ 53) as Hle.
    { rewrite <- Qpow2_succ, <- Qpow2_add. apply Qpow2_le. lia. }
    rewrite Hr.
    assert ((v - 2 * 2 ^ l) * 2 ^ (- e) < 0) as H1 by (apply Qmult_pos_neg; lra).
    lra.
  - intros Hnormal.
    assert (2 ^ 52 == 2 ^ l * 2 ^ (- e)) as ->.
    { rewrite <- Qpow2_add. replace (l + - e)%Z with 52%Z by lia. reflexivity. }
    rewrite Hr.
    assert (0 <= (v - 2 ^ l) * 2 ^ (- e)) as H1 by (apply Qmult_le_0_compat; lra).
    lra.
  - assert (0 <= (2 * r - (2 * M - 1)) * D) as H1 by lra.
    pose proof (Qmult_nonneg_pos H1 Hd). lra.
  - assert (0 <= (2 * M + 1 - 2 * r) * D) as H1 by lra.
    pose proof (Qmult_nonneg_pos H1 Hd). lra.
Qed.

Lemma Qmult_le_compat2 (a x b y : Q) :
  0 <= a -> a <= x -> 0 <= b -> b <= y -> a * b <= x * y.
Proof.
  intros Ha Hax Hb Hby.
  assert (0 <= (x - a) * b) by (apply Qmult_le_0_compat; lra).
  assert (0 <= x * (y - b)) by (apply Qmult_le_0_compat; lra).
  lra.
Qed.

Lemma Qabs_upper (x c : Q) : - c <= x -> x <= c -> Qabs x <= c.
Proof. intros H1 H2. apply Qabs_Qle_condition. split; assumption. Qed.

Lemma Qabs_lower (x c : Q) : c <= x \/ x <= - c -> c <= Qabs x.
Proof.
  intros [H|H].
  - pose proof (Qle_Qabs x). lra.
  - pose proof (Qle_Qabs (- x)) as H1. rewrite Qabs_opp in H1. lra.
Qed.

Lemma threshold_facts :
  0 <= overflow_threshold
  /\ 2 ^ 53 * 2 ^ 970 <= overflow_threshold
  /\ (2 ^ 53 - (1 # 2)) * 2 ^ 971 == overflow_threshold
  /\ overflow_threshold <= 2 ^ 52 * 2 ^ 972.
Proof.
  unfold overflow_threshold, Qle, Qeq.
  repeat split; vm_compute; try reflexivity; discriminate.
Qed.

Lemma log2_below (m : Z) (j : Z) : (0 <= j)%Z -> (m <= 2 ^ j)%Z -> (Z.log2 m <= j)%Z.
Proof.
  intros Hj Hm. rewrite <- (Z.log2_pow2 j Hj). apply Z.log2_le_mono. exact Hm.
Qed.

Lemma log2_above (m : Z) (j : Z) : (0 <= j)%Z -> (2 ^ j <= m)%Z -> (j <= Z.log2 m)%Z.
Proof.
  intros Hj Hm. rewrite <- (Z.log2_pow2 j Hj). apply Z.log2_le_mono. exact Hm.
Qed.

Lemma log2_large (m : Z) (j : Z) :
  (0 < m)%Z -> (0 <= j)%Z -> (j <= Z.log2 m)%Z -> (2 ^ j <= m)%Z.
Proof.
  intros Hm Hj Hl. destruct (Z.log2_spec m Hm) as [H _].
  pose proof (Z.pow_le_mono_r 2 j (Z.log2 m) ltac:(lia) Hl). lia.
Qed.

Lemma log2_small (m : Z) (j : Z) :
  (0 < m)%Z -> (Z.log2 m < j)%Z -> (m < 2 ^ j)%Z.
Proof.
  intros Hm Hl. destruct (Z.log2_spec m Hm) as [_ H].
  pose proof (Z.pow_le_mono_r 2 (Z.succ (Z.log2 m)) j ltac:(lia) ltac:(lia)). lia.
Qed.

Lemma inject_pow2 (j : Z) : (0 <= j)%Z -> inject_Z (2 ^ j) == 2 ^ j.
Proof. intros Hj. rewrite Zpower_Qpower by exact Hj. reflexivity. Qed.

(** [nearest_double] rounds correctly. *)
Lemma nearest_double_rounds (a b : Z) :
  (0 <= a)%Z -> (0 < b)%Z ->
  rounds_to (inject_Z a / inject_Z b) (nearest_double a b).
Proof.
  intros Ha Hb. destruct threshold_facts as [T0 [T1 [T2 T3]]].
  unfold nearest_double. destruct (Z.eqb_spec a 0) as [->|Hne].
  { (* zero *)
    assert (inject_Z 0 / inject_Z b == 0) as Hv by (unfold Qdiv; ring).
    cbn [rounds_to]. split; [rewrite Hv; exact T0|]. split.
    - exists 0%Z, 0%Z. split; [split; [lia | reflexivity]|]. split; [lia | reflexivity].
    - intros q' _. rewrite Hv. change (Qabs (0 - 0)) with 0. apply Qabs_nonneg. }
  assert (0 < a)%Z as Hpos by lia.
  destruct (rounding_facts Hpos Hb) as [r [Hv [Hr0 [Hr53 [Hnorm [Hm1 Hm2]]]]]].
  cbv zeta.
  set (e := Z.max (log2_ratio a b - 52) (- 1074)) in *.
  set (m := round_half_even (fst (scaled a b e)) (snd (scaled a b e))) in *.
  set (v := inject_Z a / inject_Z b) in *.
  assert (- 1074 <= e)%Z as He by (unfold e; lia).
  pose proof (Qpow2_pos e) as HE.
  pose proof (Qpow2_succ 52) as H53. change (52 + 1)%Z with 53%Z in H53.
  pose proof (Qpow2_pos 52) as H52.
  assert (0 <= m <= 2 ^ 53)%Z as Hm.
  { split.
    - assert (-1 < m)%Z; [|lia]. rewrite Zlt_Qlt. change (inject_Z (-1)) with (-1). lra.
    - assert (m < 2 ^ 53 + 1)%Z; [|lia].
      rewrite Zlt_Qlt, inject_Z_plus, inject_pow2 by lia.
      change (inject_Z 1) with 1. lra. }
  assert ((- 1074 < e)%Z -> (2 ^ 52 <= m)%Z) as Hmnorm.
  { intros Hn. specialize (Hnorm Hn).
    assert (2 ^ 52 - 1 < m)%Z; [|lia].
    rewrite Zlt_Qlt, inject_Z_sub, inject_pow2 by lia.
    change (inject_Z 1) with 1. lra. }
  assert (inject_Z m <= 2 ^ 53) as HM53.
  { rewrite <- inject_pow2 by lia. rewrite <- Zle_Qle. lia. }
  destruct (Z.leb_spec 1024 (Z.log2 m + e)) as [Hover|Hfin]; cbn [rounds_to].
  - (* infinity *)
    pose proof (log2_below (m := m) (j := 53) ltac:(lia) ltac:(lia)) as Hl53.
    assert (- 1074 < e)%Z as Hn by lia. specialize (Hnorm Hn).
    rewrite Hv. destruct (Z.le_gt_cases 972 e) as [Hbig|Hsmall].
    + pose proof (Qpow2_le Hbig) as Hle. pose proof (Qpow2_pos 972).
      pose proof (Qmult_le_compat2 (a := 2 ^ 52) (x := r) (b := 2 ^ 972) (y := 2 ^ e)
                    ltac:(lra) Hnorm ltac:(lra) Hle). lra.
    + assert (e = 971)%Z as -> by lia.
      assert (2 ^ 53 <= m)%Z as Hm53.
      { apply log2_large; [specialize (Hmnorm Hn); lia | lia | lia]. }
      assert (2 ^ 53 <= inject_Z m) as HMge.
      { rewrite <- inject_pow2 by lia. rewrite <- Zle_Qle. exact Hm53. }
      rewrite <- T2.
      apply Qmult_le_compat_r; [lra | apply Qlt_le_weak, Qpow2_pos].
  - (* a finite double *)
    assert (Qred (dyadic m e) == inject_Z m * 2 ^ e) as Hq
      by (rewrite Qred_correct; apply dyadic_value).
    split; [|split].
    + (* below the threshold *)
      rewrite Hv. destruct (Z.le_gt_cases e 970) as [Hsmall|Hbig].
      * pose proof (Qpow2_le Hsmall) as Hle.
        pose proof (Qmult_le_compat2 (a := r) (x := 2 ^ 53) (b := 2 ^ e) (y := 2 ^ 970)
                      Hr0 ltac:(lra) ltac:(lra) Hle). lra.
      * assert (- 1074 < e)%Z as Hn by lia. specialize (Hmnorm Hn).
        pose proof (log2_above (m := m) (j := 52) ltac:(lia) Hmnorm) as Hl52.
        assert (e = 971)%Z as He971 by lia. rewrite He971 in *.
        assert (m < 2 ^ 53)%Z as Hlt by (apply log2_small; lia).
        assert (inject_Z m <= 2 ^ 53 - 1) as HMle.
        { change 1 with (inject_Z 1). rewrite <- inject_pow2, <- inject_Z_sub by lia.
          rewrite <- Zle_Qle. lia. }
        rewrite <- T2.
        apply Qmult_le_compat_r; [lra | apply Qlt_le_weak, Qpow2_pos].
    + (* a double *)
      destruct (Z.eq_dec m (2 ^ 53)) as [Heq|Hneq].
      * exists (2 ^ 52)%Z, (e + 1)%Z.
        assert (Z.log2 m = 53%Z) as Hl by (rewrite Heq; apply Z.log2_pow2; lia).
        split; [split; [apply Z.pow_nonneg; lia | apply Z.pow_lt_mono_r; lia]|].
        split; [lia|].
        rewrite Hq, Heq, !inject_pow2, Qpow2_succ by lia. rewrite H53. ring.
      * exists m, e. split; [lia|]. split; [|exact Hq].
        split; [exact He|].
        destruct (Z.le_gt_cases e 971) as [Hle|Hgt]; [exact Hle|].
        assert (- 1074 < e)%Z as Hn by lia. specialize (Hmnorm Hn).
        pose proof (log2_above (m := m) (j := 52) ltac:(lia) Hmnorm). lia.
    + (* nearest *)
      intros q' [m' [e' [Hm' [He' Hq']]]].
      assert (Qred (dyadic m e) - v == (inject_Z m - r) * 2 ^ e) as Hdiff
        by (rewrite Hq, Hv; ring).
      assert (Qabs (Qred (dyadic m e) - v) <= (1 # 2) * 2 ^ e) as Hnear.
      { rewrite Hdiff. apply Qabs_upper.
        - assert (0 <= (inject_Z m - r + (1 # 2)) * 2 ^ e)
            by (apply Qmult_le_0_compat; lra). lra.
        - assert (0 <= ((1 # 2) - (inject_Z m - r)) * 2 ^ e)
            by (apply Qmult_le_0_compat; lra). lra. }
      assert (q' == Qred (dyadic m e) \/ (1 # 2) * 2 ^ e <= Qabs (q' - v)) as [Hsame|Hfar].
      { destruct (Z.le_gt_cases e e') as [Hge|Hlt].
        - (* a multiple of the unit *)
          set (k := (m' * 2 ^ (e' - e))%Z).
          assert (q' == inject_Z k * 2 ^ e) as Hk.
          { rewrite Hq'. unfold k. rewrite inject_Z_mult, inject_pow2 by lia.
            rewrite <- Qmult_assoc, <- Qpow2_add.
            replace (e' - e + e)%Z with e' by lia. reflexivity. }
          assert (q' - v == (inject_Z k - r) * 2 ^ e) as Hkd by (rewrite Hk, Hv; ring).
          destruct (Z.lt_trichotomy k m) as [Hlt|[Heq|Hgt]].
          + right. apply Qabs_lower. right. rewrite Hkd.
            assert (inject_Z k <= inject_Z m - 1) as Hle.
            { change 1 with (inject_Z 1). rewrite <- inject_Z_sub, <- Zle_Qle. lia. }
            assert (0 <= (r - inject_Z k - (1 # 2)) * 2 ^ e)
              by (apply Qmult_le_0_compat; lra). lra.
          + left. rewrite Hk, Hq, Heq. reflexivity.
          + right. apply Qabs_lower. left. rewrite Hkd.
            assert (inject_Z m + 1 <= inject_Z k) as Hle.
            { change 1 with (inject_Z 1). rewrite <- inject_Z_plus, <- Zle_Qle. lia. }
            assert (0 <= (inject_Z k - r - (1 # 2)) * 2 ^ e)
              by (apply Qmult_le_0_compat; lra). lra.
        - (* a double below the binade of the value *)
          right. apply Qabs_lower. right.
          assert (- 1074 < e)%Z as Hn by lia. specialize (Hnorm Hn).
          pose proof (Qpow2_succ (e - 1)) as Hhalf.
          replace (e - 1 + 1)%Z with e in Hhalf by lia.
          pose proof (Qpow2_pos (e - 1)) as Hh.
          assert (2 ^ e' <= 2 ^ (e - 1)) as Hle by (apply Qpow2_le; lia).
          assert (inject_Z m' <= 2 ^ 53 - 1) as HM'.
          { change 1 with (inject_Z 1). rewrite <- inject_pow2, <- inject_Z_sub by lia.
            rewrite <- Zle_Qle. lia. }
          assert (0 <= inject_Z m') as HM'0 by (apply inject_Z_nonneg; lia).
          pose proof (Qpow2_pos e') as He'0.
          pose proof (Qmult_le_compat2 (a := inject_Z m') (x := 2 ^ 53 - 1)
                        (b := 2 ^ e') (y := 2 ^ (e - 1)) HM'0 HM' ltac:(lra) Hle) as Hq'le.
          assert (0 <= (r - 2 ^ 52) * 2 ^ e) by (apply Qmult_le_0_compat; lra).
          rewrite Hq', Hv.
          assert (2 ^ 53 * 2 ^ (e - 1) == 2 ^ 52 * 2 ^ e) as Hsame
            by (rewrite H53, Hhalf; ring).
          lra. }
      * rewrite Hsame. apply Qle_refl.
      * lra.
Qed.

Lemma is_double_nonneg (q : Q) : is_double q -> 0 <= q.
Proof.
  intros [m [e [Hm [_ Hq]]]]. rewrite Hq.
  apply Qmult_le_0_compat; [apply inject_Z_nonneg; lia | apply Qlt_le_weak, Qpow2_pos].
Qed.

Lemma nearest_double_nonneg (a b : Z) :
  (0 <= a)%Z -> (0 < b)%Z -> nonnegative (nearest_double a b).
Proof.
  intros Ha Hb. pose proof (nearest_double_rounds Ha Hb) as H.
  destruct (nearest_double a b) as [q|]; cbn [nonnegative rounds_to] in *; [|exact I].
  apply is_double_nonneg, H.
Qed.

(** ** PriceParser *)

Section PriceParserFacts.
Context {U : Unicode}.

Lemma float_of_decimal_raises (s : str) (e : exn) :
  float_of_decimal s = Raise e -> e = ValueError.
Proof.
  unfold float_of_decimal.
  destruct (skipn _ s) as [|c frac].
  - destruct (take_while _ s); [intros [= <-]; reflexivity|].
    destruct (digits_value 0 _); [discriminate | intros [= <-]; reflexivity].
  - destruct (take_while _ s ++ frac); [intros [= <-]; reflexivity|].
    destruct (digits_value 0 _); [discriminate | intros [= <-]; reflexivity].
Qed.

Lemma clean_price_total (s : str) : exists r, clean_price s = Ok r.
Proof.
  unfold clean_price.
  destruct (negb (nonempty s)); [eauto|].
  destruct (nonempty (filter is_digit_or_dot s)); [|eauto].
  destruct (float_of_decimal _) as [q|e] eqn:E; simpl; [eauto|].
  apply float_of_decimal_raises in E; subst e; eauto.
Qed.

Lemma filter_twice {A} (p : A -> bool) (l : list A) :
  filter p (filter p l) = filter p l.
Proof.
  induction l as [|a l IH]; simpl; [reflexivity|].
  destruct (p a) eqn:E; simpl; rewrite ?E, IH; reflexivity.
Qed.

Lemma clean_price_strips (s : str) :
  clean_price s = clean_price (filter is_digit_or_dot s).
Proof.
  unfold clean_price. rewrite filter_twice.
  destruct s as [|c s]; [reflexivity|].
  cbn [nonempty negb].
  destruct (filter is_digit_or_dot (c :: s)) eqn:E; reflexivity.
Qed.

Lemma is_digit_dot : is_digit dot = false.
Proof. reflexivity. Qed.

Lemma digits_value_dot (acc : N) (s : str) :
  digits_value acc (dot :: s) = None.
Proof. reflexivity. Qed.

Lemma float_of_dots (s : str) :
  forallb (fun c => (c =? dot)%N) s = true -> float_of_decimal s = Raise ValueError.
Proof.
  destruct s as [|c s]; [reflexivity|].
  cbn [forallb]. intros H. apply andb_prop in H as [Hc Hs].
  apply N.eqb_eq in Hc; subst c.
  unfold float_of_decimal. cbn.
  destruct s as [|d s]; [reflexivity|].
  cbn [forallb] in Hs. apply andb_prop in Hs as [Hd _].
  apply N.eqb_eq in Hd; subst d. reflexivity.
Qed.

Lemma filter_without_digits (s : str) :
  existsb is_digit s = false ->
  forallb (fun c => (c =? dot)%N) (filter is_digit_or_dot s) = true.
Proof.
  induction s as [|c s IH]; [reflexivity|].
  cbn [existsb filter]. intros H. apply orb_false_elim in H as [Hc Hs].
  unfold is_digit_or_dot at 1. rewrite Hc. cbn [orb].
  destruct (c =? dot)%N eqn:E; cbn [forallb]; rewrite ?E; auto.
Qed.

Lemma clean_price_without_digits (s : str) :
  existsb is_digit s = false -> clean_price s = Ok None.
Proof.
  intros H. unfold clean_price.
  destruct (negb (nonempty s)); [reflexivity|].
  destruct (nonempty _); [|reflexivity].
  rewrite (float_of_dots _ (filter_without_digits _ H)). reflexivity.
Qed.

Lemma take_while_digits (ip rest : str) :
  forallb is_digit ip = true ->
  take_while (fun c => negb (c =? dot)%N) (ip ++ dot :: rest) = ip.
Proof.
  induction ip as [|c ip IH]; cbn [forallb app take_while]; intros H.
  - reflexivity.
  - apply andb_prop in H as [Hc Hip].
    destruct (c =? dot)%N eqn:E.
    + apply N.eqb_eq in E; subst c. rewrite is_digit_dot in Hc. discriminate.
    + cbn [negb]. rewrite IH by assumption. reflexivity.
Qed.

Lemma skipn_length_app {A} (l r : list A) : skipn (List.length l) (l ++ r) = r.
Proof. induction l; simpl; auto. Qed.

(** The value read from [ip.fp], [ip] and [fp] being runs of digits. *)
Lemma float_of_decimal_point (ip fp : str) (n : N) :
  forallb is_digit ip = true ->
  ip ++ fp <> [] ->
  digits_value 0 (ip ++ fp) = Some n ->
  float_of_decimal (ip ++ dot :: fp)
  = Ok (nearest_double (Z.of_N n) (10 ^ Z.of_nat (List.length fp))).
Proof.
  intros Hip Hne Hv. unfold float_of_decimal.
  rewrite (take_while_digits _ _ Hip), skipn_length_app, Hv.
  destruct (ip ++ fp); [contradiction | reflexivity].
Qed.

Lemma take_while_all_digits (ip : str) :
  forallb is_digit ip = true ->
  take_while (fun c => negb (c =? dot)%N) ip = ip.
Proof.
  induction ip as [|c ip IH]; cbn [forallb take_while]; intros H; [reflexivity|].
  apply andb_prop in H as [Hc Hip].
  destruct (c =? dot)%N eqn:Ec.
  - apply N.eqb_eq in Ec; subst c. rewrite is_digit_dot in Hc. discriminate.
  - cbn [negb]. rewrite IH by assumption. reflexivity.
Qed.

(** The value read from a run of digits without point. *)
Lemma float_of_decimal_integer (ip : str) (n : N) :
  forallb is_digit ip = true -> ip <> [] ->
  digits_value 0 ip = Some n ->
  float_of_decimal ip = Ok (nearest_double (Z.of_N n) 1).
Proof.
  intros Hip Hne Hv. unfold float_of_decimal. cbv zeta.
  rewrite (take_while_all_digits _ Hip), skipn_all.
  destruct ip; [contradiction | rewrite Hv; reflexivity].
Qed.

End PriceParserFacts.

(** ** MenuExtractor *)

Section ExtractorFacts.
Context {U : Unicode}.

Lemma select_items_nothing (soup : Soup) (selectors : list str) :
  (forall sel, In sel selectors -> select soup sel = Ok []) ->
  select_items soup selectors [] = Ok [].
Proof.
  induction selectors as [|sel rest IH]; intros H; cbn [select_items].
  - reflexivity.
  - rewrite (H sel) by (left; reflexivity). cbn.
    apply IH. intros s Hs. apply H. right. exact Hs.
Qed.

Lemma scrape_total (fetch : str -> res Soup) (url : str) :
  exists dishes, scrape_menu_from_yelp fetch url = Ok dishes.
Proof.
  unfold scrape_menu_from_yelp, try_except.
  destruct (fetch url) as [soup|e]; cbn [bind].
  - destruct (select_items soup selectors_to_try []) as [items|e]; cbn [bind].
    + destruct (negb (nonempty items)); eauto.
    + destruct e; eauto.
  - destruct e; eauto.
Qed.

(** C8.  [scrape_menu_from_yelp] returns a list whatever the fetch, the
    page queries and the items do; the list is empty when the fetch raises
    and when the page answers every selector of [selectors_to_try] with no
    element. *)
Theorem C8_scrape_never_raises (fetch : str -> res Soup) (url : str) :
  (exists dishes, scrape_menu_from_yelp fetch url = Ok dishes)
  /\ (forall e, fetch url = Raise e -> scrape_menu_from_yelp fetch url = Ok [])
  /\ (forall soup, fetch url = Ok soup ->
        (forall sel, In sel selectors_to_try -> select soup sel = Ok []) ->
        scrape_menu_from_yelp fetch url = Ok []).
Proof.
  split; [apply scrape_total|]. split.
  - intros e He. unfold scrape_menu_from_yelp. rewrite He. destruct e; reflexivity.
  - intros soup Hs Hnone. unfold scrape_menu_from_yelp. rewrite Hs. cbn [bind].
    rewrite (select_items_nothing _ _ Hnone). reflexivity.
Qed.

Lemma first_match_decided (item : Item) (selectors : list str) (read : str -> str) :
  (forall sel, exists r, select_one item sel = Ok r) ->
  exists r, decided_by item selectors r
            /\ first_match item selectors read = Ok (field_of read r).
Proof.
  intros Hq. induction selectors as [|sel rest [r [Hd Hf]]].
  - exists None. split; [constructor | reflexivity].
  - destruct (Hq sel) as [[elem|] Hsel].
    + exists (Some elem). split; [now constructor|].
      cbn [first_match]. rewrite Hsel. reflexivity.
    + exists r. split; [now constructor|].
      cbn [first_match]. rewrite Hsel. exact Hf.
Qed.

Lemma decided_by_unique (item : Item) (selectors : list str) (r1 r2 : option Elem) :
  decided_by item selectors r1 -> decided_by item selectors r2 -> r1 = r2.
Proof.
  intros H1. revert r2.
  induction H1 as [|sel rest elem Hs|sel rest r Hs _ IH]; intros r2 H2;
    inversion H2; subst; try congruence; auto.
Qed.

Lemma extract_item_kept (item : Item) (d : Dish) :
  extract_item item = Ok (Some d) -> kept d = true.
Proof.
  unfold extract_item.
  destruct (first_match item name_selectors _) as [n|]; [|discriminate].
  destruct (first_match item desc_selectors _) as [ds|]; [|discriminate].
  destruct (first_match item price_selectors _) as [p|]; [|discriminate].
  cbn [bind].
  destruct (nonempty n && (nonempty ds || nonempty p)) eqn:E; [|discriminate].
  intros [= <-]. exact E.
Qed.

Lemma extract_items_kept (items : list Item) (d : Dish) :
  In d (extract_items items) -> kept d = true.
Proof.
  induction items as [|item rest IH]; cbn [extract_items]; [contradiction|].
  destruct (extract_item item) as [[d'|]|e] eqn:E; auto.
  intros [<-|Hin]; [exact (extract_item_kept _ E) | auto].
Qed.

(** C9, amended.  For an item whose queries do not raise, each of the three
    fields is decided, independently of the other two, by the first selector
    of its list that finds an element, whatever that element's text: name
    and description are the element's text, the price is the currency match
    in the element's text or empty; a field whose selectors find nothing is
    empty.  The item is kept exactly when the name is not empty and the
    description or the price is not empty; every dish of an extraction
    satisfies this. *)
Theorem C9_fields_by_first_match (item : Item) :
  (forall sel, exists r, select_one item sel = Ok r) ->
  (exists n d p,
      decided_by item name_selectors n
      /\ decided_by item desc_selectors d
      /\ decided_by item price_selectors p
      /\ extract_item item
         = Ok (let dish := {| dish_name := field_of (fun t => t) n;
                              dish_description := field_of (fun t => t) d;
                              dish_price := field_of read_price p |} in
               if kept dish then Some dish else None))
  /\ (forall items dish, In dish (extract_items items) -> kept dish = true).
Proof.
  intros Hq. split; [|intros items dish; apply extract_items_kept].
  destruct (first_match_decided item name_selectors (fun t => t) Hq) as [n [Hn En]].
  destruct (first_match_decided item desc_selectors (fun t => t) Hq) as [d [Hd Ed]].
  destruct (first_match_decided item price_selectors read_price Hq) as [p [Hp Ep]].
  exists n, d, p. repeat (split; [assumption|]).
  unfold extract_item. rewrite En, Ed, Ep. cbn [bind]. unfold kept. cbn.
  destruct (nonempty _ && _); reflexivity.
Qed.

End ExtractorFacts.

(** C9, as stated, fails.  The empty [h4] decides the name of the first
    item, which is dropped although [h3] holds a name; the first price
    element decides the price of the second item, which is dropped although
    [.price] holds an amount.  Under the stated rule both would be kept. *)
Lemma C9_first_match_not_first_nonempty :
  extract_item (U := ascii_tables) empty_h4_item = Ok None
  /\ extract_item_as_specified (U := ascii_tables) empty_h4_item
     = Ok (Some {| dish_name := lit "Burger"; dish_description := lit "Juicy";
                   dish_price := lit "" |})
  /\ extract_item (U := ascii_tables) market_price_item = Ok None
  /\ extract_item_as_specified (U := ascii_tables) market_price_item
     = Ok (Some {| dish_name := lit "Burger"; dish_description := lit "";
                   dish_price := lit "$9.99" |}).
Proof. repeat split; reflexivity. Qed.

Lemma C9_fields_by_first_match_witness :
  (exists n d p,
      decided_by empty_h4_item name_selectors n
      /\ decided_by empty_h4_item desc_selectors d
      /\ decided_by empty_h4_item price_selectors p
      /\ extract_item (U := ascii_tables) empty_h4_item
         = Ok (let dish := {| dish_name := field_of (fun t => t) n;
                              dish_description := field_of (fun t => t) d;
                              dish_price := field_of (read_price (U := ascii_tables)) p |} in
               if kept dish then Some dish else None))
  /\ (forall items dish,
        In dish (extract_items (U := ascii_tables) items) -> kept dish = true).
Proof.
  apply (@C9_fields_by_first_match ascii_tables empty_h4_item).
  intros sel. unfold empty_h4_item; cbn [select_one].
  destruct (str_eqb sel (lit "h4")); [eauto|].
  destruct (str_eqb sel (lit "h3")); [eauto|].
  destruct (str_eqb sel (lit "p")); eauto.
Defined.

(** ** MenuUrlResolver *)

Lemma is_prefix_iff (p s : str) :
  is_prefix p s = true <-> exists r, s = p ++ r.
Proof.
  revert s. induction p as [|a p IH]; intros s; cbn [is_prefix].
  - split; [exists s; reflexivity | reflexivity].
  - destruct s as [|b s].
    + split; [discriminate | intros [r Hr]; discriminate].
    + rewrite andb_true_iff, N.eqb_eq, IH. split.
      * intros [<- [r ->]]. exists r. reflexivity.
      * intros [r [= <- ->]]. split; [reflexivity | exists r; reflexivity].
Qed.

Lemma contains_iff (needle hay : str) :
  contains needle hay = true <-> exists l r, hay = l ++ needle ++ r.
Proof.
  induction hay as [|c hay IH].
  - cbn [contains]. rewrite orb_false_r, is_prefix_iff. split.
    + intros [r Hr]. exists [], r. exact Hr.
    + intros [l [r Hr]]. destruct l; [exists r; exact Hr | discriminate].
  - cbn [contains]. rewrite orb_true_iff, is_prefix_iff, IH. split.
    + intros [[r Hr] | [l [r Hr]]].
      * exists [], r. exact Hr.
      * exists (c :: l), r. rewrite Hr. reflexivity.
    + intros [l [r Hr]]. destruct l as [|a l].
      * left. exists r. exact Hr.
      * right. injection Hr as _ Hr. exists l, r. exact Hr.
Qed.

Lemma contains_false_app (needle pre s : str) :
  contains needle (pre ++ s) = false -> contains needle s = false.
Proof.
  intros H. destruct (contains needle s) eqn:E; [|reflexivity].
  apply contains_iff in E as [l [r ->]].
  assert (contains needle (pre ++ l ++ needle ++ r) = true) as H'.
  { apply contains_iff. exists (pre ++ l), r. rewrite app_assoc. reflexivity. }
  congruence.
Qed.

Lemma drop_while_suffix (p : N -> bool) (s : str) :
  exists pre, s = pre ++ drop_while p s.
Proof.
  induction s as [|c s [pre IH]]; cbn [drop_while].
  - exists []. reflexivity.
  - destruct (p c).
    + exists (c :: pre). cbn. rewrite <- IH. reflexivity.
    + exists []. reflexivity.
Qed.

Lemma drop_while_first (s : str) : first_is_hyphen (drop_while is_hyphen s) = false.
Proof.
  induction s as [|c s IH]; cbn [drop_while]; [reflexivity|].
  destruct (is_hyphen c) eqn:E; [exact IH | exact E].
Qed.

Lemma drop_while_id (s : str) : first_is_hyphen s = false -> drop_while is_hyphen s = s.
Proof.
  destruct s as [|c s]; cbn; [reflexivity|]. intros ->. reflexivity.
Qed.

Lemma slug_char_cases (c : N) :
  slug_char c = true ->
  is_ascii c = true /\ ascii_lower c = c /\ negb (is_az09 c) = is_hyphen c.
Proof.
  unfold slug_char, is_ascii, ascii_lower, is_az09, is_hyphen, hyphen.
  destruct (N.leb_spec 97 c), (N.leb_spec c 122), (N.leb_spec 48 c),
    (N.leb_spec c 57), (N.leb_spec 65 c), (N.leb_spec c 90),
    (N.eqb_spec c 45), (N.ltb_spec c 128); cbn; intros; repeat split;
    try reflexivity; try discriminate; lia.
Qed.

Lemma is_prefix_pair (a b : N) (t : str) :
  is_prefix (lit "--") (a :: b :: t) = is_hyphen a && is_hyphen b.
Proof.
  change (lit "--") with [hyphen; hyphen]. cbn [is_prefix]. unfold is_hyphen.
  rewrite (N.eqb_sym hyphen a), (N.eqb_sym hyphen b), andb_true_r. reflexivity.
Qed.

Lemma is_prefix_pair_short (a : N) : is_prefix (lit "--") [a] = false.
Proof.
  change (lit "--") with [hyphen; hyphen]. cbn [is_prefix]. apply andb_false_r.
Qed.

Lemma lit_hyphen : lit "-" = [hyphen].
Proof. reflexivity. Qed.

(** A run replacement that sees single hyphens only changes nothing. *)
Lemma sub_runs_from_fixed (p : N -> bool) (s : str) :
  forall in_run,
    (forall c, In c s -> p c = is_hyphen c) ->
    contains (lit "--") s = false ->
    (in_run = true -> first_is_hyphen s = false) ->
    sub_runs_from in_run p (lit "-") s = s.
Proof.
  induction s as [|c s IH]; intros in_run Hp Hdd Hrun; [reflexivity|].
  cbn [sub_runs_from]. cbn [contains] in Hdd.
  apply orb_false_elim in Hdd as [Hpre Hdd].
  rewrite (Hp c) by (left; reflexivity).
  assert (forall c', In c' s -> p c' = is_hyphen c') as Hp'
    by (intros c' Hc'; apply Hp; right; exact Hc').
  destruct (is_hyphen c) eqn:Ec.
  - destruct in_run; [specialize (Hrun eq_refl); cbn [first_is_hyphen] in Hrun; congruence|].
    rewrite lit_hyphen. apply N.eqb_eq in Ec. subst c. cbn [app]. f_equal.
    apply IH; auto. intros _.
    destruct s as [|d s]; [reflexivity|].
    rewrite is_prefix_pair in Hpre. cbn [first_is_hyphen]. exact Hpre.
  - f_equal. apply IH; auto. discriminate.
Qed.

Lemma sub_runs_from_no_double (s : str) :
  forall in_run,
    contains (lit "--") (sub_runs_from in_run is_hyphen (lit "-") s) = false
    /\ (in_run = true ->
        first_is_hyphen (sub_runs_from in_run is_hyphen (lit "-") s) = false).
Proof.
  induction s as [|c s IH]; intros in_run; [split; reflexivity|].
  cbn [sub_runs_from]. rewrite lit_hyphen. destruct (is_hyphen c) eqn:Ec.
  - destruct (IH true) as [Hdd Hfirst]. specialize (Hfirst eq_refl).
    rewrite lit_hyphen in Hdd, Hfirst.
    destruct in_run; cbn [app]; [split; auto|].
    split; [|discriminate].
    cbn [contains]. rewrite Hdd, orb_false_r.
    destruct (sub_runs_from true is_hyphen _ s) as [|d t].
    + apply is_prefix_pair_short.
    + rewrite is_prefix_pair. cbn [first_is_hyphen] in Hfirst. rewrite Hfirst.
      apply andb_false_r.
  - destruct (IH false) as [Hdd _]. rewrite lit_hyphen in Hdd.
    split; [|intros _; exact Ec].
    cbn [contains]. rewrite Hdd, orb_false_r.
    destruct (sub_runs_from false is_hyphen _ s) as [|d t].
    + apply is_prefix_pair_short.
    + rewrite is_prefix_pair, Ec. reflexivity.
Qed.

Lemma sub_runs_from_slug_chars (s : str) :
  forall in_run,
    forallb slug_char (sub_runs_from in_run (fun c => negb (is_az09 c)) (lit "-") s) = true.
Proof.
  induction s as [|c s IH]; intros in_run; [reflexivity|].
  cbn [sub_runs_from]. destruct (is_az09 c) eqn:Ec; cbn [negb].
  - cbn [forallb]. unfold slug_char at 1. rewrite Ec, IH. reflexivity.
  - rewrite lit_hyphen. destruct in_run; cbn [app forallb]; rewrite IH; reflexivity.
Qed.

Lemma sub_runs_from_keeps (q p : N -> bool) (s : str) :
  forall in_run,
    q hyphen = true -> forallb q s = true ->
    forallb q (sub_runs_from in_run p (lit "-") s) = true.
Proof.
  induction s as [|c s IH]; intros in_run Hh Hs; [reflexivity|].
  cbn [forallb] in Hs. apply andb_prop in Hs as [Hc Hs].
  cbn [sub_runs_from]. destruct (p c).
  - rewrite lit_hyphen. destruct in_run; cbn [app forallb].
    + apply IH; assumption.
    + rewrite Hh. apply IH; assumption.
  - cbn [forallb]. rewrite Hc. apply IH; assumption.
Qed.

Lemma forallb_suffix {A} (q : A -> bool) (pre s : list A) :
  forallb q (pre ++ s) = true -> forallb q s = true.
Proof. rewrite forallb_app. intros H. apply andb_prop in H. tauto. Qed.

Lemma forallb_rev {A} (q : A -> bool) (s : list A) :
  forallb q (rev s) = forallb q s.
Proof.
  induction s as [|a s IH]; [reflexivity|].
  cbn [rev forallb]. rewrite forallb_app, IH. cbn. rewrite andb_true_r, andb_comm.
  reflexivity.
Qed.

Lemma contains_rev_pair (s : str) :
  contains (lit "--") (rev s) = contains (lit "--") s.
Proof.
  assert (forall t, contains (lit "--") t = true -> contains (lit "--") (rev t) = true) as H.
  { intros t Ht. apply contains_iff in Ht as [l [r ->]].
    apply contains_iff. exists (rev r), (rev l).
    rewrite !rev_app_distr, <- app_assoc. reflexivity. }
  destruct (contains (lit "--") s) eqn:E.
  - apply H. exact E.
  - destruct (contains (lit "--") (rev s)) eqn:E'; [|reflexivity].
    apply H in E'. rewrite rev_involutive in E'. congruence.
Qed.

Section SlugFacts.
Context {U : Unicode}.

Lemma lower_slug_chars (s : str) : forallb slug_char s = true -> lower s = s.
Proof.
  intros H. unfold lower.
  assert (forallb is_ascii s = true /\ map ascii_lower s = s) as [-> ->]; [|reflexivity].
  induction s as [|c s IH]; [split; reflexivity|].
  cbn [forallb] in H. apply andb_prop in H as [Hc Hs].
  destruct (slug_char_cases _ Hc) as [Ha [Hl _]]. destruct (IH Hs) as [IH1 IH2].
  cbn [forallb map]. rewrite Ha, Hl, IH1, IH2. split; reflexivity.
Qed.

Lemma strip_hyphens_id (s : str) :
  first_is_hyphen s = false -> first_is_hyphen (rev s) = false ->
  strip_chars is_hyphen s = s.
Proof.
  intros H1 H2. unfold strip_chars.
  rewrite (drop_while_id _ H1), (drop_while_id _ H2). apply rev_involutive.
Qed.

Lemma name_slug_clean_id (s : str) : is_clean_slug s = true -> name_slug s = s.
Proof.
  unfold is_clean_slug. rewrite !andb_true_iff, !negb_true_iff.
  intros [[[Hc Hdd] Hf] Hl]. unfold name_slug, sub_runs.
  rewrite (lower_slug_chars _ Hc).
  rewrite (sub_runs_from_fixed (fun c => negb (is_az09 c))); auto; try discriminate.
  - rewrite (sub_runs_from_fixed is_hyphen); auto; try discriminate.
    apply strip_hyphens_id; assumption.
  - intros c Hin. rewrite forallb_forall in Hc.
    apply (slug_char_cases c (Hc c Hin)).
Qed.

Lemma strip_hyphens_clean (s : str) :
  forallb slug_char s = true -> contains (lit "--") s = false ->
  is_clean_slug (strip_chars is_hyphen s) = true.
Proof.
  intros Hc Hdd. unfold strip_chars.
  destruct (drop_while_suffix is_hyphen s) as [pre Hs].
  set (d := drop_while is_hyphen s) in *.
  destruct (drop_while_suffix is_hyphen (rev d)) as [pre' Hd].
  set (u := drop_while is_hyphen (rev d)) in *.
  assert (forallb slug_char d = true) as Hcd
    by (apply (forallb_suffix _ pre); rewrite <- Hs; exact Hc).
  assert (contains (lit "--") d = false) as Hdd_d
    by (apply (contains_false_app _ pre); rewrite <- Hs; exact Hdd).
  assert (forallb slug_char u = true) as Hcu
    by (apply (forallb_suffix _ pre'); rewrite <- Hd, forallb_rev; exact Hcd).
  assert (contains (lit "--") u = false) as Hdd_u
    by (apply (contains_false_app _ pre'); rewrite <- Hd, contains_rev_pair; exact Hdd_d).
  unfold is_clean_slug.
  rewrite forallb_rev, Hcu, contains_rev_pair, Hdd_u, rev_involutive.
  replace (first_is_hyphen u) with false by (symmetry; apply drop_while_first).
  replace (first_is_hyphen (rev u)) with false; [reflexivity|].
  assert (first_is_hyphen d = false) as Hfd by apply drop_while_first.
  assert (d = rev u ++ rev pre') as Hrev.
  { rewrite <- rev_app_distr, <- Hd. symmetry. apply rev_involutive. }
  destruct (rev u) as [|c t]; [reflexivity|].
  rewrite Hrev in Hfd. exact (eq_sym Hfd).
Qed.

Lemma name_slug_is_clean (s : str) : is_clean_slug (name_slug s) = true.
Proof.
  unfold name_slug, sub_runs. apply strip_hyphens_clean.
  - apply sub_runs_from_keeps; [reflexivity | apply sub_runs_from_slug_chars].
  - apply sub_runs_from_no_double.
Qed.

End SlugFacts.

(** *** The locality scan *)

Lemma split_from_app (sep : N) (x y : str) :
  forall cur,
    split_from sep cur (x ++ sep :: y) = split_from sep cur x ++ split_from sep [] y.
Proof.
  induction x as [|c x IH]; intros cur; cbn [app split_from].
  - rewrite N.eqb_refl. reflexivity.
  - destruct (c =? sep)%N; [rewrite IH; reflexivity | apply IH].
Qed.

Lemma split_from_whole (sep : N) (s : str) :
  forall cur,
    forallb (fun c => negb (c =? sep)%N) s = true ->
    split_from sep cur s = [rev cur ++ s].
Proof.
  induction s as [|c s IH]; intros cur H; cbn [split_from].
  - rewrite app_nil_r. reflexivity.
  - cbn [forallb] in H. apply andb_prop in H as [Hc Hs].
    apply negb_true_iff in Hc. rewrite Hc, IH by assumption.
    cbn [rev]. rewrite <- app_assoc. reflexivity.
Qed.

Lemma contains_In (needle hay : str) (c : N) :
  contains needle hay = true -> In c needle -> In c hay.
Proof.
  intros H Hc. apply contains_iff in H as [l [r ->]].
  apply in_or_app. right. apply in_or_app. left. exact Hc.
Qed.

Lemma drop_while_In (p : N -> bool) (s : str) (c : N) :
  In c (drop_while p s) -> In c s.
Proof.
  destruct (drop_while_suffix p s) as [pre H]. intros Hc.
  rewrite H. apply in_or_app. right. exact Hc.
Qed.

Lemma strip_chars_In (p : N -> bool) (s : str) (c : N) :
  In c (strip_chars p s) -> In c s.
Proof.
  unfold strip_chars. intros H.
  apply in_rev, drop_while_In, in_rev, drop_while_In in H. exact H.
Qed.

Lemma scan_part_no_city (location part : str) :
  forallb (fun c => negb (city_letter c)) part = true ->
  scan_part location part = location.
Proof.
  intros H. rewrite forallb_forall in H.
  assert (forall kw c, In c kw -> city_letter c = true ->
                       contains kw (strip_chars is_space part) = false) as Hno.
  { intros kw c Hin Hc. destruct (contains kw _) eqn:E; [|reflexivity].
    apply (contains_In _ _ c E), strip_chars_In, H in Hin.
    rewrite Hc in Hin. discriminate. }
  unfold scan_part.
  rewrite (Hno (lit "san ramon") 115%N) by (cbn; tauto).
  rewrite (Hno (lit "dublin") 100%N) by (cbn; tauto).
  rewrite (Hno (lit "pleasanton") 112%N) by (cbn; tauto).
  rewrite (Hno (lit "livermore") 108%N) by (cbn; tauto).
  rewrite (Hno (lit "castro valley") 115%N) by (cbn; tauto).
  rewrite (Hno (lit "hayward") 104%N) by (cbn; tauto).
  reflexivity.
Qed.

Lemma zip_char_cases (c : N) :
  zip_char c = true ->
  is_ascii c = true /\ ascii_lower c = c /\ negb (c =? comma)%N = true
  /\ negb (city_letter c) = true.
Proof.
  unfold zip_char, is_ascii, ascii_lower, city_letter, comma.
  destruct (N.eqb_spec c 32), (N.leb_spec 48 c), (N.leb_spec c 57),
    (N.eqb_spec c 45), (N.leb_spec 65 c), (N.leb_spec c 90),
    (N.ltb_spec c 128), (N.eqb_spec c 44), (N.eqb_spec c 115),
    (N.eqb_spec c 100), (N.eqb_spec c 112), (N.eqb_spec c 108),
    (N.eqb_spec c 104); cbn; intros; repeat split;
    try reflexivity; try discriminate; lia.
Qed.

Section LocalityFacts.
Context {U : Unicode}.

Lemma lower_ascii_app (a b : str) :
  forallb is_ascii a = true -> forallb is_ascii b = true ->
  lower (a ++ b) = lower a ++ lower b.
Proof.
  intros Ha Hb. unfold lower. rewrite forallb_app, Ha, Hb. apply map_app.
Qed.

Lemma lower_zip (zip : str) :
  forallb zip_char zip = true -> forallb is_ascii zip = true /\ lower zip = zip.
Proof.
  intros H. unfold lower.
  assert (forallb is_ascii zip = true /\ map ascii_lower zip = zip) as [-> ->];
    [|split; reflexivity].
  induction zip as [|c zip IH]; [split; reflexivity|].
  cbn [forallb] in H. apply andb_prop in H as [Hc Hz].
  destruct (zip_char_cases _ Hc) as [Ha [Hl _]]. destruct (IH Hz) as [IH1 IH2].
  cbn [forallb map]. rewrite Ha, Hl, IH1, IH2. split; reflexivity.
Qed.

(** An address that reads [..., Dublin, CA] and a ZIP code is scanned to
    [dublin], whatever text stands before. *)
Lemma scan_dublin (street zip : str) :
  forallb is_ascii street = true -> forallb zip_char zip = true ->
  fold_left scan_part
    (split_on comma (lower (street ++ lit ", Dublin, CA" ++ zip)))
    (lit "san-ramon")
  = lit "dublin".
Proof.
  intros Hs Hz. destruct (lower_zip _ Hz) as [Haz Hlz].
  assert (forallb (fun c => negb (c =? comma)%N) (lit " ca" ++ zip) = true
          /\ forallb (fun c => negb (city_letter c)) (lit " ca" ++ zip) = true)
    as [Hnc Hnl].
  { rewrite !forallb_app. split; apply andb_true_intro; (split; [reflexivity|]);
      rewrite forallb_forall in Hz |- *; intros c Hc;
      apply (zip_char_cases c (Hz c Hc)). }
  assert (lower (street ++ lit ", Dublin, CA" ++ zip)
          = lower street ++ comma :: (lit " dublin" ++ comma :: (lit " ca" ++ zip)))
    as ->.
  { rewrite lower_ascii_app; [|assumption|rewrite forallb_app, Haz; reflexivity].
    rewrite (lower_ascii_app (lit ", Dublin, CA")) by (assumption || reflexivity).
    rewrite Hlz. reflexivity. }
  unfold split_on.
  rewrite (split_from_app comma (lower street)).
  rewrite (split_from_app comma (lit " dublin")).
  rewrite (split_from_whole comma (lit " dublin")) by reflexivity.
  rewrite (split_from_whole comma (lit " ca" ++ zip)) by exact Hnc.
  rewrite !fold_left_app. cbn [fold_left rev app].
  rewrite (scan_part_no_city _ _ Hnl). reflexivity.
Qed.

End LocalityFacts.

(** ** DirectorySearchClient *)

Section SearchFacts.
Variable w : World.
Variable location : str.
Variable total_limit : Z.

Lemma search_loop_requests (batches : list nat) :
  forall all_businesses issued,
    Forall (within_limit total_limit) issued ->
    Forall (within_limit total_limit)
      (snd (search_loop w location total_limit batches all_businesses issued)).
Proof.
  induction batches as [|batch_num rest IH]; intros all_businesses issued Hi;
    cbn [search_loop]; [exact Hi|].
  destruct (Z.leb_spec (Z.min batch_size
              (total_limit - Z.of_nat (List.length all_businesses))) 0) as [Hle|Hgt];
    [exact Hi|].
  match goal with
  | |- context [issued ++ [?rq]] =>
      assert (Forall (within_limit total_limit) (issued ++ [rq])) as Hi'
  end.
  { apply Forall_app. split; [exact Hi|]. constructor; [|constructor].
    unfold within_limit, batch_size in *. cbn [req_limit req_collected]. lia. }
  destruct (fetch_page _ _ _ _ _) as [[|more]|e]; cbn [snd]; auto.
Qed.

Lemma search_loop_bound (batches : list nat) :
  honours_limit w ->
  forall all_businesses issued,
    (Z.of_nat (List.length all_businesses) <= Z.max 0 total_limit)%Z ->
    (Z.of_nat (List.length
       (fst (search_loop w location total_limit batches all_businesses issued)))
     <= Z.max 0 total_limit)%Z.
Proof.
  intros Hw.
  induction batches as [|batch_num rest IH]; intros all_businesses issued Ha;
    cbn [search_loop]; [exact Ha|].
  destruct (Z.leb_spec (Z.min batch_size
              (total_limit - Z.of_nat (List.length all_businesses))) 0) as [Hle|Hgt];
    [exact Ha|].
  destruct (fetch_page _ _ _ _ _) as [[|more]|e] eqn:E; cbn [fst]; auto.
  apply IH. apply Hw in E. rewrite length_app, Nat2Z.inj_add. lia.
Qed.

End SearchFacts.

(** C5, as stated, fails.  Asked for one business, the search requests a
    page of one and returns the two businesses the directory sent: the
    answer is not cut to the count requested.  Asked for a negative number,
    it returns the empty list, which is longer than that number. *)
Lemma C5_more_than_total_limit :
  search_requests two_per_page (lit "San Ramon, CA") 1
  = [{| req_batch := 0; req_offset := 0; req_limit := 1; req_collected := 0 |}]
  /\ List.length (search_restaurants_batch two_per_page (lit "San Ramon, CA") 1) = 2%nat
  /\ search_restaurants_batch two_per_page (lit "San Ramon, CA") (-1) = [].
Proof. repeat split; reflexivity. Qed.

(** C5, amended.  Every page request asks for between 1 and 50 businesses,
    and for no more than [total_limit] less the number already collected;
    when the directory honours [limit] and [total_limit] is not negative,
    the search returns at most [total_limit] businesses. *)
Theorem C5_search_within_limit (w : World) (location : str) (total_limit : Z) :
  Forall (within_limit total_limit) (search_requests w location total_limit)
  /\ (honours_limit w -> (0 <= total_limit)%Z ->
      (Z.of_nat (List.length (search_restaurants_batch w location total_limit))
       <= total_limit)%Z).
Proof.
  split.
  - apply search_loop_requests. constructor.
  - intros Hw Ht. unfold search_restaurants_batch, search_run.
    pose proof (@search_loop_bound w location total_limit
                  (seq 0 (Z.to_nat (num_batches total_limit))) Hw [] []) as H.
    cbn [List.length] in H. lia.
Qed.

Lemma one_business_honours_limit : honours_limit one_business.
Proof.
  intros location batch_num offset limit more. unfold fetch_page, one_business.
  cbn [search_page bind]. change (dict_get _ _ _) with
    (JList (if (1 <=? limit)%Z then [JDict [(lit "id", JStr (lit "a"))]] else [])).
  destruct (Z.leb_spec 1 limit); cbn; [|discriminate].
  intros [= <-]. cbn. lia.
Qed.

Lemma C5_search_within_limit_witness :
  Forall (within_limit 120) (search_requests one_business (lit "San Ramon, CA") 120)
  /\ (Z.of_nat (List.length (search_restaurants_batch one_business (lit "San Ramon, CA") 120))
      <= 120)%Z.
Proof.
  destruct (C5_search_within_limit one_business (lit "San Ramon, CA") 120) as [Hr Hb].
  split; [exact Hr|]. apply Hb; [exact one_business_honours_limit | lia].
Defined.

(** ** PersistenceStore *)

Lemma str_eqb_eq (a b : str) : str_eqb a b = true <-> a = b.
Proof.
  unfold str_eqb. destruct (list_eq_dec N.eq_dec a b); split; congruence.
Qed.

Lemma json_eqb_eq : forall a b : json, json_eqb a b = true <-> a = b.
Proof.
  fix IH 1. intros a b. destruct a, b; cbn [json_eqb];
    try (split; [discriminate | intros H; discriminate H]).
  - split; reflexivity.
  - rewrite Bool.eqb_true_iff. split; congruence.
  - rewrite andb_true_iff, Z.eqb_eq, Pos.eqb_eq. destruct q, q0; simpl.
    split; [intros [-> ->]; reflexivity | intros [= -> ->]; split; reflexivity].
  - rewrite str_eqb_eq. split; congruence.
  - revert l0. induction l as [|x l IHl]; intros [|y l0];
      try (split; [discriminate | intros H; discriminate H]).
    + split; reflexivity.
    + rewrite andb_true_iff, IH, IHl. split.
      * intros [-> [= ->]]. reflexivity.
      * intros [= -> ->]. split; reflexivity.
  - revert d0. induction d as [|[k x] d IHd]; intros [|[k' y] d0];
      try (split; [discriminate | intros H; discriminate H]).
    + split; reflexivity.
    + rewrite !andb_true_iff, str_eqb_eq, IH, IHd. split.
      * intros [[-> ->] [= ->]]. reflexivity.
      * intros [= -> -> ->]. repeat split; reflexivity.
Qed.

Lemma select_none_not_in (key : json) (d : DB) :
  fst (select_restaurant key d) = [] -> ~ In key (yelp_ids d).
Proof.
  unfold select_restaurant, yelp_ids. cbn [fst].
  induction (rows (restaurant_table d)) as [|row l IH]; cbn [filter map]; [tauto|].
  destruct (json_eqb (yelp_id (snd row)) key) eqn:E; [discriminate|].
  intros H [Heq|Hin]; [|exact (IH H Hin)].
  apply json_eqb_eq in Heq. congruence.
Qed.

Lemma select_some_in (key : json) (d : DB) :
  In key (yelp_ids d) ->
  exists row others,
    fst (select_restaurant key d) = row :: others
    /\ In row (rows (restaurant_table d)) /\ yelp_id (snd row) = key.
Proof.
  unfold select_restaurant, yelp_ids. cbn [fst].
  induction (rows (restaurant_table d)) as [|row l IH]; cbn [filter map In]; [tauto|].
  destruct (json_eqb (yelp_id (snd row)) key) eqn:E.
  - intros _. apply json_eqb_eq in E. eauto 6.
  - intros [Heq|Hin].
    + apply json_eqb_eq in Heq. congruence.
    + destruct (IH Hin) as [r [o [H1 [H2 H3]]]]. eauto 7.
Qed.

Section PersistenceFacts.
Context {U : Unicode}.
Variable fault : nat -> option exn.

Lemma execute_cases {A} (op : DB -> A * DB) (st : Store) :
  execute fault op st
  = match fault (calls st) with
    | Some e => (Raise e, {| db := db st; calls := S (calls st) |})
    | None => (Ok (fst (op (db st))), {| db := snd (op (db st)); calls := S (calls st) |})
    end.
Proof. unfold execute. destruct (fault (calls st)), (op (db st)); reflexivity. Qed.

Lemma dish_insert_data_row (menu_id : Z) (dish_data : Dish) :
  dish_insert_data menu_id dish_data = Ok (dish_row menu_id dish_data).
Proof.
  unfold dish_insert_data, dish_row.
  destruct (clean_price_total (dish_price dish_data)) as [p ->]. reflexivity.
Qed.

Lemma insert_dishes_step (menu_id : Z) (dish_data : Dish) (rest : list Dish) (st : Store) :
  insert_dishes fault menu_id (dish_data :: rest) st
  = match fault (calls st) with
    | Some e => (Raise e, {| db := db st; calls := S (calls st) |})
    | None =>
        insert_dishes fault menu_id rest
          {| db := snd (insert_dish (dish_row menu_id dish_data) (db st));
             calls := S (calls st) |}
    end.
Proof.
  cbn [insert_dishes]. unfold bindM at 1, lift. rewrite dish_insert_data_row.
  unfold bindM at 1. rewrite execute_cases. destruct (fault (calls st)); reflexivity.
Qed.

Lemma insert_dishes_restaurants (menu_id : Z) (dishes : list Dish) :
  forall st,
    restaurant_table (db (snd (insert_dishes fault menu_id dishes st)))
    = restaurant_table (db st).
Proof.
  induction dishes as [|dish_data rest IH]; intros st; [reflexivity|].
  rewrite insert_dishes_step. destruct (fault (calls st)); [reflexivity|].
  rewrite IH. reflexivity.
Qed.

Lemma insert_menus_restaurants (rid : Z) (menus : list Menu) (dishes : list Dish) :
  forall st,
    restaurant_table (db (snd (insert_menus fault rid menus dishes st)))
    = restaurant_table (db st).
Proof.
  induction menus as [|menu_data rest IH]; intros st; [reflexivity|].
  cbn [insert_menus]. unfold bindM at 1. rewrite execute_cases.
  destruct (fault (calls st)); [reflexivity|].
  unfold bindM at 1.
  match goal with
  | |- context [insert_dishes fault ?m dishes ?s] =>
      pose proof (insert_dishes_restaurants m dishes s) as Hd;
      destruct (insert_dishes fault m dishes s) as [[[]|e] st']
  end; cbn [snd] in *.
  - rewrite IH, Hd. reflexivity.
  - rewrite Hd. reflexivity.
Qed.

(** What [upsert_restaurant] does to the restaurant table: nothing, or one
    row appended for an identifier that had none. *)
Lemma upsert_restaurant_table (restaurant : Restaurant) (st : Store) :
  restaurant_table (db (snd (upsert_restaurant fault restaurant st)))
  = restaurant_table (db st)
  \/ (~ In (yelp_id restaurant) (yelp_ids (db st))
      /\ rows (restaurant_table (db (snd (upsert_restaurant fault restaurant st))))
         = rows (restaurant_table (db st))
           ++ [(next_id (restaurant_table (db st)), restaurant)]).
Proof.
  unfold upsert_restaurant, bindM. rewrite execute_cases.
  destruct (fault (calls st)); [left; reflexivity|].
  destruct (fst (select_restaurant (yelp_id restaurant) (db st))) as [|row others] eqn:E;
    [|left; reflexivity].
  rewrite execute_cases. cbn [calls db].
  destruct (fault (S (calls st))); [left; reflexivity|].
  right. split; [exact (select_none_not_in _ _ E) | reflexivity].
Qed.

Lemma upsert_restaurant_existing (restaurant : Restaurant) (st : Store) :
  In (yelp_id restaurant) (yelp_ids (db st)) ->
  db (snd (upsert_restaurant fault restaurant st)) = db st
  /\ (fault (calls st) = None ->
      exists row,
        In row (rows (restaurant_table (db st)))
        /\ yelp_id (snd row) = yelp_id restaurant
        /\ upsert_restaurant fault restaurant st
           = (Ok (fst row), {| db := db st; calls := S (calls st) |})).
Proof.
  intros Hin. destruct (select_some_in _ _ Hin) as [row [others [Hsel [Hrow Hid]]]].
  unfold upsert_restaurant, bindM. rewrite execute_cases.
  destruct (fault (calls st)); [split; [reflexivity | discriminate]|].
  rewrite Hsel. split; [reflexivity|]. intros _. exists row. auto.
Qed.

Lemma upsert_restaurant_present (restaurant : Restaurant) (st : Store) :
  fault (calls st) = None -> fault (S (calls st)) = None ->
  In (yelp_id restaurant)
     (yelp_ids (db (snd (upsert_restaurant fault restaurant st)))).
Proof.
  intros H0 H1. unfold upsert_restaurant, bindM. rewrite execute_cases, H0.
  destruct (fst (select_restaurant (yelp_id restaurant) (db st))) as [|row others] eqn:E.
  - rewrite execute_cases. cbn [calls db]. rewrite H1. cbn [snd db].
    unfold yelp_ids, insert_restaurant, table_insert. cbn.
    rewrite map_app. apply in_or_app. right. left. reflexivity.
  - cbn [snd db]. unfold select_restaurant, yelp_ids in *. cbn [fst] in E.
    assert (In row (filter (fun r => json_eqb (yelp_id (snd r)) (yelp_id restaurant))
                      (rows (restaurant_table (db st))))) as Hrow
      by (rewrite E; left; reflexivity).
    apply filter_In in Hrow as [Hr Heq]. apply json_eqb_eq in Heq.
    rewrite <- Heq. apply (in_map (fun r => yelp_id (snd r))). exact Hr.
Qed.

Lemma save_to_database_store (restaurant : Restaurant) (menus : list Menu)
    (dishes : list Dish) (st : Store) :
  snd (save_to_database fault restaurant menus dishes st)
  = match upsert_restaurant fault restaurant st with
    | (Ok rid, st') => snd (insert_menus fault rid menus dishes st')
    | (Raise _, st') => st'
    end.
Proof.
  unfold save_to_database, bindM.
  destruct (upsert_restaurant fault restaurant st) as [[rid|e] st']; [|reflexivity].
  destruct (insert_menus fault rid menus dishes st') as [[[]|e] st'']; reflexivity.
Qed.

Lemma save_to_database_restaurants (restaurant : Restaurant) (menus : list Menu)
    (dishes : list Dish) (st : Store) :
  restaurant_table (db (snd (save_to_database fault restaurant menus dishes st)))
  = restaurant_table (db (snd (upsert_restaurant fault restaurant st))).
Proof.
  rewrite save_to_database_store.
  destruct (upsert_restaurant fault restaurant st) as [[rid|e] st']; [|reflexivity].
  apply insert_menus_restaurants.
Qed.

Lemma save_to_database_existing (restaurant : Restaurant) (menus : list Menu)
    (dishes : list Dish) (st : Store) :
  In (yelp_id restaurant) (yelp_ids (db st)) ->
  restaurant_table (db (snd (save_to_database fault restaurant menus dishes st)))
  = restaurant_table (db st).
Proof.
  intros Hin. rewrite save_to_database_restaurants.
  destruct (upsert_restaurant_existing restaurant st Hin) as [-> _]. reflexivity.
Qed.

Lemma NoDup_snoc {A} (l : list A) (a : A) : NoDup l -> ~ In a l -> NoDup (l ++ [a]).
Proof.
  intros Hl Ha. apply NoDup_rev in Hl. rewrite <- (rev_involutive (l ++ [a])).
  apply NoDup_rev. rewrite rev_app_distr. cbn. constructor; [|exact Hl].
  rewrite <- in_rev. exact Ha.
Qed.

Lemma save_to_database_unique (restaurant : Restaurant) (menus : list Menu)
    (dishes : list Dish) (st : Store) :
  unique_ids (db st) ->
  unique_ids (db (snd (save_to_database fault restaurant menus dishes st))).
Proof.
  unfold unique_ids, yelp_ids. rewrite save_to_database_restaurants.
  destruct (upsert_restaurant_table restaurant st) as [-> | [Hnew ->]]; [tauto|].
  intros Hu. rewrite map_app. apply NoDup_snoc; assumption.
Qed.

End PersistenceFacts.

(** *** Dishes are inserted one after the other, inside one [try] *)

Lemma insert_rows_tables (new_rows : list DishRow) :
  forall d,
    map snd (rows (dish_table (insert_rows new_rows d)))
    = map snd (rows (dish_table d)) ++ new_rows
    /\ restaurant_table (insert_rows new_rows d) = restaurant_table d
    /\ menu_table (insert_rows new_rows d) = menu_table d.
Proof.
  induction new_rows as [|r rest IH]; intros d; cbn [insert_rows fold_left].
  - rewrite app_nil_r. auto.
  - destruct (IH (snd (insert_dish r d))) as [H1 [H2 H3]].
    unfold insert_rows in *. rewrite H1, H2, H3. cbn.
    rewrite map_app, <- app_assoc. auto.
Qed.

Section DishFacts.
Context {U : Unicode}.
Variable fault : nat -> option exn.

Lemma insert_dishes_prefix (menu_id : Z) (pre rest : list Dish) :
  forall st,
    (forall i, (i < List.length pre)%nat -> fault (calls st + i) = None) ->
    insert_dishes fault menu_id (pre ++ rest) st
    = insert_dishes fault menu_id rest
        {| db := insert_rows (map (dish_row menu_id) pre) (db st);
           calls := calls st + List.length pre |}.
Proof.
  induction pre as [|dish_data pre IH]; intros st Hok.
  - cbn. rewrite Nat.add_0_r. destruct st; reflexivity.
  - cbn [app]. rewrite insert_dishes_step.
    assert (fault (calls st) = None) as ->
      by (rewrite <- (Nat.add_0_r (calls st)); apply Hok; cbn; lia).
    rewrite IH.
    + cbn [db calls List.length map insert_rows fold_left].
      f_equal. f_equal. lia.
    + intros i Hi. cbn [calls].
      replace (S (calls st) + i)%nat with (calls st + S i)%nat by lia.
      apply Hok. cbn. lia.
Qed.

Lemma insert_dishes_all (menu_id : Z) (dishes : list Dish) (st : Store) :
  (forall i, (i < List.length dishes)%nat -> fault (calls st + i) = None) ->
  insert_dishes fault menu_id dishes st
  = (Ok tt, {| db := insert_rows (map (dish_row menu_id) dishes) (db st);
               calls := calls st + List.length dishes |}).
Proof.
  intros Hok. pose proof (insert_dishes_prefix menu_id dishes [] st Hok) as E.
  rewrite app_nil_r in E. exact E.
Qed.

Lemma upsert_restaurant_ok (restaurant : Restaurant) (st : Store) :
  (forall i, (i < upsert_requests restaurant (db st))%nat -> fault (calls st + i) = None) ->
  exists rid d,
    upsert_restaurant fault restaurant st
    = (Ok rid, {| db := d; calls := calls st + upsert_requests restaurant (db st) |})
    /\ menu_table d = menu_table (db st) /\ dish_table d = dish_table (db st).
Proof.
  unfold upsert_requests, upsert_restaurant, bindM. intros Hok.
  rewrite execute_cases.
  destruct (fst (select_restaurant (yelp_id restaurant) (db st))) as [|row others] eqn:E;
    cbn [nonempty] in *.
  - assert (fault (calls st) = None) as ->
      by (rewrite <- (Nat.add_0_r (calls st)); apply Hok; lia).
    rewrite execute_cases. cbn [calls db].
    assert (fault (S (calls st)) = None) as ->
      by (rewrite <- Nat.add_1_r; apply Hok; lia).
    replace (calls st + 2)%nat with (S (S (calls st))) by lia.
    eexists _, _. split; [reflexivity|]. split; reflexivity.
  - assert (fault (calls st) = None) as ->
      by (rewrite <- (Nat.add_0_r (calls st)); apply Hok; lia).
    replace (calls st + 1)%nat with (S (calls st)) by lia.
    eexists _, _. split; [reflexivity|]. split; reflexivity.
Qed.

(** C4, amended.  [save_to_database] is called with one menu and the dishes
    [pre ++ dish :: post].  When the store requests up to the insert of
    [dish] succeed and that insert raises [e], the handler of the method
    catches and logs [e] and the call ends: the rows of [pre] have been
    added to the dish table, no row of [dish] or of [post] has.  When no
    request fails, no exception is logged and every dish has its row. *)
Theorem C4_dishes_until_first_failure (restaurant : Restaurant) (menu : Menu)
    (pre post : list Dish) (dish : Dish) (st : Store) (e : exn) :
  let menu_id := next_id (menu_table (db st)) in
  let first_dish := (calls st + upsert_requests restaurant (db st) + 1)%nat in
  (forall i, (calls st <= i < first_dish + List.length pre)%nat -> fault i = None) ->
  (fault (first_dish + List.length pre) = Some e ->
   exists st',
     save_to_database fault restaurant [menu] (pre ++ dish :: post) st = (Some e, st')
     /\ map snd (rows (dish_table (db st')))
        = map snd (rows (dish_table (db st))) ++ map (dish_row menu_id) pre)
  /\ ((forall i, (first_dish + List.length pre <= i)%nat -> fault i = None) ->
      exists st',
        save_to_database fault restaurant [menu] (pre ++ dish :: post) st = (None, st')
        /\ map snd (rows (dish_table (db st')))
           = map snd (rows (dish_table (db st)))
             ++ map (dish_row menu_id) (pre ++ dish :: post)).
Proof.
  intros menu_id first_dish Hok.
  destruct (upsert_restaurant_ok restaurant st) as [rid [d [Hup [Hm Hd]]]].
  { intros i Hi. apply Hok. unfold first_dish. lia. }
  assert (forall dishes,
    save_to_database fault restaurant [menu] dishes st
    = match insert_dishes fault menu_id dishes
              {| db := snd (insert_menu
                              {| menu_name := menu_name menu;
                                 menu_description := menu_description menu;
                                 menu_type := menu_type menu;
                                 display_order := display_order menu;
                                 restaurant_id := Some rid |} d);
                 calls := first_dish |} with
      | (Ok _, st') => (None, st')
      | (Raise e', st') => (Some e', st')
      end) as Hsave.
  { intros dishes. unfold save_to_database. unfold bindM at 1. rewrite Hup.
    cbn [insert_menus]. unfold bindM at 1. rewrite execute_cases. cbn [calls db].
    rewrite Hok by (unfold first_dish; lia).
    unfold bindM at 1. unfold insert_menu at 1, table_insert. cbn [fst].
    rewrite Hm. fold menu_id. unfold first_dish. rewrite Nat.add_1_r.
    destruct (insert_dishes _ _ _ _) as [[[]|e'] st']; reflexivity. }
  split.
  - intros Hfail. rewrite Hsave, insert_dishes_prefix.
    2:{ intros i Hi. cbn [calls]. apply Hok. lia. }
    rewrite insert_dishes_step. cbn [calls db]. rewrite Hfail.
    eexists. split; [reflexivity|]. cbn [db].
    destruct (insert_rows_tables (map (dish_row menu_id) pre)
                (snd (insert_menu {| menu_name := menu_name menu;
                                     menu_description := menu_description menu;
                                     menu_type := menu_type menu;
                                     display_order := display_order menu;
                                     restaurant_id := Some rid |} d))) as [-> _].
    cbn. rewrite Hd. reflexivity.
  - intros Hrest. rewrite Hsave, insert_dishes_all.
    2:{ intros i Hi. cbn [calls].
        destruct (Nat.lt_ge_cases (first_dish + i) (first_dish + List.length pre));
          [apply Hok; lia | apply Hrest; lia]. }
    eexists. split; [reflexivity|]. cbn [db].
    destruct (insert_rows_tables (map (dish_row menu_id) (pre ++ dish :: post))
                (snd (insert_menu {| menu_name := menu_name menu;
                                     menu_description := menu_description menu;
                                     menu_type := menu_type menu;
                                     display_order := display_order menu;
                                     restaurant_id := Some rid |} d))) as [-> _].
    cbn. rewrite Hd. reflexivity.
Qed.

End DishFacts.

(** C4, as stated, fails.  Of three dishes the insert of the second raises
    (store request 4, after the lookup and the inserts of restaurant, menu and
    first dish).  The exception is logged, the first dish has its row, and
    the third dish, a sibling in the same call, is never inserted. *)
Lemma C4_later_dishes_not_inserted :
  fst (save_to_database (U := ascii_tables) (fault_at 4 (StoreError 500))
         test_diner_restaurant [test_diner_menu] [burger; fries; shake] empty_store)
  = Some (StoreError 500)
  /\ map (fun row => row_name (snd row))
       (rows (dish_table (db (snd
          (save_to_database (U := ascii_tables) (fault_at 4 (StoreError 500))
             test_diner_restaurant [test_diner_menu] [burger; fries; shake]
             empty_store)))))
     = [lit "Burger"].
Proof. split; reflexivity. Qed.

Lemma C4_dishes_until_first_failure_witness :
  exists st',
    save_to_database (U := ascii_tables) (fault_at 4 (StoreError 500))
      test_diner_restaurant [test_diner_menu] ([burger] ++ fries :: [shake]) empty_store
    = (Some (StoreError 500), st')
    /\ map snd (rows (dish_table (db st')))
       = map snd (rows (dish_table (db empty_store)))
         ++ map (dish_row (U := ascii_tables) 1) [burger].
Proof.
  refine (proj1 (@C4_dishes_until_first_failure ascii_tables (fault_at 4 (StoreError 500))
                   test_diner_restaurant test_diner_menu [burger] [shake] fries
                   empty_store (StoreError 500) _) eq_refl).
  intros i Hi. cbn in Hi. unfold fault_at.
  destruct (Nat.eqb_spec i 4); [lia | reflexivity].
Defined.

(** ** RestaurantIngestor *)

Section IngestorFacts.
Context {U : Unicode}.
Variable w : World.

Lemma get_menu_data_cases (idx : nat) (restaurant : Restaurant) (menu_url : str)
    (dishes : list Dish) :
  construct_menu_url restaurant = Ok menu_url ->
  scrape_menu_from_yelp (menu_page w idx) menu_url = Ok dishes ->
  get_menu_data (menu_page w idx) restaurant
  = Ok (if nonempty dishes
        then Some ([{| menu_name := format_name (name restaurant) ++ lit " Menu";
                       menu_description := lit "Main menu for " ++ format_name (name restaurant);
                       menu_type := lit "main";
                       display_order := 0;
                       restaurant_id := None |}], dishes)
        else None).
Proof.
  intros Hurl Hscrape. unfold get_menu_data. rewrite Hurl. cbn [bind].
  rewrite Hscrape. cbn [bind]. destruct (nonempty dishes); reflexivity.
Qed.

Lemma process_business_store (idx : nat) (business : json) (run run' : Run) :
  process_business w idx business run = Ok run' ->
  store run' = store run
  \/ exists restaurant menus dishes,
       store run'
       = snd (save_to_database (store_fault w) restaurant menus dishes (store run)).
Proof.
  unfold process_business.
  destruct (build_restaurant w idx business) as [restaurant|e]; [|discriminate].
  cbn [bind].
  destruct (get_menu_data (menu_page w idx) restaurant) as [[[menus dishes]|]|e];
    [| |discriminate]; cbn [bind].
  - destruct (save_to_database _ _ _ _ _) as [logged st] eqn:E.
    intros [= <-]. right. exists restaurant, menus, dishes. rewrite E. reflexivity.
  - intros [= <-]. left. reflexivity.
Qed.

Lemma collect_loop_unique (businesses : list json) :
  forall idx run,
    unique_ids (db (store run)) ->
    unique_ids (db (store (snd (collect_loop w idx businesses run)))).
Proof.
  induction businesses as [|business rest IH]; intros idx run Hu; [exact Hu|].
  cbn [collect_loop].
  destruct (process_business w idx business run) as [run'|e] eqn:E; [|exact Hu].
  apply IH. destruct (process_business_store _ _ _ E) as [-> | [r [ms [ds ->]]]];
    [exact Hu | apply save_to_database_unique; exact Hu].
Qed.

Lemma collect_unique (total_restaurants : Z) (st : Store) :
  unique_ids (db st) ->
  unique_ids (db (store (snd (collect_san_ramon_data w total_restaurants st)))).
Proof.
  intros Hu. unfold collect_san_ramon_data.
  destruct (negb (nonempty _)); [exact Hu|].
  apply collect_loop_unique. exact Hu.
Qed.

Lemma process_business_cases (idx : nat) (business : json) (run : Run)
    (restaurant : Restaurant) (menu_url : str) (dishes : list Dish) :
  build_restaurant w idx business = Ok restaurant ->
  construct_menu_url restaurant = Ok menu_url ->
  scrape_menu_from_yelp (menu_page w idx) menu_url = Ok dishes ->
  process_business w idx business run
  = Ok (if nonempty dishes
        then {| store := snd (save_to_database (store_fault w) restaurant
                                [synthetic_menu restaurant] dishes (store run));
                restaurants_processed := S (restaurants_processed run);
                restaurants_skipped := restaurants_skipped run;
                save_calls := save_calls run
                              ++ [(restaurant, [synthetic_menu restaurant], dishes)] |}
        else {| store := store run;
                restaurants_processed := restaurants_processed run;
                restaurants_skipped := S (restaurants_skipped run);
                save_calls := save_calls run |}).
Proof.
  intros Hbuild Hurl Hscrape. unfold process_business.
  rewrite Hbuild. cbn [bind]. rewrite (get_menu_data_cases _ _ Hurl Hscrape).
  destruct (nonempty dishes); cbn [bind]; [|reflexivity].
  unfold synthetic_menu.
  destruct (save_to_database _ _ _ _ _) as [logged st]. reflexivity.
Qed.

(** C2.  A business is converted and its menu page address resolved; the
    extraction then yields [dishes].  When [dishes] is empty the loop body
    sends nothing to the store (the store and its request counter are
    unchanged, [save_to_database] is not called) and adds one to the skipped
    counter only.  Otherwise it calls [save_to_database] exactly once, with
    the single menu named after the restaurant and typed [main], and adds one
    to the processed counter only. *)
Theorem C2_skip_or_save_once (idx : nat) (business : json) (run : Run)
    (restaurant : Restaurant) (menu_url : str) (dishes : list Dish) :
  build_restaurant w idx business = Ok restaurant ->
  construct_menu_url restaurant = Ok menu_url ->
  scrape_menu_from_yelp (menu_page w idx) menu_url = Ok dishes ->
  (dishes = [] ->
   process_business w idx business run
   = Ok {| store := store run;
           restaurants_processed := restaurants_processed run;
           restaurants_skipped := S (restaurants_skipped run);
           save_calls := save_calls run |})
  /\ (dishes <> [] ->
      let menu := {| menu_name := format_name (name restaurant) ++ lit " Menu";
                     menu_description := lit "Main menu for " ++ format_name (name restaurant);
                     menu_type := lit "main";
                     display_order := 0;
                     restaurant_id := None |} in
      process_business w idx business run
      = Ok {| store := snd (save_to_database (store_fault w) restaurant [menu] dishes
                              (store run));
              restaurants_processed := S (restaurants_processed run);
              restaurants_skipped := restaurants_skipped run;
              save_calls := save_calls run ++ [(restaurant, [menu], dishes)] |}).
Proof.
  intros Hbuild Hurl Hscrape.
  rewrite (process_business_cases idx business run Hbuild Hurl Hscrape).
  split.
  - intros ->. reflexivity.
  - intros Hne menu. destruct dishes as [|d ds]; [contradiction | reflexivity].
Qed.

Lemma collect_loop_completes (businesses : list json) :
  forall (idx : nat) (run : Run),
    (forall i business,
        nth_error businesses i = Some business ->
        exists restaurant menu_url,
          build_restaurant w (idx + i) business = Ok restaurant
          /\ construct_menu_url restaurant = Ok menu_url) ->
    exists run',
      collect_loop w idx businesses run = (None, run')
      /\ (restaurants_processed run' + restaurants_skipped run'
          = restaurants_processed run + restaurants_skipped run
            + List.length businesses)%nat.
Proof.
  induction businesses as [|business rest IH]; intros idx run Hok.
  - exists run. split; [reflexivity | cbn; lia].
  - destruct (Hok 0%nat business eq_refl) as [restaurant [menu_url [Hb Hu]]].
    rewrite Nat.add_0_r in Hb.
    destruct (scrape_total (menu_page w idx) menu_url) as [dishes Hs].
    pose proof (process_business_cases idx business run Hb Hu Hs) as Hp.
    cbn [collect_loop]. rewrite Hp.
    match goal with
    | |- context [collect_loop w (S idx) rest ?r] =>
        destruct (IH (S idx) r) as [run' [Hloop Hsum]]
    end.
    { intros i b Hi. replace (S idx + i)%nat with (idx + S i)%nat by lia.
      apply Hok. exact Hi. }
    exists run'. split; [exact Hloop|].
    rewrite Hsum. cbn [List.length]. destruct (nonempty dishes); cbn; lia.
Qed.

(** C3, amended.  The failures the helpers catch do not end the batch: a
    detail request that raises leaves the summary record; a menu page
    request that raises yields no dishes and the business is skipped; a store
    request that raises is logged by [save_to_database], which returns, and
    the business is counted as processed.  When every business of the batch
    converts to a Restaurant and gets a menu address, the loop handles all of
    them whatever the directory, the menu pages and the store answer: it ends
    without exception and the two counters have grown by the size of the
    batch. *)
Theorem C3_batch_completes :
  (forall idx business_id e,
      business_detail w idx business_id = Raise e ->
      get_restaurant_details w idx business_id = JNull)
  /\ (forall idx business run restaurant menu_url e,
        build_restaurant w idx business = Ok restaurant ->
        construct_menu_url restaurant = Ok menu_url ->
        menu_page w idx menu_url = Raise e ->
        process_business w idx business run
        = Ok {| store := store run;
                restaurants_processed := restaurants_processed run;
                restaurants_skipped := S (restaurants_skipped run);
                save_calls := save_calls run |})
  /\ (forall idx business run restaurant menu_url dishes e,
        build_restaurant w idx business = Ok restaurant ->
        construct_menu_url restaurant = Ok menu_url ->
        scrape_menu_from_yelp (menu_page w idx) menu_url = Ok dishes ->
        dishes <> [] ->
        store_fault w (calls (store run)) = Some e ->
        fst (save_to_database (store_fault w) restaurant [synthetic_menu restaurant]
               dishes (store run)) = Some e
        /\ exists run',
             process_business w idx business run = Ok run'
             /\ db (store run') = db (store run)
             /\ restaurants_processed run' = S (restaurants_processed run)
             /\ restaurants_skipped run' = restaurants_skipped run)
  /\ (forall businesses idx run,
        (forall i business,
            nth_error businesses i = Some business ->
            exists restaurant menu_url,
              build_restaurant w (idx + i) business = Ok restaurant
              /\ construct_menu_url restaurant = Ok menu_url) ->
        exists run',
          collect_loop w idx businesses run = (None, run')
          /\ (restaurants_processed run' + restaurants_skipped run'
              = restaurants_processed run + restaurants_skipped run
                + List.length businesses)%nat).
Proof.
  split; [|split; [|split]].
  - intros idx business_id e He. unfold get_restaurant_details. rewrite He. reflexivity.
  - intros idx business run restaurant menu_url e Hb Hu Hm.
    rewrite (process_business_cases idx business run (dishes := []) Hb Hu);
      [reflexivity|].
    unfold scrape_menu_from_yelp. rewrite Hm. destruct e; reflexivity.
  - intros idx business run restaurant menu_url dishes e Hb Hu Hs Hne Hf.
    assert (save_to_database (store_fault w) restaurant [synthetic_menu restaurant]
              dishes (store run)
            = (Some e, {| db := db (store run); calls := S (calls (store run)) |})) as Hsave.
    { unfold save_to_database, upsert_restaurant. unfold bindM at 1 2.
      rewrite execute_cases, Hf. reflexivity. }
    split; [rewrite Hsave; reflexivity|].
    rewrite (process_business_cases idx business run Hb Hu Hs), Hsave.
    destruct dishes; [contradiction|]. cbn [nonempty snd].
    eexists. split; [reflexivity|]. cbn. auto.
  - exact collect_loop_completes.
Qed.

End IngestorFacts.

(** *** The Test Diner in a batch *)

(** The specification's scenario: one restaurant, one menu named
    [Test Diner Menu], one dish priced 9.99 (the double nearest to it). *)
Example test_diner_persisted :
  let run := snd (collect_san_ramon_data (U := ascii_tables)
                    (diner_world [test_diner] (fun _ => None)) 200 empty_store) in
  rows (restaurant_table (db (store run))) = [(1%Z, test_diner_restaurant)]
  /\ map (fun row => menu_name (snd row)) (rows (menu_table (db (store run))))
     = [lit "Test Diner Menu"]
  /\ map (fun row => (row_name (snd row), row_price (snd row)))
       (rows (dish_table (db (store run))))
     = [(lit "Burger", Some (nearest_double 999 100))].
Proof. repeat split; vm_compute; reflexivity. Qed.

Lemma C2_skip_or_save_once_witness :
  process_business (U := ascii_tables) (diner_world [test_diner] (fun _ => None))
    0 test_diner fresh_run
  = Ok {| store := snd (save_to_database (U := ascii_tables) (fun _ => None)
                          test_diner_restaurant [test_diner_menu] [burger] empty_store);
          restaurants_processed := 1;
          restaurants_skipped := 0;
          save_calls := [(test_diner_restaurant, [test_diner_menu], [burger])] |}.
Proof.
  refine (proj2 (@C2_skip_or_save_once ascii_tables
                   (diner_world [test_diner] (fun _ => None)) 0 test_diner fresh_run
                   test_diner_restaurant
                   (lit "https://www.yelp.com/menu/test-diner-san-ramon") [burger]
                   eq_refl eq_refl eq_refl) _).
  discriminate.
Defined.

(** C3, as stated, fails.  The first business of the listing has no [name]:
    the log line of the loop raises [KeyError], nothing catches it, and the
    method ends before the Test Diner is looked at.  And with a store that
    refuses every request the Test Diner is counted as processed, not as
    skipped, although none of its rows was stored. *)
Lemma C3_batch_aborts_and_failure_is_not_a_skip :
  collect_san_ramon_data (U := ascii_tables)
    (diner_world [nameless; test_diner] (fun _ => None)) 200 empty_store
  = (Some (KeyError (lit "name")), fresh_run)
  /\ collect_san_ramon_data (U := ascii_tables)
       (diner_world [test_diner] (fun _ => Some (StoreError 503))) 200 empty_store
     = (None, {| store := {| db := db empty_store; calls := 1 |};
                 restaurants_processed := 1;
                 restaurants_skipped := 0;
                 save_calls := [(test_diner_restaurant, [test_diner_menu], [burger])] |}).
Proof. split; reflexivity. Qed.

Lemma C3_batch_completes_witness :
  exists run',
    collect_loop (U := ascii_tables)
      (diner_world [test_diner; test_diner] (fun _ => Some (StoreError 503)))
      0 [test_diner; test_diner] fresh_run = (None, run')
    /\ (restaurants_processed run' + restaurants_skipped run'
        = restaurants_processed fresh_run + restaurants_skipped fresh_run + 2)%nat.
Proof.
  refine (proj2 (proj2 (proj2 (@C3_batch_completes ascii_tables
            (diner_world [test_diner; test_diner] (fun _ => Some (StoreError 503))))))
            [test_diner; test_diner] 0%nat fresh_run _).
  intros i business Hi.
  exists test_diner_restaurant, (lit "https://www.yelp.com/menu/test-diner-san-ramon").
  destruct i as [|[|i]]; cbn in Hi.
  - injection Hi as <-. split; reflexivity.
  - injection Hi as <-. split; reflexivity.
  - destruct i; discriminate.
Defined.

(** C1.  When the restaurant table has a row with the restaurant's
    [yelp_id], [save_to_database] leaves the table as it is, and its lookup,
    unless the request fails, resolves to the id of such a row.  A call
    whose lookup and insert succeed leaves such a row, so that saving the
    same restaurant again adds none.  Hence, from a store in which no
    identifier has two rows, two runs of the ingestion, whatever the
    directory, the pages and the store answer in each, leave a store in
    which no identifier has two rows. *)
Theorem C1_no_second_row (U : Unicode) (st : Store) :
  (forall fault restaurant menus dishes,
      In (yelp_id restaurant) (yelp_ids (db st)) ->
      restaurant_table (db (snd (save_to_database fault restaurant menus dishes st)))
      = restaurant_table (db st)
      /\ (fault (calls st) = None ->
          exists row,
            In row (rows (restaurant_table (db st)))
            /\ yelp_id (snd row) = yelp_id restaurant
            /\ upsert_restaurant fault restaurant st
               = (Ok (fst row), {| db := db st; calls := S (calls st) |})))
  /\ (forall fault fault' restaurant menus dishes menus' dishes',
        fault (calls st) = None -> fault (S (calls st)) = None ->
        let saved := snd (save_to_database fault restaurant menus dishes st) in
        In (yelp_id restaurant) (yelp_ids (db saved))
        /\ restaurant_table
             (db (snd (save_to_database fault' restaurant menus' dishes' saved)))
           = restaurant_table (db saved))
  /\ (unique_ids (db st) ->
      forall w1 w2 total1 total2,
        let first := snd (collect_san_ramon_data w1 total1 st) in
        let second := snd (collect_san_ramon_data w2 total2 (store first)) in
        unique_ids (db (store first)) /\ unique_ids (db (store second))).
Proof.
  split; [|split].
  - intros fault restaurant menus dishes Hin. split.
    + apply save_to_database_existing. exact Hin.
    + apply upsert_restaurant_existing. exact Hin.
  - intros fault fault' restaurant menus dishes menus' dishes' H0 H1 saved.
    assert (In (yelp_id restaurant) (yelp_ids (db saved))) as Hin.
    { unfold saved, yelp_ids. rewrite save_to_database_restaurants.
      apply upsert_restaurant_present; assumption. }
    split; [exact Hin | apply save_to_database_existing; exact Hin].
  - intros Hu w1 w2 total1 total2 first second.
    assert (unique_ids (db (store first))) as H1 by (apply collect_unique; exact Hu).
    split; [exact H1 | apply collect_unique; exact H1].
Qed.

(** Two runs over the Test Diner's listing, from the empty store: one
    restaurant row, and a second menu for it. *)
Lemma C1_no_second_row_witness :
  let w := diner_world [test_diner] (fun _ => None) in
  let first := snd (collect_san_ramon_data (U := ascii_tables) w 200 empty_store) in
  let second := snd (collect_san_ramon_data (U := ascii_tables) w 200 (store first)) in
  (unique_ids (db (store first)) /\ unique_ids (db (store second)))
  /\ rows (restaurant_table (db (store second))) = [(1%Z, test_diner_restaurant)]
  /\ map (fun row => restaurant_id (snd row)) (rows (menu_table (db (store second))))
     = [Some 1%Z; Some 1%Z].
Proof.
  split; [|split; reflexivity].
  apply (proj2 (proj2 (C1_no_second_row ascii_tables empty_store))). constructor.
Defined.

(** ** Conversion of a business record *)

Lemma join_items_strings (sep : str) (items : list json) :
  forallb is_str items = true -> exists s, join_items sep items = Ok s.
Proof.
  intros H. unfold join_items.
  assert (exists strs, map_res as_str items = Ok strs) as [strs ->]; [|cbn; eauto].
  induction items as [|v items IH]; [cbn; eauto|].
  cbn [forallb] in H. apply andb_prop in H as [Hv Hi].
  destruct (IH Hi) as [strs Hs]. destruct v; try discriminate.
  cbn. rewrite Hs. cbn. eauto.
Qed.

Lemma titles_of_categories (cats : list json) :
  forallb has_title cats = true ->
  exists titles,
    map_res (fun cat => py_getitem cat (lit "title")) cats = Ok titles
    /\ forallb is_str titles = true.
Proof.
  induction cats as [|cat cats IH]; intros H; [exists []; split; reflexivity|].
  cbn [forallb] in H. apply andb_prop in H as [Hc Hr].
  destruct (IH Hr) as [titles [Ht Hs]].
  destruct cat as [| | | | |d]; try discriminate. cbn [has_title] in Hc.
  cbn [map_res py_getitem].
  destruct (dict_lookup d (lit "title")) as [[| | |t| |]|]; try discriminate.
  cbn [bind]. rewrite Ht. cbn [bind]. exists (JStr t :: titles). split; [reflexivity|].
  cbn. exact Hs.
Qed.

Lemma convert_shaped (business_data : dict) :
  location_shaped business_data = true ->
  categories_shaped business_data = true ->
  exists address cuisine_type,
    convert_to_restaurant business_data
    = Ok {| name := dict_get business_data (lit "name") (JStr (lit "Unknown"));
            rating := dict_get business_data (lit "rating") JNull;
            review_count := dict_get business_data (lit "review_count") JNull;
            price_range := dict_get business_data (lit "price") JNull;
            yelp_id := dict_get business_data (lit "id") (JStr (lit ""));
            website := dict_get business_data (lit "url") JNull;
            address := address;
            phone := dict_get business_data (lit "phone") JNull;
            cuisine_type := cuisine_type |}.
Proof.
  intros Hloc Hcat. unfold convert_to_restaurant.
  assert (exists address,
    (display_address <- py_get (dict_get business_data (lit "location") (JDict []))
                          (lit "display_address") ;;
     (if truthy display_address
      then parts <- py_iter display_address ;;
           s <- join_items (lit ", ") parts ;; Ok (JStr s)
      else Ok JNull)) = Ok address) as [address Ha].
  { unfold location_shaped in Hloc. unfold dict_get at 1.
    destruct (dict_lookup business_data (lit "location")) as [[| | | | |location]|];
      try discriminate.
    - cbn [py_get bind].
      destruct (truthy (dict_get location (lit "display_address") JNull)); [|eauto].
      destruct (dict_get location (lit "display_address") JNull); try discriminate.
      cbn [py_iter bind].
      destruct (join_items_strings (lit ", ") _ Hloc) as [s ->]. cbn. eauto.
    - cbn. eauto. }
  assert (exists cuisine_type,
    (if truthy (dict_get business_data (lit "categories") JNull)
     then cats <- py_iter (dict_get business_data (lit "categories") JNull) ;;
          titles <- map_res (fun cat => py_getitem cat (lit "title")) cats ;;
          s <- join_items (lit ", ") titles ;; Ok (JStr s)
     else Ok JNull) = Ok cuisine_type) as [cuisine_type Hc].
  { unfold categories_shaped in Hcat.
    destruct (truthy (dict_get business_data (lit "categories") JNull)); [|eauto].
    destruct (dict_get business_data (lit "categories") JNull); try discriminate.
    cbn [py_iter bind].
    destruct (titles_of_categories _ Hcat) as [titles [-> Hs]]. cbn [bind].
    destruct (join_items_strings (lit ", ") _ Hs) as [s ->]. cbn. eauto. }
  exists address, cuisine_type.
  unfold bind in Ha |- *.
  destruct (py_get _ _) as [display_address|e]; [|discriminate].
  rewrite Ha. unfold bind in Hc. rewrite Hc. reflexivity.
Qed.

(** C10, as stated, fails: the conversion is not total.  A category
    without [title] raises [KeyError], and a [location] that is [null]
    raises [AttributeError]. *)
Lemma C10_conversion_raises :
  convert_to_restaurant
    [(lit "id", JStr (lit "abc")); (lit "name", JStr (lit "Test Diner"));
     (lit "categories", JList [JDict [(lit "alias", JStr (lit "diners"))]])]
  = Raise (KeyError (lit "title"))
  /\ convert_to_restaurant
       [(lit "id", JStr (lit "abc")); (lit "name", JStr (lit "Test Diner"));
        (lit "location", JNull)]
     = Raise AttributeError.
Proof. split; reflexivity. Qed.

(** C10, amended.  A record whose [location] and [categories] have the
    documented shape is converted, whichever keys it lacks: the name is the
    value of [name] or ['Unknown'] when the key is missing, the identifier
    the value of [id] or [''] when the key is missing.  Two such records
    without [id] therefore get the same identifier [''], the key of the
    lookup in [save_to_database]: once a row carries it, saving the other
    restaurant adds no restaurant row. *)
Theorem C10_defaults_for_missing_keys (business_data : dict) :
  location_shaped business_data = true ->
  categories_shaped business_data = true ->
  exists restaurant,
    convert_to_restaurant business_data = Ok restaurant
    /\ name restaurant = dict_get business_data (lit "name") (JStr (lit "Unknown"))
    /\ yelp_id restaurant = dict_get business_data (lit "id") (JStr (lit ""))
    /\ (dict_lookup business_data (lit "name") = None ->
        name restaurant = JStr (lit "Unknown"))
    /\ (dict_lookup business_data (lit "id") = None ->
        yelp_id restaurant = JStr (lit "")
        /\ forall (U : Unicode) fault menus dishes st,
             In (JStr (lit "")) (yelp_ids (db st)) ->
             restaurant_table
               (db (snd (save_to_database fault restaurant menus dishes st)))
             = restaurant_table (db st)).
Proof.
  intros Hloc Hcat.
  destruct (convert_shaped business_data Hloc Hcat) as [address [cuisine_type Hconv]].
  eexists. split; [exact Hconv|]. cbn [name yelp_id].
  split; [reflexivity|]. split; [reflexivity|]. split.
  - intros Hn. unfold dict_get. rewrite Hn. reflexivity.
  - intros Hi. unfold dict_get at 1. rewrite Hi. split; [reflexivity|].
    intros U fault menus dishes st Hin.
    apply save_to_database_existing. cbn [yelp_id].
    unfold dict_get. rewrite Hi. exact Hin.
Qed.

Lemma C10_defaults_for_missing_keys_witness :
  exists restaurant,
    convert_to_restaurant [(lit "phone", JStr (lit "+19255550100"))] = Ok restaurant
    /\ name restaurant = JStr (lit "Unknown")
    /\ yelp_id restaurant = JStr (lit "").
Proof.
  destruct (@C10_defaults_for_missing_keys [(lit "phone", JStr (lit "+19255550100"))]
              eq_refl eq_refl) as [restaurant [Hc [_ [_ [Hn Hi]]]]].
  exists restaurant. split; [exact Hc|]. split; [exact (Hn eq_refl)|].
  exact (proj1 (Hi eq_refl)).
Defined.

(** * Further properties *)

(** ** Paging of the directory search *)

Lemma firstn_seq_le (k : nat) :
  forall start len, (k <= len)%nat -> firstn k (seq start len) = seq start k.
Proof.
  induction k as [|k IH]; intros start len Hk; [reflexivity|].
  destruct len as [|len]; [lia|]. cbn. rewrite IH by lia. reflexivity.
Qed.

Lemma num_batches_nonpositive (total_limit : Z) :
  (total_limit <= 0)%Z -> Z.to_nat (num_batches total_limit) = 0%nat.
Proof.
  intros Ht. unfold num_batches, batch_size.
  assert ((total_limit + 50 - 1) / 50 < 1)%Z; [|lia].
  apply Z.div_lt_upper_bound; lia.
Qed.

Section PagingFacts.
Variable w : World.
Variable location : str.
Variable total_limit : Z.

Lemma search_loop_batches (batches : list nat) :
  forall all_businesses issued,
    exists k,
      (k <= List.length batches)%nat
      /\ map req_batch (snd (search_loop w location total_limit batches all_businesses issued))
         = map req_batch issued ++ firstn k batches.
Proof.
  induction batches as [|batch_num rest IH]; intros all_businesses issued.
  - exists 0%nat. cbn. rewrite app_nil_r. auto.
  - cbn [search_loop].
    destruct (Z.min batch_size _ <=? 0)%Z.
    + exists 0%nat. cbn. rewrite app_nil_r. split; [lia | reflexivity].
    + match goal with
      | |- context [issued ++ [?rq]] => set (issued' := issued ++ [rq])
      end.
      assert (map req_batch issued' = map req_batch issued ++ [batch_num]) as Hi
        by (unfold issued'; rewrite map_app; reflexivity).
      destruct (fetch_page _ _ _ _ _) as [[|more]|e].
      * exists 1%nat. cbn [snd firstn List.length]. split; [lia | exact Hi].
      * destruct (IH (all_businesses ++ more) issued') as [k [Hk Hm]].
        exists (S k). cbn [firstn List.length]. split; [lia|].
        rewrite Hm, Hi, <- app_assoc. reflexivity.
      * destruct (IH all_businesses issued') as [k [Hk Hm]].
        exists (S k). cbn [firstn List.length]. split; [lia|].
        rewrite Hm, Hi, <- app_assoc. reflexivity.
Qed.

Lemma search_loop_offsets (batches : list nat) :
  forall all_businesses issued,
    Forall (fun rq => req_offset rq = (batch_size * Z.of_nat (req_batch rq))%Z) issued ->
    Forall (fun rq => req_offset rq = (batch_size * Z.of_nat (req_batch rq))%Z)
      (snd (search_loop w location total_limit batches all_businesses issued)).
Proof.
  induction batches as [|batch_num rest IH]; intros all_businesses issued Hi;
    cbn [search_loop]; [exact Hi|].
  destruct (Z.min batch_size _ <=? 0)%Z; [exact Hi|].
  match goal with
  | |- context [issued ++ [?new]] =>
      assert (Forall (fun rq => req_offset rq = (batch_size * Z.of_nat (req_batch rq))%Z)
                (issued ++ [new])) as Hi'
  end.
  { apply Forall_app. split; [exact Hi|]. constructor; [|constructor].
    cbn [req_offset req_batch]. lia. }
  destruct (fetch_page _ _ _ _ _) as [[|more]|e]; cbn [snd]; auto.
Qed.

(** X1.  The search asks for the pages 0, 1, 2, ... one after the other, each
    at most once and at the offset 50 times its number, and for no more than
    [num_batches total_limit] pages, whatever the directory answers; a
    [total_limit] of zero or less issues no request at all. *)
Theorem X1_pages_in_order_and_bounded :
  let requests := search_requests w location total_limit in
  map req_batch requests = seq 0 (List.length requests)
  /\ (List.length requests <= Z.to_nat (num_batches total_limit))%nat
  /\ Forall (fun rq => req_offset rq = (batch_size * Z.of_nat (req_batch rq))%Z) requests
  /\ ((total_limit <= 0)%Z -> requests = []).
Proof.
  intros requests. unfold requests, search_requests, search_run.
  destruct (search_loop_batches (seq 0 (Z.to_nat (num_batches total_limit))) [] [])
    as [k [Hk Hm]].
  rewrite length_seq in Hk. cbn [map app] in Hm.
  rewrite firstn_seq_le in Hm by exact Hk.
  assert (List.length (snd (search_loop w location total_limit
            (seq 0 (Z.to_nat (num_batches total_limit))) [] [])) = k) as Hlen.
  { rewrite <- (length_map req_batch), Hm. apply length_seq. }
  split; [rewrite Hlen; exact Hm|]. split; [rewrite Hlen; exact Hk|].
  split; [apply search_loop_offsets; constructor|].
  intros Ht. rewrite (num_batches_nonpositive Ht). reflexivity.
Qed.

Lemma fetch_page_down (batch_num : nat) (offset limit : Z) :
  search_down w -> exists e, fetch_page w location batch_num offset limit = Raise e.
Proof.
  intros Hd. destruct (Hd location batch_num offset limit) as [e He].
  exists e. unfold fetch_page. rewrite He. reflexivity.
Qed.

Lemma search_loop_down (batches : list nat) :
  search_down w -> (1 <= total_limit)%Z ->
  forall issued,
    search_loop w location total_limit batches [] issued
    = ([], issued ++ map (fun batch_num =>
                            {| req_batch := batch_num;
                               req_offset := Z.of_nat batch_num * batch_size;
                               req_limit := Z.min batch_size total_limit;
                               req_collected := 0 |}) batches).
Proof.
  intros Hd Ht. induction batches as [|batch_num rest IH]; intros issued.
  - cbn. rewrite app_nil_r. reflexivity.
  - cbn [search_loop List.length]. rewrite Z.sub_0_r.
    destruct (Z.leb_spec (Z.min batch_size total_limit) 0) as [Hle|Hgt];
      [unfold batch_size in Hle; lia|].
    destruct (fetch_page_down batch_num (Z.of_nat batch_num * batch_size)
                (Z.min batch_size total_limit) Hd) as [e ->].
    rewrite IH. cbn [map]. rewrite <- app_assoc. reflexivity.
Qed.

(** X2.  When every search request fails the search does not stop at the
    first failure: it asks for every one of the [num_batches total_limit]
    pages, each time for [min 50 total_limit] businesses, and returns the
    empty list. *)
Theorem X2_every_page_tried_when_all_fail :
  search_down w ->
  search_restaurants_batch w location total_limit = []
  /\ search_requests w location total_limit
     = map (fun batch_num =>
              {| req_batch := batch_num;
                 req_offset := Z.of_nat batch_num * batch_size;
                 req_limit := Z.min batch_size total_limit;
                 req_collected := 0 |})
         (seq 0 (Z.to_nat (num_batches total_limit))).
Proof.
  intros Hd. unfold search_restaurants_batch, search_requests, search_run.
  destruct (Z.le_gt_cases 1 total_limit) as [Ht|Ht].
  - rewrite (search_loop_down _ Hd Ht). split; reflexivity.
  - rewrite num_batches_nonpositive by lia. split; reflexivity.
Qed.

End PagingFacts.

Lemma X2_every_page_tried_when_all_fail_witness :
  search_restaurants_batch directory_down (lit "San Ramon, CA") 120 = []
  /\ search_requests directory_down (lit "San Ramon, CA") 120
     = map (fun batch_num =>
              {| req_batch := batch_num;
                 req_offset := Z.of_nat batch_num * batch_size;
                 req_limit := Z.min batch_size 120;
                 req_collected := 0 |})
         (seq 0 (Z.to_nat (num_batches 120))).
Proof.
  apply (@X2_every_page_tried_when_all_fail directory_down (lit "San Ramon, CA") 120).
  intros location batch_num offset limit. exists RequestException. reflexivity.
Defined.

Lemma firstn_add {A} (a b : nat) (l : list A) :
  firstn (a + b) l = firstn a l ++ firstn b (skipn a l).
Proof.
  revert l. induction a as [|a IH]; intros l; [reflexivity|].
  destruct l as [|x l]; cbn; [destruct b; reflexivity|].
  rewrite IH. reflexivity.
Qed.

Section HonestDirectory.
Variable w : World.
Variable location : str.
Variable listing : list json.
Hypothesis Hw : paginates w listing.

Lemma fetch_page_paginates (batch_num : nat) (offset limit : Z) :
  fetch_page w location batch_num offset limit
  = match firstn (Z.to_nat limit) (skipn (Z.to_nat offset) listing) with
    | [] => Ok PageBreak
    | page => Ok (PageExtend page)
    end.
Proof.
  unfold fetch_page. rewrite Hw. cbn [bind].
  change (dict_get _ _ _)
    with (JList (firstn (Z.to_nat limit) (skipn (Z.to_nat offset) listing))).
  destruct (firstn _ _); reflexivity.
Qed.

Lemma search_loop_paginates (total : nat) (m : nat) :
  forall b issued,
    (total <= 50 * (b + m))%nat ->
    fst (search_loop w location (Z.of_nat total) (seq b m)
           (firstn (Nat.min (50 * b) total) listing) issued)
    = firstn total listing.
Proof.
  induction m as [|m IH]; intros b issued Hend.
  - cbn [seq search_loop fst]. f_equal. lia.
  - cbn [seq search_loop].
    set (all_businesses := firstn (Nat.min (50 * b) total) listing).
    assert (List.length all_businesses
            = Nat.min (Nat.min (50 * b) total) (List.length listing)) as Hlen
      by apply length_firstn.
    destruct (Z.leb_spec (Z.min batch_size
                (Z.of_nat total - Z.of_nat (List.length all_businesses))) 0) as [Hle|Hgt].
    + (* nothing is left to ask for *)
      cbn [fst]. unfold all_businesses. f_equal. unfold batch_size in Hle. lia.
    + rewrite fetch_page_paginates.
      unfold batch_size in Hgt.
      replace (Z.to_nat (Z.of_nat b * batch_size)) with (50 * b)%nat
        by (unfold batch_size; lia).
      destruct (Nat.le_gt_cases (List.length listing) (50 * b)) as [Hshort|Hlong].
      * (* the listing ends before this page *)
        rewrite skipn_all2 by exact Hshort. rewrite firstn_nil. cbn [fst].
        unfold all_businesses. rewrite !firstn_all2 by lia. reflexivity.
      * (* the page holds businesses *)
        assert (Nat.min (50 * b) total = (50 * b)%nat) as Hmin by lia.
        set (limit := Z.to_nat (Z.min batch_size
               (Z.of_nat total - Z.of_nat (List.length all_businesses)))).
        assert (limit = (Nat.min 50 (total - 50 * b))%nat /\ (0 < limit)%nat) as [Hlim Hpos]
          by (unfold limit, batch_size; lia).
        destruct (firstn limit (skipn (50 * b) listing)) as [|x page] eqn:Epage.
        { apply (f_equal (@List.length json)) in Epage.
          rewrite length_firstn, length_skipn in Epage. cbn in Epage. lia. }
        rewrite <- Epage. unfold all_businesses. rewrite Hmin, <- firstn_add.
        replace (50 * b + limit)%nat with (Nat.min (50 * S b) total) by lia.
        apply IH. lia.
Qed.

(** X3.  Against a directory that serves its listing page by page and never
    fails, the search returns exactly the first [total_limit] businesses of
    the listing, in order, or the whole listing when it is shorter. *)
Theorem X3_search_returns_first_businesses (total_limit : Z) :
  (0 <= total_limit)%Z ->
  search_restaurants_batch w location total_limit
  = firstn (Z.to_nat total_limit) listing.
Proof.
  intros Ht. unfold search_restaurants_batch, search_run.
  pose proof (@search_loop_paginates (Z.to_nat total_limit)
                (Z.to_nat (num_batches total_limit)) 0%nat []) as H.
  change (firstn (Nat.min (50 * 0) (Z.to_nat total_limit)) listing)
    with (@nil json) in H.
  rewrite (Z2Nat.id total_limit) in H by exact Ht.
  apply H. unfold num_batches, batch_size.
  assert (total_limit <= 50 * ((total_limit + 50 - 1) / 50))%Z; [|lia].
  pose proof (Z.mul_div_le (total_limit + 50 - 1) 50 ltac:(lia)).
  pose proof (Z.mod_pos_bound (total_limit + 50 - 1) 50 ltac:(lia)).
  pose proof (Z.div_mod (total_limit + 50 - 1) 50 ltac:(lia)). lia.
Qed.

End HonestDirectory.

Lemma X3_search_returns_first_businesses_witness :
  search_restaurants_batch (paginating_directory [test_diner; nameless; test_diner])
    (lit "San Ramon, CA") 2
  = firstn (Z.to_nat 2) [test_diner; nameless; test_diner].
Proof.
  apply (@X3_search_returns_first_businesses
           (paginating_directory [test_diner; nameless; test_diner])
           (lit "San Ramon, CA") [test_diner; nameless; test_diner]).
  - intros location batch_num offset limit. reflexivity.
  - lia.
Defined.

(** ** The menu address *)

Lemma split_from_substring (sep : N) (s : str) :
  forall cur p,
    In p (split_from sep cur s) -> exists l r, rev cur ++ s = l ++ p ++ r.
Proof.
  induction s as [|c s IH]; intros cur p.
  - cbn [split_from In]. intros [<-|[]]. exists [], []. rewrite !app_nil_r. reflexivity.
  - cbn [split_from]. destruct (c =? sep)%N.
    + intros [<-|Hin].
      * exists [], (c :: s). reflexivity.
      * destruct (IH [] p Hin) as [l [r Hs]]. cbn [rev app] in Hs.
        exists (rev cur ++ c :: l), r. rewrite Hs, <- app_assoc. reflexivity.
    + intros Hin. destruct (IH (c :: cur) p Hin) as [l [r Hs]].
      exists l, r. rewrite <- Hs. cbn [rev]. rewrite <- app_assoc. reflexivity.
Qed.

Lemma strip_chars_substring (p : N -> bool) (s : str) :
  exists l r, s = l ++ strip_chars p s ++ r.
Proof.
  unfold strip_chars.
  destruct (drop_while_suffix p s) as [pre Hs].
  destruct (drop_while_suffix p (rev (drop_while p s))) as [pre' Hd].
  exists pre, (rev pre').
  rewrite <- rev_app_distr, <- Hd, rev_involutive. exact Hs.
Qed.

Lemma contains_substring (needle l s r : str) :
  contains needle s = true -> contains needle (l ++ s ++ r) = true.
Proof.
  intros H. apply contains_iff in H as [l' [r' ->]]. apply contains_iff.
  exists (l ++ l'), (r' ++ r). rewrite <- !app_assoc. reflexivity.
Qed.

Lemma scan_part_unnamed (location part : str) :
  names_city part = false -> scan_part location part = location.
Proof.
  unfold names_city, city_names. cbn [existsb]. rewrite !orb_false_iff.
  intros [H1 [H2 [H3 [H4 [H5 [H6 _]]]]]]. unfold scan_part.
  rewrite H1, H2, H3, H4, H5, H6. reflexivity.
Qed.

Lemma scan_part_named (location location' part : str) :
  names_city part = true -> scan_part location part = scan_part location' part.
Proof.
  unfold names_city, city_names, scan_part. cbn [existsb].
  destruct (contains (lit "san ramon") _); [reflexivity|].
  destruct (contains (lit "dublin") _); [reflexivity|].
  destruct (contains (lit "pleasanton") _); [reflexivity|].
  destruct (contains (lit "livermore") _); [reflexivity|].
  destruct (contains (lit "castro valley") _); [reflexivity|].
  destruct (contains (lit "hayward") _); [reflexivity | discriminate].
Qed.

Lemma scan_part_locality (location part : str) :
  In location localities -> In (scan_part location part) localities.
Proof.
  intros H. unfold scan_part.
  destruct (contains (lit "san ramon") _); [cbn; tauto|].
  destruct (contains (lit "dublin") _); [cbn; tauto|].
  destruct (contains (lit "pleasanton") _); [cbn; tauto|].
  destruct (contains (lit "livermore") _); [cbn; tauto|].
  destruct (contains (lit "castro valley") _); [cbn; tauto|].
  destruct (contains (lit "hayward") _); [cbn; tauto | exact H].
Qed.

Lemma scan_parts_locality (parts : list str) :
  forall location,
    In location localities -> In (fold_left scan_part parts location) localities.
Proof.
  induction parts as [|p parts IH]; intros location H; [exact H|].
  cbn [fold_left]. apply IH, scan_part_locality, H.
Qed.

Lemma scan_parts_unnamed (parts : list str) (location : str) :
  (forall p, In p parts -> names_city p = false) ->
  fold_left scan_part parts location = location.
Proof.
  induction parts as [|p parts IH]; intros H; [reflexivity|].
  cbn [fold_left]. rewrite scan_part_unnamed by (apply H; left; reflexivity).
  apply IH. intros q Hq. apply H. right. exact Hq.
Qed.

Lemma names_city_substring (whole part : str) :
  (exists l r, whole = l ++ part ++ r) ->
  forallb (fun kw => negb (contains kw whole)) city_names = true ->
  names_city part = false.
Proof.
  intros [l [r Hw]] H. unfold names_city.
  destruct (existsb _ city_names) eqn:E; [|reflexivity].
  apply existsb_exists in E as [kw [Hkw Hc]].
  rewrite forallb_forall in H. specialize (H kw Hkw).
  destruct (strip_chars_substring is_space part) as [l' [r' Hp]].
  assert (contains kw whole = true) as Hc'.
  { rewrite Hw. apply contains_substring. rewrite Hp.
    apply contains_substring. exact Hc. }
  rewrite Hc' in H. discriminate.
Qed.

Section MenuAddressFacts.
Context {U : Unicode}.

(** X4.  Whenever [construct_menu_url] returns, the address it returns is
    the fixed prefix, the slug of the restaurant's name (a clean slug,
    possibly empty), a hyphen and one of the six known location slugs. *)
Theorem X4_menu_url_shape (restaurant : Restaurant) (menu_url : str) :
  construct_menu_url restaurant = Ok menu_url ->
  exists n location,
    name restaurant = JStr n
    /\ menu_url = base_url ++ name_slug n ++ lit "-" ++ location
    /\ is_clean_slug (name_slug n) = true
    /\ In location localities.
Proof.
  unfold construct_menu_url.
  destruct (name restaurant) as [| | |n| |]; try discriminate. cbn [bind].
  assert (In (lit "san-ramon") localities) as Hdefault by (left; reflexivity).
  destruct (truthy (address restaurant)).
  - destruct (address restaurant) as [| | |a| |]; try discriminate. cbn [bind].
    intros [= <-]. exists n, (fold_left scan_part (split_on comma (lower a)) (lit "san-ramon")).
    split; [reflexivity|]. split; [reflexivity|].
    split; [apply name_slug_is_clean | apply scan_parts_locality, Hdefault].
  - cbn [bind]. intros [= <-]. exists n, (lit "san-ramon").
    split; [reflexivity|]. split; [reflexivity|].
    split; [apply name_slug_is_clean | exact Hdefault].
Qed.

(** X5.  A restaurant without address, or whose lower-cased address holds
    none of the six city names, gets the default location [san-ramon]. *)
Theorem X5_default_location (restaurant : Restaurant) (n : str) :
  name restaurant = JStr n ->
  (truthy (address restaurant) = false
   \/ exists a, address restaurant = JStr a
                /\ forallb (fun kw => negb (contains kw (lower a))) city_names = true) ->
  construct_menu_url restaurant
  = Ok (base_url ++ name_slug n ++ lit "-" ++ lit "san-ramon").
Proof.
  intros Hn Ha. unfold construct_menu_url. rewrite Hn. cbn [bind].
  destruct Ha as [-> | [a [Ha Hno]]]; [reflexivity|].
  rewrite Ha. destruct (truthy (JStr a)); [|reflexivity]. cbn [bind].
  rewrite scan_parts_unnamed; [reflexivity|].
  intros p Hp. apply (names_city_substring (whole := lower a)); [|exact Hno].
  apply (split_from_substring comma (lower a) [] p Hp).
Qed.

Lemma lower_ascii_comma (x rest : str) :
  forallb is_ascii x = true -> forallb is_ascii rest = true ->
  lower (x ++ comma :: rest) = lower x ++ comma :: lower rest.
Proof.
  intros Hx Hr. unfold lower.
  rewrite forallb_app. cbn [forallb]. rewrite Hx, Hr. cbn. rewrite map_app. reflexivity.
Qed.

(** X6.  In an ASCII address the text before a comma does not matter once
    the piece after that comma names a city: the location is decided by the
    last piece that names one, neither by earlier pieces nor by the
    default. *)
Theorem X6_last_city_decides (restaurant restaurant' : Restaurant) (n x x' rest : str) :
  name restaurant = JStr n -> name restaurant' = JStr n ->
  address restaurant = JStr (x ++ comma :: rest) ->
  address restaurant' = JStr (x' ++ comma :: rest) ->
  forallb is_ascii x = true -> forallb is_ascii x' = true ->
  forallb is_ascii rest = true ->
  names_city (hd [] (split_on comma (lower rest))) = true ->
  construct_menu_url restaurant = construct_menu_url restaurant'.
Proof.
  intros Hn Hn' Ha Ha' Hx Hx' Hr Hcity. unfold construct_menu_url.
  rewrite Hn, Hn', Ha, Ha'. cbn [bind].
  replace (truthy (JStr (x ++ comma :: rest))) with true by (destruct x; reflexivity).
  replace (truthy (JStr (x' ++ comma :: rest))) with true by (destruct x'; reflexivity).
  cbn [bind]. rewrite !lower_ascii_comma by assumption.
  unfold split_on in *. rewrite !split_from_app, !fold_left_app.
  destruct (split_from comma [] (lower rest)) as [|part after]; [discriminate|].
  cbn [hd] in Hcity. cbn [fold_left].
  rewrite (scan_part_named _ (fold_left scan_part (split_from comma [] (lower x'))
                                (lit "san-ramon")) _ Hcity).
  reflexivity.
Qed.

Lemma convert_address_shape (business_data : dict) (restaurant : Restaurant) :
  convert_to_restaurant business_data = Ok restaurant ->
  name restaurant = dict_get business_data (lit "name") (JStr (lit "Unknown"))
  /\ (address restaurant = JNull \/ exists a, address restaurant = JStr a).
Proof.
  unfold convert_to_restaurant.
  destruct (py_get _ _) as [display_address|]; [|discriminate]. cbn [bind].
  destruct (if truthy display_address then _ else _) as [addr|] eqn:Ea; [|discriminate].
  cbn [bind].
  destruct (if truthy (dict_get business_data (lit "categories") JNull) then _ else _)
    as [cuisine|]; [|discriminate].
  cbn [bind]. intros [= <-]. cbn [name address]. split; [reflexivity|].
  destruct (truthy display_address).
  - destruct (py_iter display_address) as [parts|]; [|discriminate]. cbn [bind] in Ea.
    destruct (join_items _ parts) as [s|]; [|discriminate]. cbn [bind] in Ea.
    injection Ea as <-. right. eauto.
  - injection Ea as <-. left. reflexivity.
Qed.

(** X7.  After a conversion that succeeds, resolving the menu address
    fails in one case only: the record has a [name] that is not a string (a
    [null], a number, ...), which the conversion has kept; it then raises
    [AttributeError].  A record without [name], or with a string, always
    gets an address. *)
Theorem X7_url_after_conversion (business_data : dict) (restaurant : Restaurant) :
  convert_to_restaurant business_data = Ok restaurant ->
  match dict_lookup business_data (lit "name") with
  | None | Some (JStr _) => exists menu_url, construct_menu_url restaurant = Ok menu_url
  | Some _ => construct_menu_url restaurant = Raise AttributeError
  end.
Proof.
  intros Hc. destruct (convert_address_shape _ Hc) as [Hn Ha].
  unfold construct_menu_url. rewrite Hn. unfold dict_get.
  assert (forall n,
    exists menu_url,
      (business_name <- Ok (name_slug n) ;;
       location <- (if truthy (address restaurant)
                    then match address restaurant with
                         | JStr a => Ok (fold_left scan_part (split_on comma (lower a))
                                           (lit "san-ramon"))
                         | _ => Raise AttributeError
                         end
                    else Ok (lit "san-ramon")) ;;
       Ok (lit "https://www.yelp.com/menu/" ++ business_name ++ lit "-" ++ location))
      = Ok menu_url) as Hok.
  { intros n. cbn [bind]. destruct Ha as [-> | [a ->]].
    - cbn. eauto.
    - destruct (truthy (JStr a)); cbn; eauto. }
  destruct (dict_lookup business_data (lit "name")) as [[| | |n| |]|];
    try reflexivity; apply Hok.
Qed.

End MenuAddressFacts.

(** ** Extraction *)

Lemma take_while_skipn (p : N -> bool) (s : str) :
  take_while p s ++ skipn (List.length (take_while p s)) s = s.
Proof.
  induction s as [|c s IH]; [reflexivity|].
  cbn [take_while]. destruct (p c); [|reflexivity].
  cbn [List.length skipn app]. rewrite IH. reflexivity.
Qed.

Lemma take_while_forallb (p : N -> bool) (s : str) : forallb p (take_while p s) = true.
Proof.
  induction s as [|c s IH]; [reflexivity|].
  cbn [take_while]. destruct (p c) eqn:E; [|reflexivity].
  cbn [forallb]. rewrite E, IH. reflexivity.
Qed.

Section ExtractionMore.
Context {U : Unicode}.

Lemma select_items_first (soup : Soup) (pre post : list str) (sel : str)
    (items : list Item) :
  (forall s, In s pre -> select soup s = Ok []) ->
  select soup sel = Ok items -> items <> [] ->
  forall found, select_items soup (pre ++ sel :: post) found = Ok items.
Proof.
  intros Hpre Hsel Hne. induction pre as [|s pre IH]; intros found; cbn [app select_items].
  - rewrite Hsel. cbn [bind]. destruct items; [contradiction | reflexivity].
  - rewrite (Hpre s) by (left; reflexivity). cbn [bind nonempty].
    apply IH. intros s' Hs'. apply Hpre. right. exact Hs'.
Qed.

(** X8.  The container selectors are tried in order and the first one that
    finds elements decides alone: the dishes are extracted from its elements
    only, and no later selector is consulted, whatever it would find. *)
Theorem X8_first_selector_decides (fetch : str -> res Soup) (menu_url : str)
    (soup : Soup) (pre post : list str) (sel : str) (items : list Item) :
  fetch menu_url = Ok soup ->
  selectors_to_try = pre ++ sel :: post ->
  (forall s, In s pre -> select soup s = Ok []) ->
  select soup sel = Ok items -> items <> [] ->
  scrape_menu_from_yelp fetch menu_url = Ok (extract_items items)
  /\ forall soup',
       (forall s, In s (pre ++ [sel]) -> select soup' s = select soup s) ->
       scrape_menu_from_yelp (fun _ => Ok soup') menu_url = Ok (extract_items items).
Proof.
  intros Hf Hsplit Hpre Hsel Hne.
  assert (forall fetch' soup',
    fetch' menu_url = Ok soup' ->
    (forall s, In s (pre ++ [sel]) -> select soup' s = select soup s) ->
    scrape_menu_from_yelp fetch' menu_url = Ok (extract_items items)) as H.
  { intros fetch' soup' Hf' Hsame. unfold scrape_menu_from_yelp.
    rewrite Hf', Hsplit. cbn [bind].
    rewrite (select_items_first soup' pre post sel (items := items)); auto.
    - cbn [bind try_except]. destruct items; [contradiction | reflexivity].
    - intros s Hs. rewrite Hsame by (apply in_or_app; left; exact Hs). auto.
    - rewrite Hsame by (apply in_or_app; right; left; reflexivity). exact Hsel. }
  split.
  - apply (H fetch soup Hf). reflexivity.
  - intros soup' Hsame. apply (H _ soup' eq_refl Hsame).
Qed.

Lemma extract_items_app (a b : list Item) :
  extract_items (a ++ b) = extract_items a ++ extract_items b.
Proof.
  induction a as [|item a IH]; [reflexivity|].
  cbn [app extract_items]. destruct (extract_item item) as [[d|]|e]; rewrite IH; reflexivity.
Qed.

Lemma extract_items_length (items : list Item) :
  (List.length (extract_items items) <= List.length items)%nat.
Proof.
  induction items as [|item items IH]; [reflexivity|].
  cbn [extract_items List.length].
  destruct (extract_item item) as [[d|]|e]; cbn [List.length]; lia.
Qed.

(** X9.  Items are extracted one by one and independently: the dishes of a
    list of items are those of its parts, in order; an item whose processing
    raises contributes nothing and takes nothing away from the items around
    it; there are never more dishes than items. *)
Theorem X9_items_are_independent :
  (forall a b, extract_items (a ++ b) = extract_items a ++ extract_items b)
  /\ (forall a bad b e,
        extract_item bad = Raise e ->
        extract_items (a ++ bad :: b) = extract_items a ++ extract_items b)
  /\ (forall items, (List.length (extract_items items) <= List.length items)%nat).
Proof.
  split; [exact extract_items_app|]. split; [|exact extract_items_length].
  intros a bad b e He. rewrite extract_items_app. cbn [extract_items].
  rewrite He. reflexivity.
Qed.

Lemma currency_at_shape (s m : str) :
  currency_at s = Some m ->
  exists body frac rest,
    s = m ++ rest /\ m = dollar :: body ++ frac /\ body <> []
    /\ forallb is_digit_or_comma body = true
    /\ (frac = [] \/ exists ds, frac = dot :: ds /\ forallb is_digit ds = true).
Proof.
  unfold currency_at. destruct s as [|c t]; [discriminate|].
  destruct (c =? dollar)%N eqn:Ec; [|discriminate]. apply N.eqb_eq in Ec. subst c.
  pose proof (take_while_skipn is_digit_or_comma t) as Ht.
  pose proof (take_while_forallb is_digit_or_comma t) as Hb.
  destruct (take_while is_digit_or_comma t) as [|b0 body] eqn:Eb; [discriminate|].
  destruct (skipn (List.length (b0 :: body)) t) as [|d rest] eqn:Er.
  - intros [= <-]. exists (b0 :: body), [], []. rewrite !app_nil_r.
    rewrite app_nil_r in Ht. rewrite <- Ht.
    split; [reflexivity|]. split; [reflexivity|]. split; [discriminate|].
    split; [exact Hb | left; reflexivity].
  - destruct (d =? dot)%N eqn:Ed.
    + apply N.eqb_eq in Ed. subst d. intros [= <-].
      exists (b0 :: body), (dot :: take_while is_digit rest),
        (skipn (List.length (take_while is_digit rest)) rest).
      split.
      { cbn [app]. f_equal. rewrite <- Ht at 1. cbn [app]. f_equal.
        rewrite <- app_assoc. cbn [app]. f_equal. f_equal.
        symmetry. apply take_while_skipn. }
      split; [reflexivity|]. split; [discriminate|]. split; [exact Hb|].
      right. eexists. split; [reflexivity | apply take_while_forallb].
    + intros [= <-]. exists (b0 :: body), [], (d :: rest). rewrite app_nil_r.
      split; [cbn [app]; f_equal; symmetry; exact Ht|].
      split; [reflexivity|]. split; [discriminate|].
      split; [exact Hb | left; reflexivity].
Qed.

Lemma search_currency_found (s m : str) :
  search_currency s = Some m ->
  exists l r, s = l ++ m ++ r /\ currency_at (m ++ r) = Some m.
Proof.
  induction s as [|c s IH]; cbn [search_currency].
  - destruct (currency_at []) eqn:E; [cbn in E|]; discriminate.
  - destruct (currency_at (c :: s)) as [m'|] eqn:E.
    + intros [= <-]. destruct (currency_at_shape _ E) as [_ [_ [rest [Hs _]]]].
      exists [], rest. cbn [app]. rewrite <- Hs. auto.
    + intros H. destruct (IH H) as [l [r [Hs Hc]]].
      exists (c :: l), r. rewrite Hs. auto.
Qed.

Lemma digits_value_total (s : str) :
  forallb is_digit s = true -> forall acc, exists n, digits_value acc s = Some n.
Proof.
  induction s as [|c s IH]; intros H acc; [cbn; eauto|].
  cbn [forallb] in H. apply andb_prop in H as [Hc Hs].
  cbn [digits_value]. unfold is_digit in Hc.
  destruct (decimal_value c); [apply IH; exact Hs | discriminate].
Qed.

Lemma filter_digits_of_body (body : str) :
  forallb is_digit_or_comma body = true ->
  filter is_digit_or_dot body = filter is_digit body
  /\ forallb is_digit (filter is_digit body) = true.
Proof.
  induction body as [|c body IH]; intros H; [split; reflexivity|].
  cbn [forallb] in H. apply andb_prop in H as [Hc Hb]. destruct (IH Hb) as [IH1 IH2].
  cbn [filter]. unfold is_digit_or_dot at 1. unfold is_digit_or_comma in Hc.
  destruct (is_digit c) eqn:Ed; cbn [orb].
  - rewrite IH1. cbn [forallb]. rewrite Ed, IH2. split; reflexivity.
  - cbn [orb] in Hc. apply N.eqb_eq in Hc. subst c. cbn. exact (conj IH1 IH2).
Qed.

Lemma filter_digits_id (ds : str) :
  forallb is_digit ds = true -> filter is_digit_or_dot ds = ds.
Proof.
  induction ds as [|c ds IH]; intros H; [reflexivity|].
  cbn [forallb] in H. apply andb_prop in H as [Hc Hd].
  cbn [filter]. unfold is_digit_or_dot at 1. rewrite Hc, IH by assumption. reflexivity.
Qed.

Lemma clean_price_value (s cleaned : str) (q : pyfloat) :
  filter is_digit_or_dot s = cleaned -> cleaned <> [] ->
  float_of_decimal cleaned = Ok q ->
  clean_price s = Ok (Some q).
Proof.
  intros Hf Hne Hq. unfold clean_price. rewrite Hf.
  destruct s as [|c s]; [cbn in Hf; congruence|]. cbn [nonempty negb].
  destruct cleaned; [contradiction|]. cbn [nonempty]. rewrite Hq. reflexivity.
Qed.

Lemma existsb_filter (p : N -> bool) (s : str) :
  existsb p s = true -> filter p s <> [].
Proof.
  induction s as [|c s IH]; [discriminate|].
  cbn [existsb filter]. destruct (p c); [discriminate | exact IH].
Qed.

(** X10.  The price kept for an item is empty or a piece of the element's
    text that starts with a dollar sign; when it holds a digit,
    [clean_price] always turns it into a float, which is not negative: a
    scraped price never has two decimal points. *)
Theorem X10_scraped_price_converts (price_text : str) :
  (search_currency price_text = None /\ read_price price_text = [])
  \/ (exists l r, price_text = l ++ read_price price_text ++ r)
     /\ hd_error (read_price price_text) = Some dollar
     /\ (existsb is_digit (read_price price_text) = true ->
         exists x, clean_price (read_price price_text) = Ok (Some x) /\ nonnegative x).
Proof.
  unfold read_price. destruct (search_currency price_text) as [m|] eqn:E; [right | left; auto].
  destruct (search_currency_found _ E) as [l [r [Hs Hc]]].
  destruct (currency_at_shape _ Hc) as [body [frac [_ [_ [Hm [Hne [Hbody Hfrac]]]]]]].
  split; [eauto|]. split; [rewrite Hm; reflexivity|].
  intros Hdigit. destruct (filter_digits_of_body _ Hbody) as [Hfb Hip].
  assert (filter is_digit_or_dot m = filter is_digit body ++ frac) as Hclean.
  { rewrite Hm. cbn [filter]. change (is_digit_or_dot dollar) with false. cbv iota.
    rewrite filter_app, Hfb. f_equal.
    destruct Hfrac as [-> | [ds [-> Hds]]]; [reflexivity|].
    cbn [filter]. change (is_digit_or_dot dot) with true. cbv iota.
    rewrite (filter_digits_id _ Hds). reflexivity. }
  assert (existsb is_digit body = true \/ existsb is_digit frac = true) as Hwhere.
  { rewrite Hm in Hdigit. cbn [existsb] in Hdigit.
    change (is_digit dollar) with false in Hdigit. cbn [orb] in Hdigit.
    rewrite existsb_app in Hdigit. apply orb_prop in Hdigit. exact Hdigit. }
  destruct Hfrac as [-> | [ds [-> Hds]]].
  - rewrite app_nil_r in Hclean.
    assert (filter is_digit body <> []) as Hnz.
    { destruct Hwhere as [H|H]; [apply existsb_filter; exact H | discriminate]. }
    destruct (digits_value_total _ Hip 0%N) as [n Hn].
    eexists. split.
    + apply (clean_price_value _ Hclean Hnz).
      apply float_of_decimal_integer; eassumption.
    + apply nearest_double_nonneg; lia.
  - assert (filter is_digit body ++ ds <> []) as Hnz.
    { destruct Hwhere as [H|H].
      - apply existsb_filter in H. destruct (filter is_digit body); [contradiction | discriminate].
      - cbn [existsb] in H. change (is_digit dot) with false in H. cbn [orb] in H.
        destruct ds; [discriminate|]. destruct (filter is_digit body); discriminate. }
    assert (forallb is_digit (filter is_digit body ++ ds) = true) as Hall
      by (rewrite forallb_app, Hip, Hds; reflexivity).
    destruct (digits_value_total _ Hall 0%N) as [n Hn].
    eexists. split.
    + apply (clean_price_value _ Hclean).
      * destruct (filter is_digit body); discriminate.
      * apply float_of_decimal_point; eassumption.
    + apply nearest_double_nonneg; [lia | apply Z.pow_pos_nonneg; lia].
Qed.

Lemma scrape_kept (fetch : str -> res Soup) (menu_url : str) (dishes : list Dish) :
  scrape_menu_from_yelp fetch menu_url = Ok dishes ->
  forall d, In d dishes -> kept d = true.
Proof.
  unfold scrape_menu_from_yelp, try_except.
  destruct (fetch menu_url) as [soup|e]; cbn [bind].
  - destruct (select_items soup selectors_to_try []) as [items|e]; cbn [bind].
    + destruct (negb (nonempty items)).
      * intros [= <-] d [].
      * intros [= <-] d Hd. apply (extract_items_kept _ _ Hd).
    + destruct e; intros [= <-] d [].
  - destruct e; intros [= <-] d [].
Qed.

(** X11.  When [get_menu_data] returns a menu, it returns exactly one, named
    after the restaurant, whose name is a string, and typed [main], together
    with at least one dish; every dish has a name and a description or a
    price.  It returns [None] exactly when the extraction yields no dish. *)
Theorem X11_menu_data_has_content (fetch : str -> res Soup) (restaurant : Restaurant) :
  (forall menus dishes,
      get_menu_data fetch restaurant = Ok (Some (menus, dishes)) ->
      (exists n, name restaurant = JStr n
                 /\ menus = [{| menu_name := n ++ lit " Menu";
                                menu_description := lit "Main menu for " ++ n;
                                menu_type := lit "main";
                                display_order := 0;
                                restaurant_id := None |}])
      /\ dishes <> []
      /\ (forall d, In d dishes -> kept d = true))
  /\ (forall menu_url,
        construct_menu_url restaurant = Ok menu_url ->
        (get_menu_data fetch restaurant = Ok None
         <-> scrape_menu_from_yelp fetch menu_url = Ok [])).
Proof.
  split.
  - intros menus dishes. unfold get_menu_data.
    destruct (construct_menu_url restaurant) as [menu_url|] eqn:Eu; [|discriminate].
    cbn [bind].
    destruct (scrape_menu_from_yelp fetch menu_url) as [scraped|] eqn:Es; [|discriminate].
    cbn [bind]. destruct scraped as [|d ds]; [discriminate|]. cbn [nonempty].
    intros [= <- <-].
    assert (exists n, name restaurant = JStr n) as [n Hn].
    { unfold construct_menu_url in Eu.
      destruct (name restaurant) as [| | |n| |]; try discriminate. eauto. }
    split; [|split; [discriminate | exact (scrape_kept _ _ Es)]].
    exists n. rewrite Hn. split; reflexivity.
  - intros menu_url Hu. unfold get_menu_data. rewrite Hu. cbn [bind].
    destruct (scrape_total fetch menu_url) as [dishes ->]. cbn [bind].
    destruct dishes; cbn [nonempty]; split; intros H; try reflexivity; discriminate.
Qed.

End ExtractionMore.

(** ** The price parser, completely *)

Section PriceParserMore.
Context {U : Unicode}.

Lemma digits_value_digits (s : str) :
  forall acc n, digits_value acc s = Some n -> forallb is_digit s = true.
Proof.
  induction s as [|c s IH]; intros acc n; [reflexivity|].
  cbn [digits_value forallb]. unfold is_digit at 1.
  destruct (decimal_value c); [|discriminate].
  intros H. apply IH in H. exact H.
Qed.

Lemma digits_no_dot (s : str) :
  forallb is_digit s = true -> count_occ N.eq_dec s dot = 0%nat.
Proof.
  induction s as [|c s IH]; intros H; [reflexivity|].
  cbn [forallb] in H. apply andb_prop in H as [Hc Hs]. cbn [count_occ].
  destruct (N.eq_dec c dot) as [->|_]; [rewrite is_digit_dot in Hc; discriminate|].
  apply IH, Hs.
Qed.

Lemma no_dot_digits (s : str) :
  forallb is_digit_or_dot s = true -> count_occ N.eq_dec s dot = 0%nat ->
  forallb is_digit s = true.
Proof.
  induction s as [|c s IH]; intros H Hc; [reflexivity|].
  cbn [forallb] in H. apply andb_prop in H as [Hd Hs]. cbn [count_occ] in Hc.
  destruct (N.eq_dec c dot) as [->|Hne]; [discriminate|].
  unfold is_digit_or_dot in Hd. apply orb_prop in Hd as [Hd|Hd].
  - cbn [forallb]. rewrite Hd. apply IH; assumption.
  - apply N.eqb_eq in Hd. contradiction.
Qed.

Lemma digits_exist (s : str) :
  forallb is_digit s = true -> s <> [] -> existsb is_digit s = true.
Proof.
  destruct s as [|c s]; [contradiction|]. cbn [forallb existsb]. intros H _.
  apply andb_prop in H as [-> _]. reflexivity.
Qed.

Lemma int_part_digits (s : str) :
  forallb is_digit_or_dot s = true ->
  forallb is_digit (take_while (fun c => negb (c =? dot)%N) s) = true
  /\ (skipn (List.length (take_while (fun c => negb (c =? dot)%N) s)) s = []
      \/ exists fp,
           skipn (List.length (take_while (fun c => negb (c =? dot)%N) s)) s = dot :: fp
           /\ forallb is_digit_or_dot fp = true).
Proof.
  induction s as [|c s IH]; intros H; [split; [reflexivity | left; reflexivity]|].
  cbn [forallb] in H. apply andb_prop in H as [Hc Hs]. cbn [take_while].
  destruct (c =? dot)%N eqn:E; cbn [negb].
  - apply N.eqb_eq in E. subst c. split; [reflexivity|]. right. exists s. auto.
  - destruct (IH Hs) as [IH1 IH2]. cbn [forallb List.length skipn].
    unfold is_digit_or_dot in Hc. rewrite E, orb_false_r in Hc. rewrite Hc, IH1.
    split; [reflexivity | exact IH2].
Qed.

Lemma float_of_decimal_ok_iff (cleaned : str) :
  forallb is_digit_or_dot cleaned = true ->
  (exists q, float_of_decimal cleaned = Ok q)
  <-> existsb is_digit cleaned = true /\ (count_occ N.eq_dec cleaned dot <= 1)%nat.
Proof.
  intros Hc. destruct (int_part_digits _ Hc) as [Hip Hrest].
  pose proof (take_while_skipn (fun c => negb (c =? dot)%N) cleaned) as Hsplit.
  unfold float_of_decimal. cbv zeta.
  set (ip := take_while (fun c => negb (c =? dot)%N) cleaned) in *.
  destruct Hrest as [Hr | [fp [Hr Hfp]]]; rewrite Hr in *.
  - rewrite app_nil_r in Hsplit. rewrite <- Hsplit.
    destruct (digits_value_total _ Hip 0%N) as [n Hn].
    rewrite (digits_no_dot _ Hip). destruct ip as [|c ip].
    + split; [intros [q Hq]; discriminate | intros [H _]; discriminate].
    + rewrite Hn. split; [intros _ | eauto].
      split; [apply digits_exist; [exact Hip | discriminate] | lia].
  - rewrite <- Hsplit. rewrite existsb_app, count_occ_app, (digits_no_dot _ Hip).
    cbn [existsb count_occ]. rewrite is_digit_dot. cbn [orb].
    destruct (N.eq_dec dot dot) as [_|Hne]; [|contradiction].
    split.
    + intros [q Hq].
      destruct (ip ++ fp) as [|c l] eqn:El; [discriminate|].
      destruct (digits_value 0 (c :: l)) as [n|] eqn:En; [|discriminate].
      pose proof (digits_value_digits _ _ En) as Hall. rewrite <- El in Hall.
      rewrite forallb_app in Hall. apply andb_prop in Hall as [_ Hfpd].
      rewrite (digits_no_dot _ Hfpd). split; [|lia].
      destruct ip as [|i ip].
      * cbn [app] in El. cbn [existsb orb]. apply digits_exist; [exact Hfpd | congruence].
      * cbn [existsb forallb] in Hip |- *. apply andb_prop in Hip as [-> _]. reflexivity.
    + intros [Hd Hone].
      assert (forallb is_digit fp = true) as Hfpd by (apply no_dot_digits; [exact Hfp | lia]).
      assert (forallb is_digit (ip ++ fp) = true) as Hall
        by (rewrite forallb_app, Hip, Hfpd; reflexivity).
      destruct (digits_value_total _ Hall 0%N) as [n Hn].
      destruct (ip ++ fp) as [|c l] eqn:El; [|rewrite Hn; eauto].
      apply app_eq_nil in El as [-> ->]. discriminate.
Qed.

Lemma filter_keep_facts (s : str) :
  forallb is_digit_or_dot (filter is_digit_or_dot s) = true
  /\ existsb is_digit (filter is_digit_or_dot s) = existsb is_digit s
  /\ count_occ N.eq_dec (filter is_digit_or_dot s) dot = count_occ N.eq_dec s dot.
Proof.
  induction s as [|c s [IH1 [IH2 IH3]]]; [repeat split|].
  cbn [filter existsb count_occ].
  destruct (is_digit_or_dot c) eqn:Ek.
  - cbn [forallb existsb count_occ]. rewrite Ek, IH1, IH2, IH3. repeat split.
  - unfold is_digit_or_dot in Ek. apply orb_false_elim in Ek as [Ed Ec].
    apply N.eqb_neq in Ec. rewrite Ed. cbn [orb].
    destruct (N.eq_dec c dot); [contradiction|]. auto.
Qed.

(** X12.  [clean_price] answers [None] exactly when the text holds no digit
    or holds two or more decimal points; in every other case it answers a
    float. *)
Theorem X12_price_absent_iff (price_str : str) :
  clean_price price_str = Ok None
  <-> existsb is_digit price_str = false
      \/ (2 <= count_occ N.eq_dec price_str dot)%nat.
Proof.
  destruct (filter_keep_facts price_str) as [Hkeep [Hdig Hdots]].
  pose proof (float_of_decimal_ok_iff _ Hkeep) as Hiff.
  rewrite Hdig, Hdots in Hiff.
  split.
  - intros Hnone.
    destruct (existsb is_digit price_str) eqn:Ed; [|left; reflexivity].
    right. destruct (le_lt_dec 2 (count_occ N.eq_dec price_str dot)) as [H|H]; [exact H|].
    exfalso. destruct (proj2 Hiff) as [q Hq]; [split; [reflexivity | lia]|].
    assert (filter is_digit_or_dot price_str <> []) as Hne
      by (intros E; rewrite E in Hdig; discriminate).
    rewrite (clean_price_value _ eq_refl Hne Hq) in Hnone. discriminate.
  - intros Hwhy. destruct (clean_price_total price_str) as [[q|] Hr]; [|exact Hr].
    exfalso. unfold clean_price in Hr.
    destruct (negb (nonempty price_str)); [discriminate|].
    destruct (nonempty (filter is_digit_or_dot price_str)); [|discriminate].
    destruct (float_of_decimal (filter is_digit_or_dot price_str)) as [q'|e] eqn:Ef.
    + destruct (proj1 Hiff (ex_intro _ q' eq_refl)) as [Hd Hc].
      destruct Hwhy as [Hno|Htwo]; [congruence | lia].
    + cbn [bind] in Hr. destruct e; discriminate.
Qed.

End PriceParserMore.

(** ** The store: rows are only added, references hold *)

Lemma grows_refl {A} (t : Table A) : grows t t.
Proof. exists []. rewrite app_nil_r. reflexivity. Qed.

Lemma grows_trans {A} (t1 t2 t3 : Table A) : grows t1 t2 -> grows t2 t3 -> grows t1 t3.
Proof.
  intros [a Ha] [b Hb]. exists (a ++ b). rewrite Hb, Ha, app_assoc. reflexivity.
Qed.

Lemma grows_insert {A} (t : Table A) (a : A) : grows t (snd (table_insert t a)).
Proof. exists [(next_id t, a)]. reflexivity. Qed.

Lemma grows_In {A} (t t' : Table A) (row : Z * A) :
  grows t t' -> In row (rows t) -> In row (rows t').
Proof. intros [added ->] H. apply in_or_app. left. exact H. Qed.

Lemma db_grows_refl (d : DB) : db_grows d d.
Proof. repeat split; apply grows_refl. Qed.

Lemma db_grows_trans (d1 d2 d3 : DB) : db_grows d1 d2 -> db_grows d2 d3 -> db_grows d1 d3.
Proof.
  intros [H1 [H2 H3]] [G1 [G2 G3]].
  repeat split; eapply grows_trans; eassumption.
Qed.

Lemma references_insert_dish (row : DishRow) (d : DB) :
  references_ok d -> In (row_menu_id row) (menu_ids d) ->
  references_ok (snd (insert_dish row d)).
Proof.
  intros [Hm Hd] Hin. split.
  - exact Hm.
  - intros r Hr. cbn in Hr. apply in_app_or in Hr as [Hr|[<-|[]]]; [apply Hd, Hr | exact Hin].
Qed.

Lemma references_insert_menu (m : Menu) (rid : Z) (d : DB) :
  references_ok d -> restaurant_id m = Some rid -> In rid (restaurant_ids d) ->
  references_ok (snd (insert_menu m d)).
Proof.
  intros [Hm Hd] Hrid Hin. split.
  - intros r Hr. cbn in Hr. apply in_app_or in Hr as [Hr|[<-|[]]]; [apply Hm, Hr|].
    exists rid. split; assumption.
  - intros r Hr. unfold menu_ids. cbn. rewrite map_app. apply in_or_app. left.
    apply Hd, Hr.
Qed.

Lemma references_insert_restaurant (r : Restaurant) (d : DB) :
  references_ok d -> references_ok (snd (insert_restaurant r d)).
Proof.
  intros [Hm Hd]. split; [|exact Hd].
  intros row Hr. destruct (Hm row Hr) as [rid [H1 H2]]. exists rid. split; [exact H1|].
  unfold restaurant_ids. cbn. rewrite map_app. apply in_or_app. left. exact H2.
Qed.

Section StoreInvariants.
Context {U : Unicode}.
Variable fault : nat -> option exn.

Lemma insert_dishes_effect (menu_id : Z) (dishes : list Dish) :
  forall st,
    db_grows (db st) (db (snd (insert_dishes fault menu_id dishes st)))
    /\ menu_table (db (snd (insert_dishes fault menu_id dishes st))) = menu_table (db st)
    /\ (references_ok (db st) -> In menu_id (menu_ids (db st)) ->
        references_ok (db (snd (insert_dishes fault menu_id dishes st)))).
Proof.
  induction dishes as [|dish_data rest IH]; intros st.
  - cbn. split; [apply db_grows_refl | auto].
  - rewrite insert_dishes_step. destruct (fault (calls st)).
    + cbn [snd db]. split; [apply db_grows_refl | auto].
    + match goal with |- context [insert_dishes fault menu_id rest ?s] =>
        destruct (IH s) as [Hg [Hm Hr]] end.
      cbn [db] in *. split; [|split].
      * eapply db_grows_trans; [|exact Hg].
        repeat split; try apply grows_refl. apply grows_insert.
      * rewrite Hm. reflexivity.
      * intros Hok Hin. apply Hr; [|exact Hin].
        apply references_insert_dish; assumption.
Qed.

Lemma insert_menus_step (rid : Z) (menu_data : Menu) (rest : list Menu)
    (dishes : list Dish) (st : Store) :
  insert_menus fault rid (menu_data :: rest) dishes st
  = match fault (calls st) with
    | Some e => (Raise e, {| db := db st; calls := S (calls st) |})
    | None =>
        match insert_dishes fault (fst (insert_menu (linked rid menu_data) (db st))) dishes
                {| db := snd (insert_menu (linked rid menu_data) (db st));
                   calls := S (calls st) |} with
        | (Ok _, st2) => insert_menus fault rid rest dishes st2
        | (Raise e, st2) => (Raise e, st2)
        end
    end.
Proof.
  cbn [insert_menus]. unfold bindM at 1. rewrite execute_cases.
  destruct (fault (calls st)); reflexivity.
Qed.

Lemma insert_menus_effect (rid : Z) (menus : list Menu) (dishes : list Dish) :
  forall st,
    db_grows (db st) (db (snd (insert_menus fault rid menus dishes st)))
    /\ (references_ok (db st) -> In rid (restaurant_ids (db st)) ->
        references_ok (db (snd (insert_menus fault rid menus dishes st)))).
Proof.
  induction menus as [|menu_data rest IH]; intros st.
  - cbn. split; [apply db_grows_refl | auto].
  - rewrite insert_menus_step.
    destruct (fault (calls st)); [cbn [snd db]; split; [apply db_grows_refl | auto]|].
    set (m := linked rid menu_data).
    set (st1 := {| db := snd (insert_menu m (db st)); calls := S (calls st) |}).
    assert (db_grows (db st) (db st1)) as G1.
    { cbn. repeat split; try apply grows_refl. apply grows_insert. }
    assert (In (fst (insert_menu m (db st))) (menu_ids (db st1))) as Hid.
    { unfold menu_ids. cbn. rewrite map_app. apply in_or_app. right. left. reflexivity. }
    destruct (insert_dishes_effect (fst (insert_menu m (db st))) dishes st1)
      as [G2 [Hm2 R2]].
    destruct (insert_dishes fault (fst (insert_menu m (db st))) dishes st1)
      as [[[]|e2] st2]; cbn [snd] in *.
    + destruct (IH st2) as [G3 R3]. split.
      * eapply db_grows_trans; [exact G1|]. eapply db_grows_trans; eassumption.
      * intros Hok Hin. apply R3.
        -- apply R2; [|exact Hid].
           apply (@references_insert_menu m rid); auto.
        -- destruct G2 as [[added Ha] _]. unfold restaurant_ids. rewrite Ha, map_app.
           apply in_or_app. left. exact Hin.
    + split; [eapply db_grows_trans; eassumption|].
      intros Hok Hin. apply R2; [|exact Hid].
      apply (@references_insert_menu m rid); auto.
Qed.

Lemma select_restaurant_In (key : json) (d : DB) (row : Z * Restaurant)
    (others : list (Z * Restaurant)) :
  fst (select_restaurant key d) = row :: others -> In (fst row) (restaurant_ids d).
Proof.
  unfold select_restaurant, restaurant_ids. cbn [fst]. intros E.
  assert (In row (filter (fun r => json_eqb (yelp_id (snd r)) key)
                    (rows (restaurant_table d)))) as Hrow
    by (rewrite E; left; reflexivity).
  apply filter_In in Hrow as [Hr _]. apply in_map. exact Hr.
Qed.

Lemma upsert_restaurant_effect (restaurant : Restaurant) (st : Store) :
  db_grows (db st) (db (snd (upsert_restaurant fault restaurant st)))
  /\ (references_ok (db st) ->
      references_ok (db (snd (upsert_restaurant fault restaurant st))))
  /\ (forall rid,
        fst (upsert_restaurant fault restaurant st) = Ok rid ->
        In rid (restaurant_ids (db (snd (upsert_restaurant fault restaurant st))))).
Proof.
  unfold upsert_restaurant, bindM. rewrite execute_cases.
  destruct (fault (calls st)).
  { cbn [snd fst db]. split; [apply db_grows_refl|]. split; [auto | discriminate]. }
  destruct (fst (select_restaurant (yelp_id restaurant) (db st))) as [|row others] eqn:E.
  - rewrite execute_cases. cbn [calls db]. destruct (fault (S (calls st))).
    + cbn [snd fst db]. split; [apply db_grows_refl|]. split; [auto | discriminate].
    + cbn [snd fst db]. split; [|split].
      * repeat split; try apply grows_refl. apply grows_insert.
      * apply references_insert_restaurant.
      * intros rid [= <-]. unfold restaurant_ids. cbn. rewrite map_app.
        apply in_or_app. right. left. reflexivity.
  - cbn [snd fst db ret]. split; [apply db_grows_refl|]. split; [auto|].
    intros rid [= <-]. exact (select_restaurant_In _ _ E).
Qed.

Lemma save_to_database_effect (restaurant : Restaurant) (menus : list Menu)
    (dishes : list Dish) (st : Store) :
  db_grows (db st) (db (snd (save_to_database fault restaurant menus dishes st)))
  /\ (references_ok (db st) ->
      references_ok (db (snd (save_to_database fault restaurant menus dishes st)))).
Proof.
  rewrite save_to_database_store.
  destruct (upsert_restaurant_effect restaurant st) as [G1 [R1 Hid]].
  destruct (upsert_restaurant fault restaurant st) as [[rid|e] st1]; cbn [snd fst] in *.
  - destruct (insert_menus_effect rid menus dishes st1) as [G2 R2]. split.
    + eapply db_grows_trans; eassumption.
    + intros Hok. apply R2; [apply R1, Hok | apply Hid; reflexivity].
  - split; assumption.
Qed.

End StoreInvariants.

Section RunInvariants.
Context {U : Unicode}.
Variable w : World.

Lemma collect_loop_effect (businesses : list json) :
  forall idx run,
    db_grows (db (store run)) (db (store (snd (collect_loop w idx businesses run))))
    /\ (references_ok (db (store run)) ->
        references_ok (db (store (snd (collect_loop w idx businesses run))))).
Proof.
  induction businesses as [|business rest IH]; intros idx run.
  - cbn. split; [apply db_grows_refl | auto].
  - cbn [collect_loop].
    destruct (process_business w idx business run) as [run'|e] eqn:E;
      [|cbn; split; [apply db_grows_refl | auto]].
    destruct (IH (S idx) run') as [G R].
    destruct (@process_business_store U w idx business run run' E)
      as [Hs | [r [ms [ds Hs]]]]; rewrite Hs in *.
    + split; assumption.
    + destruct (save_to_database_effect (store_fault w) r ms ds (store run)) as [G1 R1].
      split; [eapply db_grows_trans; eassumption | auto].
Qed.

(** X13.  The store is append-only: whatever fails, [save_to_database] and
    a whole run of [collect_san_ramon_data] leave every row that was in the
    restaurant, menu and dish tables in place and unchanged; they only add
    rows after them. *)
Theorem X13_rows_are_only_added (st : Store) :
  (forall fault restaurant menus dishes,
      db_grows (db st) (db (snd (save_to_database fault restaurant menus dishes st))))
  /\ (forall total_restaurants,
        db_grows (db st)
          (db (store (snd (collect_san_ramon_data w total_restaurants st))))).
Proof.
  split.
  - intros fault restaurant menus dishes. apply save_to_database_effect.
  - intros total. unfold collect_san_ramon_data.
    destruct (negb (nonempty _)); [apply db_grows_refl|].
    apply (collect_loop_effect _ 0 {| store := st; restaurants_processed := 0;
                                      restaurants_skipped := 0; save_calls := [] |}).
Qed.

(** X14.  No foreign key is left dangling, even when a call fails half way:
    if every menu row names a restaurant row and every dish row a menu row
    before, the same holds after [save_to_database] and after a whole run. *)
Theorem X14_references_hold (st : Store) :
  references_ok (db st) ->
  (forall fault restaurant menus dishes,
      references_ok (db (snd (save_to_database fault restaurant menus dishes st))))
  /\ (forall total_restaurants,
        references_ok (db (store (snd (collect_san_ramon_data w total_restaurants st))))).
Proof.
  intros Hok. split.
  - intros fault restaurant menus dishes. apply save_to_database_effect, Hok.
  - intros total. unfold collect_san_ramon_data.
    destruct (negb (nonempty _)); [exact Hok|].
    apply (collect_loop_effect _ 0 {| store := st; restaurants_processed := 0;
                                      restaurants_skipped := 0; save_calls := [] |}).
    exact Hok.
Qed.

End RunInvariants.

(** ** The store: what a call without failure writes *)

Lemma json_eqb_refl (v : json) : json_eqb v v = true.
Proof. apply json_eqb_eq. reflexivity. Qed.

Section SaveSuccess.
Context {U : Unicode}.
Variable fault : nat -> option exn.

Lemma dish_rows_for_length (first_menu_id : Z) (n : nat) (dishes : list Dish) :
  List.length (dish_rows_for first_menu_id n dishes) = (n * List.length dishes)%nat.
Proof.
  revert first_menu_id. induction n as [|n IH]; intros first_menu_id; [reflexivity|].
  cbn [dish_rows_for]. rewrite length_app, length_map, IH. reflexivity.
Qed.

Lemma insert_menus_success (rid : Z) (menus : list Menu) (dishes : list Dish) :
  forall st,
    (forall i, (calls st <= i)%nat -> fault i = None) ->
    exists st',
      insert_menus fault rid menus dishes st = (Ok tt, st')
      /\ calls st' = (calls st + List.length menus * (1 + List.length dishes))%nat
      /\ restaurant_table (db st') = restaurant_table (db st)
      /\ map snd (rows (menu_table (db st')))
         = map snd (rows (menu_table (db st))) ++ map (linked rid) menus
      /\ next_id (menu_table (db st'))
         = (next_id (menu_table (db st)) + Z.of_nat (List.length menus))%Z
      /\ map snd (rows (dish_table (db st')))
         = map snd (rows (dish_table (db st)))
           ++ dish_rows_for (next_id (menu_table (db st))) (List.length menus) dishes.
Proof.
  induction menus as [|menu_data rest IH]; intros st Hok.
  - exists st. cbn. rewrite !app_nil_r, Nat.add_0_r, Z.add_0_r. auto 10.
  - rewrite insert_menus_step, (Hok (calls st)) by lia.
    rewrite insert_dishes_all by (intros i _; apply Hok; cbn; lia).
    cbn [db calls].
    set (d1 := snd (insert_menu (linked rid menu_data) (db st))).
    destruct (insert_rows_tables
                (map (dish_row (fst (insert_menu (linked rid menu_data) (db st)))) dishes) d1)
      as [Hd [Hr Hm]].
    match goal with |- context [insert_menus fault rid rest dishes ?s] =>
      destruct (IH s) as [st' [Hrun [Hc [Hrt [Hmt [Hn Hdt]]]]]] end.
    { intros i Hi. apply Hok. cbn [calls] in Hi. lia. }
    cbn [db calls] in *. exists st'. split; [exact Hrun|].
    rewrite Hm, Hr, Hd in *. split; [rewrite Hc; cbn [List.length]; lia|].
    split; [exact Hrt|]. split; [|split].
    + rewrite Hmt. unfold d1. cbn. rewrite map_app, <- app_assoc. reflexivity.
    + rewrite Hn. unfold d1. cbn [List.length]. cbn. lia.
    + rewrite Hdt. unfold d1. cbn [List.length dish_rows_for]. cbn.
      rewrite <- app_assoc. reflexivity.
Qed.

Lemma upsert_restaurant_success (restaurant : Restaurant) (st : Store) :
  (forall i, (calls st <= i)%nat -> fault i = None) ->
  exists d,
    upsert_restaurant fault restaurant st
    = (Ok (resolved_id restaurant (db st)),
       {| db := d; calls := calls st + upsert_requests restaurant (db st) |})
    /\ menu_table d = menu_table (db st) /\ dish_table d = dish_table (db st)
    /\ rows (restaurant_table d)
       = rows (restaurant_table (db st))
         ++ (if nonempty (fst (select_restaurant (yelp_id restaurant) (db st)))
             then [] else [(next_id (restaurant_table (db st)), restaurant)]).
Proof.
  intros Hok. unfold upsert_restaurant, bindM, resolved_id, upsert_requests.
  rewrite execute_cases, (Hok (calls st)) by lia.
  destruct (fst (select_restaurant (yelp_id restaurant) (db st))) as [|row others] eqn:E;
    cbn [nonempty].
  - rewrite execute_cases. cbn [calls db]. rewrite (Hok (S (calls st))) by lia.
    replace (calls st + 2)%nat with (S (S (calls st))) by lia.
    eexists. split; [reflexivity|]. repeat split.
  - replace (calls st + 1)%nat with (S (calls st)) by lia.
    exists (db st). cbn [ret]. rewrite app_nil_r. repeat split.
Qed.

Lemma save_to_database_success (restaurant : Restaurant) (menus : list Menu)
    (dishes : list Dish) (st : Store) :
  (forall i, (calls st <= i)%nat -> fault i = None) ->
  exists st',
    save_to_database fault restaurant menus dishes st = (None, st')
    /\ calls st' = (calls st + upsert_requests restaurant (db st)
                    + List.length menus * (1 + List.length dishes))%nat
    /\ rows (restaurant_table (db st'))
       = rows (restaurant_table (db st))
         ++ (if nonempty (fst (select_restaurant (yelp_id restaurant) (db st)))
             then [] else [(next_id (restaurant_table (db st)), restaurant)])
    /\ map snd (rows (menu_table (db st')))
       = map snd (rows (menu_table (db st)))
         ++ map (linked (resolved_id restaurant (db st))) menus
    /\ map snd (rows (dish_table (db st')))
       = map snd (rows (dish_table (db st)))
         ++ dish_rows_for (next_id (menu_table (db st))) (List.length menus) dishes.
Proof.
  intros Hok. destruct (upsert_restaurant_success restaurant st Hok)
    as [d [Hup [Hm [Hd Hr]]]].
  destruct (insert_menus_success (resolved_id restaurant (db st)) menus dishes
              {| db := d; calls := calls st + upsert_requests restaurant (db st) |})
    as [st' [Hrun [Hc [Hrt [Hmt [_ Hdt]]]]]].
  { intros i Hi. apply Hok. cbn [calls] in Hi. lia. }
  cbn [db calls] in *. exists st'. unfold save_to_database. unfold bindM at 1.
  rewrite Hup, Hrun. split; [reflexivity|]. split; [exact Hc|].
  rewrite Hrt, Hmt, Hdt, Hm, Hd. auto.
Qed.

(** X15.  When no store request fails, [save_to_database] logs nothing and
    writes everything: the restaurant row unless one carries its
    identifier, one row per menu, linked to the restaurant's row, and under
    each menu a row for every dish of the call (so with several menus the
    dishes are repeated under each); it makes one or two requests for the
    restaurant and one per menu and per dish row. *)
Theorem X15_save_without_failure (restaurant : Restaurant) (menus : list Menu)
    (dishes : list Dish) (st : Store) :
  (forall i, (calls st <= i)%nat -> fault i = None) ->
  exists st',
    save_to_database fault restaurant menus dishes st = (None, st')
    /\ calls st' = (calls st + upsert_requests restaurant (db st)
                    + List.length menus * (1 + List.length dishes))%nat
    /\ In (resolved_id restaurant (db st)) (restaurant_ids (db st'))
    /\ map snd (rows (menu_table (db st')))
       = map snd (rows (menu_table (db st)))
         ++ map (linked (resolved_id restaurant (db st))) menus
    /\ map snd (rows (dish_table (db st')))
       = map snd (rows (dish_table (db st)))
         ++ dish_rows_for (next_id (menu_table (db st))) (List.length menus) dishes.
Proof.
  intros Hok.
  destruct (save_to_database_success restaurant menus dishes st Hok)
    as [st' [Hs [Hc [Hr [Hm Hd]]]]].
  exists st'. split; [exact Hs|]. split; [exact Hc|]. split; [|split; assumption].
  unfold restaurant_ids, resolved_id. rewrite Hr, map_app.
  destruct (fst (select_restaurant (yelp_id restaurant) (db st))) as [|row others] eqn:E.
  - apply in_or_app. right. left. reflexivity.
  - apply in_or_app. left. exact (select_restaurant_In _ _ E).
Qed.

Lemma resolved_id_after (restaurant : Restaurant) (d d' : DB) :
  rows (restaurant_table d')
  = rows (restaurant_table d)
    ++ (if nonempty (fst (select_restaurant (yelp_id restaurant) d))
        then [] else [(next_id (restaurant_table d), restaurant)]) ->
  resolved_id restaurant d' = resolved_id restaurant d
  /\ nonempty (fst (select_restaurant (yelp_id restaurant) d')) = true.
Proof.
  unfold resolved_id, select_restaurant. cbn [fst]. intros ->.
  rewrite filter_app.
  destruct (filter _ (rows (restaurant_table d))) as [|row others]; cbn [nonempty].
  - cbn [filter app]. rewrite json_eqb_refl. split; reflexivity.
  - cbn [filter]. rewrite app_nil_r. split; reflexivity.
Qed.

(** X16.  Menus and dishes are never deduplicated: saving the same
    restaurant, menus and dishes a second time, with no request failing,
    leaves the restaurant table as the first call left it and adds the same
    menus again, linked to the same restaurant row, and as many dish rows
    again. *)
Theorem X16_second_save_duplicates (restaurant : Restaurant) (menus : list Menu)
    (dishes : list Dish) (st : Store) :
  (forall i, (calls st <= i)%nat -> fault i = None) ->
  let once := snd (save_to_database fault restaurant menus dishes st) in
  let twice := snd (save_to_database fault restaurant menus dishes once) in
  let stored := map (linked (resolved_id restaurant (db st))) menus in
  restaurant_table (db twice) = restaurant_table (db once)
  /\ map snd (rows (menu_table (db twice)))
     = map snd (rows (menu_table (db st))) ++ stored ++ stored
  /\ List.length (rows (dish_table (db twice)))
     = (List.length (rows (dish_table (db st)))
        + 2 * (List.length menus * List.length dishes))%nat.
Proof.
  intros Hok once twice stored.
  destruct (save_to_database_success restaurant menus dishes st Hok)
    as [st1 [Hs1 [Hc1 [Hr1 [Hm1 Hd1]]]]].
  assert (once = st1) as -> by (unfold once; rewrite Hs1; reflexivity).
  destruct (save_to_database_success restaurant menus dishes st1)
    as [st2 [Hs2 [_ [Hr2 [Hm2 Hd2]]]]].
  { intros i Hi. apply Hok. lia. }
  assert (twice = st2) as -> by (unfold twice; rewrite Hs2; reflexivity).
  destruct (resolved_id_after restaurant (db st) (db st1) Hr1) as [Hid Hex].
  rewrite Hex, app_nil_r in Hr2. rewrite Hid in Hm2.
  split; [|split].
  - replace st2 with (snd (save_to_database fault restaurant menus dishes st1))
      by (rewrite Hs2; reflexivity).
    apply save_to_database_existing. unfold yelp_ids.
    destruct (fst (select_restaurant (yelp_id restaurant) (db st1))) as [|row others] eqn:E;
      [discriminate|].
    unfold select_restaurant in E. cbn [fst] in E.
    assert (In row (filter (fun r => json_eqb (yelp_id (snd r)) (yelp_id restaurant))
                      (rows (restaurant_table (db st1))))) as Hrow
      by (rewrite E; left; reflexivity).
    apply filter_In in Hrow as [Hrow Heq]. apply json_eqb_eq in Heq.
    rewrite <- Heq. apply (in_map (fun r => yelp_id (snd r))) in Hrow. exact Hrow.
  - rewrite Hm2, Hm1, <- app_assoc. reflexivity.
  - rewrite <- (length_map snd), Hd2, length_app, Hd1, length_app, length_map,
      !dish_rows_for_length. lia.
Qed.

End SaveSuccess.

(** ** A page request that fails *)

Lemma skipn_nil_le {A} (a c : nat) (l : list A) :
  skipn a l = [] -> (a <= c)%nat -> skipn c l = [].
Proof.
  intros H Hle. apply skipn_all2.
  apply (f_equal (@List.length A)) in H. rewrite length_skipn in H. cbn in H. lia.
Qed.

Lemma firstn_nil_skipn {A} (n a : nat) (l : list A) :
  (0 < n)%nat -> firstn n (skipn a l) = [] -> skipn a l = [].
Proof.
  intros Hn H. destruct (skipn a l); [reflexivity|].
  destruct n; [lia | discriminate].
Qed.

Lemma firstn_pages {A} (b m : nat) (l : list A) :
  firstn 50 (skipn (50 * b) l) ++ firstn (50 * m) (skipn (50 * S b) l)
  = firstn (50 * S m) (skipn (50 * b) l).
Proof.
  replace (50 * S m)%nat with (50 + 50 * m)%nat by lia.
  rewrite firstn_add, skipn_skipn. do 3 f_equal. lia.
Qed.

Section FailingPage.
Variable w : World.
Variable location : str.
Variable listing : list json.
Variable failing : nat.
Hypothesis Hw : paginates_except w listing failing.

Lemma fetch_page_served (batch_num : nat) (offset limit : Z) :
  batch_num <> failing ->
  fetch_page w location batch_num offset limit
  = match firstn (Z.to_nat limit) (skipn (Z.to_nat offset) listing) with
    | [] => Ok PageBreak
    | page => Ok (PageExtend page)
    end.
Proof.
  intros Hne. unfold fetch_page. rewrite (proj1 Hw) by exact Hne. cbn [bind].
  change (dict_get _ _ _)
    with (JList (firstn (Z.to_nat limit) (skipn (Z.to_nat offset) listing))).
  destruct (firstn _ _); reflexivity.
Qed.

Lemma fetch_page_failing (offset limit : Z) :
  exists e, fetch_page w location failing offset limit = Raise e.
Proof.
  destruct (proj2 Hw location offset limit) as [e He].
  exists e. unfold fetch_page. rewrite He. reflexivity.
Qed.

(** The pages after the failing one, as long as each may still ask for 50
    businesses. *)
Lemma search_loop_after (total_limit : Z) (m : nat) :
  forall b all_businesses issued,
    (failing < b)%nat ->
    (Z.of_nat (List.length all_businesses) + 50 * Z.of_nat m <= total_limit)%Z ->
    fst (search_loop w location total_limit (seq b m) all_businesses issued)
    = all_businesses ++ firstn (50 * m) (skipn (50 * b) listing).
Proof.
  induction m as [|m IH]; intros b all_businesses issued Hb Hroom.
  - cbn. rewrite app_nil_r. reflexivity.
  - cbn [seq search_loop].
    assert (Z.min batch_size (total_limit - Z.of_nat (List.length all_businesses)) = 50%Z)
      as -> by (unfold batch_size; lia).
    cbn [Z.leb Z.compare]. rewrite fetch_page_served by lia.
    replace (Z.to_nat (Z.of_nat b * batch_size)) with (50 * b)%nat
      by (unfold batch_size; lia).
    change (Z.to_nat 50) with 50%nat.
    destruct (firstn 50 (skipn (50 * b) listing)) as [|x page] eqn:Epage.
    + apply firstn_nil_skipn in Epage; [|lia]. rewrite Epage, firstn_nil, app_nil_r.
      reflexivity.
    + rewrite <- Epage. rewrite IH.
      * rewrite <- app_assoc, firstn_pages. reflexivity.
      * lia.
      * rewrite length_app.
        assert (List.length (firstn 50 (skipn (50 * b) listing)) <= 50)%nat
          by apply firstn_le_length. lia.
Qed.

(** The pages up to the failing one and those after it. *)
Lemma search_loop_across (total_limit : Z) (m : nat) (j : nat) :
  forall b all_businesses issued,
    (b + j = failing)%nat ->
    (Z.of_nat (List.length all_businesses) + 50 * Z.of_nat (j + m) < total_limit)%Z ->
    fst (search_loop w location total_limit (seq b (j + S m)) all_businesses issued)
    = all_businesses ++ firstn (50 * j) (skipn (50 * b) listing)
      ++ firstn (50 * m) (skipn (50 * S failing) listing).
Proof.
  induction j as [|j IH]; intros b all_businesses issued Hb Hroom.
  - cbn [Nat.add seq search_loop].
    destruct (Z.leb_spec (Z.min batch_size
                (total_limit - Z.of_nat (List.length all_businesses))) 0) as [Hle|Hgt];
      [unfold batch_size in Hle; lia|].
    replace b with failing by lia.
    destruct (fetch_page_failing (Z.of_nat failing * batch_size)
                (Z.min batch_size (total_limit - Z.of_nat (List.length all_businesses))))
      as [e ->].
    rewrite search_loop_after by lia. reflexivity.
  - cbn [Nat.add seq search_loop].
    assert (Z.min batch_size (total_limit - Z.of_nat (List.length all_businesses)) = 50%Z)
      as -> by (unfold batch_size; lia).
    cbn [Z.leb Z.compare]. rewrite fetch_page_served by lia.
    replace (Z.to_nat (Z.of_nat b * batch_size)) with (50 * b)%nat
      by (unfold batch_size; lia).
    change (Z.to_nat 50) with 50%nat.
    destruct (firstn 50 (skipn (50 * b) listing)) as [|x page] eqn:Epage.
    + apply firstn_nil_skipn in Epage; [|lia].
      rewrite Epage, (skipn_nil_le (c := 50 * S failing) _ Epage) by lia.
      rewrite !firstn_nil, !app_nil_r. reflexivity.
    + rewrite <- Epage. rewrite IH.
      * rewrite <- app_assoc. rewrite (app_assoc (firstn 50 _)), firstn_pages.
        reflexivity.
      * lia.
      * rewrite length_app.
        assert (List.length (firstn 50 (skipn (50 * b) listing)) <= 50)%nat
          by apply firstn_le_length. lia.
Qed.

(** X17.  A page whose request fails is not asked for again and the later
    pages keep their offsets: against a directory that serves its listing
    page by page except for one page, the search returns the pages before
    the failing one followed by the pages after it, so the 50 businesses of
    the failing page are missing from the result. *)
Theorem X17_failed_page_is_lost (total_limit : Z) :
  (Z.of_nat failing < num_batches total_limit)%Z ->
  let pages_after := (Z.to_nat (num_batches total_limit) - 1 - failing)%nat in
  search_restaurants_batch w location total_limit
  = firstn (50 * failing) listing
    ++ firstn (50 * pages_after) (skipn (50 * S failing) listing).
Proof.
  intros Hk pages_after. unfold search_restaurants_batch, search_run.
  assert (0 < total_limit)%Z as Ht.
  { destruct (Z.le_gt_cases total_limit 0) as [Hle|Hgt]; [|lia].
    pose proof (num_batches_nonpositive Hle). lia. }
  assert (50 * (num_batches total_limit - 1) < total_limit)%Z as Hceil.
  { unfold num_batches, batch_size.
    pose proof (Z.mod_pos_bound (total_limit + 50 - 1) 50 ltac:(lia)).
    pose proof (Z.div_mod (total_limit + 50 - 1) 50 ltac:(lia)). lia. }
  replace (Z.to_nat (num_batches total_limit)) with (failing + S pages_after)%nat
    by (unfold pages_after; lia).
  rewrite (@search_loop_across total_limit pages_after failing 0%nat [] []);
    [reflexivity | lia | cbn [List.length]; unfold pages_after; lia].
Qed.

End FailingPage.

Lemma X17_failed_page_is_lost_witness :
  search_restaurants_batch (failing_directory (repeat test_diner 130) 1)
    (lit "San Ramon, CA") 120
  = firstn (50 * 1) (repeat test_diner 130)
    ++ firstn (50 * (Z.to_nat (num_batches 120) - 1 - 1))
         (skipn (50 * 2) (repeat test_diner 130)).
Proof.
  apply (@X17_failed_page_is_lost (failing_directory (repeat test_diner 130) 1)
           (lit "San Ramon, CA") (repeat test_diner 130) 1%nat).
  - split.
    + intros location batch_num offset limit Hne. cbn [failing_directory search_page].
      destruct (Nat.eqb_spec batch_num 1); [contradiction | reflexivity].
    + intros location offset limit. exists RequestException. reflexivity.
  - vm_compute. reflexivity.
Defined.

(** ** The run as a whole *)

Lemma dict_lookup_app (a b : dict) (k : str) :
  dict_lookup (a ++ b) k
  = match dict_lookup a k with Some v => Some v | None => dict_lookup b k end.
Proof.
  induction a as [|[k' v] a IH]; [reflexivity|].
  cbn [app dict_lookup]. destruct (str_eqb k' k); [reflexivity | exact IH].
Qed.

Lemma str_eqb_refl (a : str) : str_eqb a a = true.
Proof. apply str_eqb_eq. reflexivity. Qed.

Lemma dict_lookup_set (d : dict) (k k' : str) (v : json) :
  dict_lookup (dict_set d k v) k'
  = if str_eqb k k' then Some v else dict_lookup d k'.
Proof.
  induction d as [|[k0 v0] d IH]; [reflexivity|].
  cbn [dict_set]. destruct (str_eqb k0 k) eqn:E0; cbn [dict_lookup].
  - apply str_eqb_eq in E0. subst k0. destruct (str_eqb k k'); reflexivity.
  - rewrite IH. destruct (str_eqb k0 k') eqn:E1; [|reflexivity].
    apply str_eqb_eq in E1. subst k0.
    destruct (str_eqb k k') eqn:E2; [|reflexivity].
    apply str_eqb_eq in E2. subst k'. rewrite str_eqb_refl in E0. discriminate.
Qed.

Lemma dict_lookup_update (entries : dict) :
  forall (d : dict) (k : str),
    dict_lookup (fold_left (fun acc kv => dict_set acc (fst kv) (snd kv)) entries d) k
    = match dict_lookup (rev entries) k with
      | Some v => Some v
      | None => dict_lookup d k
      end.
Proof.
  induction entries as [|[k0 v0] entries IH]; intros d k; [reflexivity|].
  cbn [fold_left rev fst snd]. rewrite IH, dict_lookup_app, dict_lookup_set.
  cbn [dict_lookup]. destruct (dict_lookup (rev entries) k); [reflexivity|].
  destruct (str_eqb k0 k); reflexivity.
Qed.

Lemma dict_lookup_In (d : dict) (k : str) (v : json) :
  dict_lookup d k = Some v -> In k (map fst d).
Proof.
  induction d as [|[k0 v0] d IH]; [discriminate|].
  cbn [dict_lookup map fst In]. destruct (str_eqb k0 k) eqn:E.
  - apply str_eqb_eq in E. auto.
  - auto.
Qed.

Lemma dict_lookup_rev (d : dict) (k : str) :
  NoDup (map fst d) -> dict_lookup (rev d) k = dict_lookup d k.
Proof.
  induction d as [|[k0 v0] d IH]; [reflexivity|].
  cbn [map fst rev]. intros Hnd. inversion Hnd as [|? ? Hnot Hrest]; subst.
  rewrite dict_lookup_app, (IH Hrest). cbn [dict_lookup].
  destruct (dict_lookup d k) as [v|] eqn:E; [|reflexivity].
  destruct (str_eqb k0 k) eqn:E0; [|reflexivity].
  apply str_eqb_eq in E0. subst k0. apply dict_lookup_In in E. contradiction.
Qed.

Section RunFacts.
Context {U : Unicode}.
Variable w : World.

Lemma replay_app (saves more : list (Restaurant * list Menu * list Dish)) (st : Store) :
  replay (store_fault w) (saves ++ more) st
  = replay (store_fault w) more (replay (store_fault w) saves st).
Proof. apply fold_left_app. Qed.

Lemma process_business_ledger (idx : nat) (business : json) (run run' : Run) :
  process_business w idx business run = Ok run' ->
  exists added,
    save_calls run' = save_calls run ++ added
    /\ restaurants_processed run' = (restaurants_processed run + List.length added)%nat
    /\ (restaurants_processed run' + restaurants_skipped run'
        = S (restaurants_processed run + restaurants_skipped run))%nat
    /\ store run' = replay (store_fault w) added (store run).
Proof.
  unfold process_business.
  destruct (build_restaurant w idx business) as [restaurant|e]; [|discriminate].
  cbn [bind].
  destruct (get_menu_data (menu_page w idx) restaurant) as [[[menus dishes]|]|e];
    [| |discriminate]; cbn [bind].
  - destruct (save_to_database _ _ _ _ _) as [logged st] eqn:E.
    intros [= <-]. exists [(restaurant, menus, dishes)]. cbn.
    rewrite E. repeat split; lia.
  - intros [= <-]. exists []. cbn. rewrite app_nil_r. repeat split; lia.
Qed.

Lemma collect_loop_ledger (businesses : list json) :
  forall idx run,
    let outcome := collect_loop w idx businesses run in
    let handled := (restaurants_processed (snd outcome) + restaurants_skipped (snd outcome)
                    - (restaurants_processed run + restaurants_skipped run))%nat in
    exists added,
      save_calls (snd outcome) = save_calls run ++ added
      /\ restaurants_processed (snd outcome)
         = (restaurants_processed run + List.length added)%nat
      /\ store (snd outcome) = replay (store_fault w) added (store run)
      /\ (restaurants_processed run + restaurants_skipped run
          <= restaurants_processed (snd outcome) + restaurants_skipped (snd outcome))%nat
      /\ (handled <= List.length businesses)%nat
      /\ (fst outcome = None <-> handled = List.length businesses).
Proof.
  induction businesses as [|business rest IH]; intros idx run; cbn zeta.
  - exists []. cbn. rewrite app_nil_r. repeat split; lia.
  - cbn [collect_loop].
    destruct (process_business w idx business run) as [run1|e] eqn:E.
    + destruct (process_business_ledger _ _ _ E) as [first [Hc [Hp [Hsum Hst]]]].
      destruct (IH (S idx) run1) as [added [Hc' [Hp' [Hst' [Hmono [Hle Hiff]]]]]].
      exists (first ++ added). rewrite Hc', Hc, Hp', Hp, Hst', Hst, replay_app, length_app.
      cbn [List.length]. rewrite <- app_assoc.
      repeat split; try lia; intros H; apply Hiff in H || apply Hiff; lia.
    + exists []. cbn. rewrite app_nil_r.
      repeat split; try lia; try discriminate.
Qed.

(** X18.  The ledger of a run.  The processed counter is the number of calls
    of [save_to_database]; the store after the run is the store before it
    with exactly these calls applied in order, so a skipped business and an
    exception that ends the run leave no trace in it; the two counters
    together never exceed the number of businesses found, and they reach it
    exactly when the run ends without exception. *)
Theorem X18_run_ledger (total_restaurants : Z) (st : Store) :
  let businesses := search_restaurants_batch w (lit "San Ramon, CA") total_restaurants in
  let outcome := collect_san_ramon_data w total_restaurants st in
  let run := snd outcome in
  restaurants_processed run = List.length (save_calls run)
  /\ store run = replay (store_fault w) (save_calls run) st
  /\ (restaurants_processed run + restaurants_skipped run <= List.length businesses)%nat
  /\ (fst outcome = None
      <-> (restaurants_processed run + restaurants_skipped run)%nat
          = List.length businesses).
Proof.
  cbn zeta. unfold collect_san_ramon_data.
  destruct (search_restaurants_batch w (lit "San Ramon, CA") total_restaurants)
    as [|business rest] eqn:Eb; cbn [nonempty negb].
  - cbn. repeat split; lia.
  - pose proof (collect_loop_ledger (business :: rest) 0
                  {| store := st; restaurants_processed := 0%nat;
                     restaurants_skipped := 0%nat; save_calls := [] |}) as H.
    cbn zeta in H.
    set (outcome := collect_loop w 0 (business :: rest) _) in *.
    destruct H as [added [Hc [Hp [Hst [_ [Hle Hiff]]]]]].
    cbn [save_calls restaurants_processed restaurants_skipped store app] in Hc, Hp, Hst, Hle, Hiff.
    rewrite Hc. split; [exact Hp|]. split; [exact Hst|].
    split; [lia|]. split; intros H; [apply Hiff in H; lia | apply Hiff; lia].
Qed.

Lemma collect_loop_app (pre rest : list json) :
  forall idx run,
    collect_loop w idx (pre ++ rest) run
    = match collect_loop w idx pre run with
      | (None, run1) => collect_loop w (idx + List.length pre) rest run1
      | aborted => aborted
      end.
Proof.
  induction pre as [|business pre IH]; intros idx run.
  - cbn. rewrite Nat.add_0_r. reflexivity.
  - cbn [app collect_loop List.length].
    destruct (process_business w idx business run) as [run1|e]; [|reflexivity].
    rewrite IH. replace (S idx + List.length pre)%nat with (idx + S (List.length pre))%nat
      by lia. reflexivity.
Qed.

(** X19.  A business record without the key [name] or [id] ends the run:
    the loop raises [KeyError] when it reaches it, the businesses after it
    are never looked at, whatever they are, and what was done for the
    businesses before it stays. *)
Theorem X19_missing_key_ends_run (pre post : list json) (d : dict) (idx : nat)
    (run run1 : Run) :
  collect_loop w idx pre run = (None, run1) ->
  dict_lookup d (lit "name") = None \/ dict_lookup d (lit "id") = None ->
  exists key,
    In key [lit "name"; lit "id"]
    /\ collect_loop w idx (pre ++ JDict d :: post) run = (Some (KeyError key), run1).
Proof.
  intros Hpre Hmiss. rewrite collect_loop_app, Hpre. cbn [collect_loop].
  unfold process_business, build_restaurant, py_getitem.
  destruct (dict_lookup d (lit "name")) as [n|] eqn:En.
  - destruct Hmiss as [Hn|Hi]; [discriminate|]. rewrite Hi. cbn [bind].
    exists (lit "id"). split; [right; left; reflexivity | reflexivity].
  - cbn [bind]. exists (lit "name"). split; [left; reflexivity | reflexivity].
Qed.

(** X20.  The detail record is merged over the summary record before the
    conversion.  When the detail request fails or answers with an empty
    value the Restaurant is built from the summary alone; when it answers
    with a dict, the Restaurant is built from a record in which every key of
    the details has the details' value and every other key the summary's. *)
Theorem X20_details_override_summary (idx : nat) (d : dict) (item_name business_id : json) :
  dict_lookup d (lit "name") = Some item_name ->
  dict_lookup d (lit "id") = Some business_id ->
  (truthy (get_restaurant_details w idx business_id) = false ->
   build_restaurant w idx (JDict d) = convert_to_restaurant d)
  /\ (forall details,
        business_detail w idx business_id = Ok (JDict details) ->
        NoDup (map fst details) ->
        exists merged,
          build_restaurant w idx (JDict d) = convert_to_restaurant merged
          /\ forall key,
               dict_lookup merged key
               = match dict_lookup details key with
                 | Some v => Some v
                 | None => dict_lookup d key
                 end).
Proof.
  intros Hn Hi. unfold build_restaurant, py_getitem. rewrite Hn, Hi. cbn [bind].
  split.
  - intros ->. reflexivity.
  - intros details Hd Hnd. unfold get_restaurant_details. rewrite Hd.
    destruct details as [|entry details]; cbn [truthy].
    + exists d. split; reflexivity.
    + cbn [dict_update bind].
      eexists. split; [reflexivity|]. intros key.
      rewrite <- (@dict_lookup_rev (entry :: details) key Hnd).
      apply (dict_lookup_update (entry :: details)).
Qed.

End RunFacts.

(** ** The further properties on the Test Diner *)

Lemma X4_menu_url_shape_witness :
  exists n location,
    name test_diner_restaurant = JStr n
    /\ lit "https://www.yelp.com/menu/test-diner-san-ramon"
       = base_url ++ name_slug (U := ascii_tables) n ++ lit "-" ++ location
    /\ is_clean_slug (name_slug (U := ascii_tables) n) = true
    /\ In location localities.
Proof.
  apply (@X4_menu_url_shape ascii_tables test_diner_restaurant
           (lit "https://www.yelp.com/menu/test-diner-san-ramon")).
  reflexivity.
Defined.

Lemma X5_default_location_witness :
  construct_menu_url (U := ascii_tables)
    {| name := JStr (lit "Test Diner"); rating := JNull; review_count := JNull;
       price_range := JNull; yelp_id := JStr (lit "abc"); website := JNull;
       address := JStr (lit "1 Main St, Oakland, CA"); phone := JNull;
       cuisine_type := JNull |}
  = Ok (base_url ++ name_slug (U := ascii_tables) (lit "Test Diner")
        ++ lit "-" ++ lit "san-ramon").
Proof.
  apply (@X5_default_location ascii_tables _ (lit "Test Diner")).
  - reflexivity.
  - right. exists (lit "1 Main St, Oakland, CA"). split; reflexivity.
Defined.

Lemma X6_last_city_decides_witness :
  construct_menu_url (U := ascii_tables)
    {| name := JStr (lit "Test Diner"); rating := JNull; review_count := JNull;
       price_range := JNull; yelp_id := JStr (lit "abc"); website := JNull;
       address := JStr (lit "1 San Ramon Rd" ++ comma :: lit " Dublin, CA");
       phone := JNull; cuisine_type := JNull |}
  = construct_menu_url (U := ascii_tables)
      {| name := JStr (lit "Test Diner"); rating := JNull; review_count := JNull;
         price_range := JNull; yelp_id := JStr (lit "xyz"); website := JNull;
         address := JStr (lit "99 Oak Ave" ++ comma :: lit " Dublin, CA");
         phone := JNull; cuisine_type := JNull |}.
Proof.
  apply (@X6_last_city_decides ascii_tables _ _ (lit "Test Diner")
           (lit "1 San Ramon Rd") (lit "99 Oak Ave") (lit " Dublin, CA"));
    reflexivity.
Defined.

Lemma X7_url_after_conversion_witness :
  exists menu_url,
    construct_menu_url (U := ascii_tables) test_diner_restaurant = Ok menu_url.
Proof.
  exact (@X7_url_after_conversion ascii_tables
           [(lit "id", JStr (lit "abc"));
            (lit "name", JStr (lit "Test Diner"));
            (lit "location",
             JDict [(lit "display_address",
                     JList [JStr (lit "1 Main St"); JStr (lit "San Ramon, CA")])])]
           test_diner_restaurant eq_refl).
Defined.

Lemma X8_first_selector_decides_witness :
  scrape_menu_from_yelp (U := ascii_tables) (fun _ => Ok diner_page)
    (lit "https://www.yelp.com/menu/test-diner-san-ramon")
  = Ok (extract_items (U := ascii_tables) [burger_item])
  /\ forall soup',
       (forall s,
           In s ([lit "div.menu-item";
                  lit "[data-testid=" ++ [34%N] ++ lit "menu-item" ++ [34%N] ++ lit "]";
                  lit ".menu-item-details"] ++ [lit ".menuItem"]) ->
           select soup' s = select diner_page s) ->
       scrape_menu_from_yelp (U := ascii_tables) (fun _ => Ok soup')
         (lit "https://www.yelp.com/menu/test-diner-san-ramon")
       = Ok (extract_items (U := ascii_tables) [burger_item]).
Proof.
  apply (@X8_first_selector_decides ascii_tables (fun _ => Ok diner_page)
           (lit "https://www.yelp.com/menu/test-diner-san-ramon") diner_page
           [lit "div.menu-item";
            lit "[data-testid=" ++ [34%N] ++ lit "menu-item" ++ [34%N] ++ lit "]";
            lit ".menu-item-details"]
           [lit ".biz-menu-item"] (lit ".menuItem") [burger_item]).
  - reflexivity.
  - reflexivity.
  - intros s [<-|[<-|[<-|[]]]]; reflexivity.
  - reflexivity.
  - discriminate.
Defined.

Lemma X14_references_hold_witness :
  (forall fault restaurant menus dishes,
      references_ok
        (db (snd (save_to_database (U := ascii_tables) fault restaurant menus dishes
                    empty_store))))
  /\ (forall total_restaurants,
        references_ok
          (db (store (snd (collect_san_ramon_data (U := ascii_tables)
                             (diner_world [test_diner] (fun _ => None))
                             total_restaurants empty_store))))).
Proof.
  apply (@X14_references_hold ascii_tables (diner_world [test_diner] (fun _ => None))
           empty_store).
  split; intros row [].
Defined.

Lemma X15_save_without_failure_witness :
  exists st',
    save_to_database (U := ascii_tables) (fun _ => None) test_diner_restaurant
      [test_diner_menu] [burger; fries] empty_store = (None, st')
    /\ calls st' = (calls empty_store
                    + upsert_requests test_diner_restaurant (db empty_store)
                    + List.length [test_diner_menu]
                      * (1 + List.length [burger; fries]))%nat
    /\ In (resolved_id test_diner_restaurant (db empty_store)) (restaurant_ids (db st'))
    /\ map snd (rows (menu_table (db st')))
       = map snd (rows (menu_table (db empty_store)))
         ++ map (linked (resolved_id test_diner_restaurant (db empty_store)))
              [test_diner_menu]
    /\ map snd (rows (dish_table (db st')))
       = map snd (rows (dish_table (db empty_store)))
         ++ dish_rows_for (U := ascii_tables) (next_id (menu_table (db empty_store)))
              (List.length [test_diner_menu]) [burger; fries].
Proof.
  apply (@X15_save_without_failure ascii_tables (fun _ => None) test_diner_restaurant
           [test_diner_menu] [burger; fries] empty_store).
  intros i Hi. reflexivity.
Defined.

Lemma X16_second_save_duplicates_witness :
  let once := snd (save_to_database (U := ascii_tables) (fun _ => None)
                     test_diner_restaurant [test_diner_menu] [burger; fries] empty_store) in
  let twice := snd (save_to_database (U := ascii_tables) (fun _ => None)
                      test_diner_restaurant [test_diner_menu] [burger; fries] once) in
  let stored := map (linked (resolved_id test_diner_restaurant (db empty_store)))
                  [test_diner_menu] in
  restaurant_table (db twice) = restaurant_table (db once)
  /\ map snd (rows (menu_table (db twice)))
     = map snd (rows (menu_table (db empty_store))) ++ stored ++ stored
  /\ List.length (rows (dish_table (db twice)))
     = (List.length (rows (dish_table (db empty_store)))
        + 2 * (List.length [test_diner_menu] * List.length [burger; fries]))%nat.
Proof.
  apply (@X16_second_save_duplicates ascii_tables (fun _ => None) test_diner_restaurant
           [test_diner_menu] [burger; fries] empty_store).
  intros i Hi. reflexivity.
Defined.

Lemma X19_missing_key_ends_run_witness :
  exists key,
    In key [lit "name"; lit "id"]
    /\ collect_loop (U := ascii_tables) (diner_world [] (fun _ => None)) 0
         ([] ++ JDict [(lit "id", JStr (lit "xyz"))] :: [test_diner]) fresh_run
       = (Some (KeyError key), fresh_run).
Proof.
  apply (@X19_missing_key_ends_run ascii_tables (diner_world [] (fun _ => None))
           [] [test_diner] [(lit "id", JStr (lit "xyz"))] 0%nat fresh_run fresh_run).
  - reflexivity.
  - left. reflexivity.
Defined.

Lemma X20_details_override_summary_witness :
  (truthy (get_restaurant_details detailed_directory 0 (JStr (lit "abc"))) = false ->
   build_restaurant detailed_directory 0
     (JDict [(lit "id", JStr (lit "abc")); (lit "name", JStr (lit "Test Diner"))])
   = convert_to_restaurant
       [(lit "id", JStr (lit "abc")); (lit "name", JStr (lit "Test Diner"))])
  /\ (forall details,
        business_detail detailed_directory 0 (JStr (lit "abc")) = Ok (JDict details) ->
        NoDup (map fst details) ->
        exists merged,
          build_restaurant detailed_directory 0
            (JDict [(lit "id", JStr (lit "abc")); (lit "name", JStr (lit "Test Diner"))])
          = convert_to_restaurant merged
          /\ forall key,
               dict_lookup merged key
               = match dict_lookup details key with
                 | Some v => Some v
                 | None =>
                     dict_lookup
                       [(lit "id", JStr (lit "abc")); (lit "name", JStr (lit "Test Diner"))]
                       key
                 end).
Proof.
  apply (@X20_details_override_summary detailed_directory 0%nat
           [(lit "id", JStr (lit "abc")); (lit "name", JStr (lit "Test Diner"))]
           (JStr (lit "Test Diner")) (JStr (lit "abc")));
    reflexivity.
Defined.

(** ** The price parser: the conversion *)

Lemma rounds_to_compat (v v' : Q) (x : pyfloat) :
  v == v' -> rounds_to v x -> rounds_to v' x.
Proof.
  intros Hv. destruct x as [q|]; cbn [rounds_to].
  - intros [Hle [Hd Hnear]]. split; [rewrite <- Hv; exact Hle|]. split; [exact Hd|].
    intros q' Hq'. rewrite <- Hv. apply Hnear, Hq'.
  - intros H. rewrite <- Hv. exact H.
Qed.

Section PriceParserConversion.
Context {U : Unicode}.

(** C6.  [clean_price] never raises and its answer depends only on the
    digits and decimal points of the text: it is the answer for the text
    with every other character removed.  It answers [None] on the empty text
    and, more generally, exactly when the text holds no digit or holds two
    or more points, the texts on which the conversion fails.  A text whose
    digits and points read [ip] or [ip.fp] gives the float that [float]
    returns for that decimal number, a correct rounding of it: a double that
    no other double is nearer to the number, or infinity beyond the
    doubles.  The four values of the specification: ['$12.50'] gives 12.5,
    ['Market Price'] and [''] give [None], ['$1,234'] gives 1234.  The
    rounding shows on ['$1.00000000000000001'], which gives 1, and on a
    price of 400 digits, which gives infinity. *)
Theorem C6_clean_price :
  (forall s, exists r, clean_price s = Ok r)
  /\ clean_price [] = Ok None
  /\ (forall s, clean_price s = clean_price (filter is_digit_or_dot s))
  /\ (forall s,
        clean_price s = Ok None
        <-> existsb is_digit s = false \/ (2 <= count_occ N.eq_dec s dot)%nat)
  /\ (forall s ip n,
        filter is_digit_or_dot s = ip ->
        forallb is_digit ip = true -> ip <> [] ->
        digits_value 0 ip = Some n ->
        clean_price s = Ok (Some (nearest_double (Z.of_N n) 1))
        /\ rounds_to (inject_Z (Z.of_N n)) (nearest_double (Z.of_N n) 1))
  /\ (forall s ip fp n,
        filter is_digit_or_dot s = ip ++ dot :: fp ->
        forallb is_digit ip = true -> ip ++ fp <> [] ->
        digits_value 0 (ip ++ fp) = Some n ->
        let k := Z.of_nat (List.length fp) in
        clean_price s = Ok (Some (nearest_double (Z.of_N n) (10 ^ k)))
        /\ rounds_to (inject_Z (Z.of_N n) / 10 ^ k) (nearest_double (Z.of_N n) (10 ^ k)))
  /\ clean_price (lit "$12.50") = Ok (Some (Finite (25 # 2)))
  /\ clean_price (lit "Market Price") = Ok None
  /\ clean_price (lit "") = Ok None
  /\ clean_price (lit "$1,234") = Ok (Some (Finite 1234))
  /\ clean_price (lit "$1.00000000000000001") = Ok (Some (Finite 1))
  /\ clean_price (lit "$" ++ repeat 57%N 400) = Ok (Some Infinity).
Proof.
  split; [exact clean_price_total|].
  split; [reflexivity|].
  split; [exact clean_price_strips|].
  split.
  { intros s. destruct (filter_keep_facts s) as [Hkeep [Hdig Hdots]].
    pose proof (float_of_decimal_ok_iff _ Hkeep) as Hiff.
    rewrite Hdig, Hdots in Hiff. split.
    - intros Hnone.
      destruct (existsb is_digit s) eqn:Ed; [|left; reflexivity].
      right. destruct (le_lt_dec 2 (count_occ N.eq_dec s dot)) as [H|H]; [exact H|].
      exfalso. destruct (proj2 Hiff) as [x Hx]; [split; [reflexivity | lia]|].
      assert (filter is_digit_or_dot s <> []) as Hne
        by (intros E; rewrite E in Hdig; discriminate).
      rewrite (clean_price_value _ eq_refl Hne Hx) in Hnone. discriminate.
    - intros Hwhy. destruct (clean_price_total s) as [[x|] Hr]; [|exact Hr].
      exfalso. unfold clean_price in Hr.
      destruct (negb (nonempty s)); [discriminate|].
      destruct (nonempty (filter is_digit_or_dot s)); [|discriminate].
      destruct (float_of_decimal (filter is_digit_or_dot s)) as [x'|e] eqn:Ef.
      + destruct (proj1 Hiff (ex_intro _ x' eq_refl)) as [Hd Hc].
        destruct Hwhy as [Hno|Htwo]; [congruence | lia].
      + cbn [bind] in Hr. destruct e; discriminate. }
  split.
  { intros s ip n Hs Hip Hne Hv. split.
    - apply (clean_price_value _ Hs Hne).
      apply float_of_decimal_integer; assumption.
    - apply (@rounds_to_compat (inject_Z (Z.of_N n) / inject_Z 1)).
      + change (inject_Z 1) with 1. field.
      + apply nearest_double_rounds; lia. }
  split.
  { intros s ip fp n Hs Hip Hne Hv k. split.
    - apply (clean_price_value _ Hs); [destruct ip; discriminate|].
      apply float_of_decimal_point; assumption.
    - apply (@rounds_to_compat (inject_Z (Z.of_N n) / inject_Z (10 ^ k))).
      + rewrite (Zpower_Qpower 10 k) by (unfold k; lia). reflexivity.
      + apply nearest_double_rounds; [lia | apply Z.pow_pos_nonneg; unfold k; lia]. }
  repeat split; vm_compute; reflexivity.
Qed.

End PriceParserConversion.

(** ** The menu address: the name slug and the specification's example *)

Lemma sub_runs_from_class_no_double (p : N -> bool) (s : str) :
  (forall c, p c = false -> is_hyphen c = false) ->
  forall in_run,
    contains (lit "--") (sub_runs_from in_run p (lit "-") s) = false
    /\ (in_run = true ->
        first_is_hyphen (sub_runs_from in_run p (lit "-") s) = false).
Proof.
  intros Hp. induction s as [|c s IH]; intros in_run; [split; reflexivity|].
  cbn [sub_runs_from]. rewrite lit_hyphen. destruct (p c) eqn:Ec.
  - destruct (IH true) as [Hdd Hfirst]. specialize (Hfirst eq_refl).
    rewrite lit_hyphen in Hdd, Hfirst.
    destruct in_run; cbn [app]; [split; auto|].
    split; [|discriminate].
    cbn [contains]. rewrite Hdd, orb_false_r.
    destruct (sub_runs_from true p _ s) as [|d t].
    + apply is_prefix_pair_short.
    + rewrite is_prefix_pair. cbn [first_is_hyphen] in Hfirst. rewrite Hfirst.
      apply andb_false_r.
  - destruct (IH false) as [Hdd _]. rewrite lit_hyphen in Hdd.
    pose proof (Hp c Ec) as Hc.
    split; [|intros _; exact Hc].
    cbn [contains]. rewrite Hdd, orb_false_r.
    destruct (sub_runs_from false p _ s) as [|d t].
    + apply is_prefix_pair_short.
    + rewrite is_prefix_pair, Hc. reflexivity.
Qed.

Lemma az09_not_hyphen (c : N) : negb (is_az09 c) = false -> is_hyphen c = false.
Proof.
  unfold is_az09, is_hyphen, hyphen.
  destruct (N.leb_spec 97 c), (N.leb_spec c 122), (N.leb_spec 48 c),
    (N.leb_spec c 57), (N.eqb_spec c 45); cbn; intros; try reflexivity;
    try discriminate; lia.
Qed.

Lemma alnum_lower_az09 (c : N) :
  is_ascii_alnum c = true -> is_ascii c = true /\ is_az09 (ascii_lower c) = true.
Proof.
  unfold is_ascii_alnum, is_ascii, is_az09, ascii_lower.
  destruct (N.leb_spec 48 c), (N.leb_spec c 57), (N.leb_spec 65 c),
    (N.leb_spec c 90), (N.leb_spec 97 c), (N.leb_spec c 122), (N.ltb_spec c 128);
    cbn; intros; try discriminate; try lia;
    (split; [reflexivity|]);
    repeat match goal with
           | |- context [(?a <=? ?b)%N] => destruct (N.leb_spec a b); cbn
           end; try reflexivity; lia.
Qed.

Lemma az09_word_clean (w : str) : forallb is_az09 w = true -> is_clean_slug w = true.
Proof.
  intros Hw. rewrite forallb_forall in Hw.
  assert (forall c, In c w -> is_hyphen c = false) as Hno.
  { intros c Hc. apply az09_not_hyphen. rewrite (Hw c Hc). reflexivity. }
  unfold is_clean_slug.
  assert (forallb slug_char w = true) as ->.
  { apply forallb_forall. intros c Hc. unfold slug_char. rewrite (Hw c Hc). reflexivity. }
  assert (contains (lit "--") w = false) as ->.
  { destruct (contains (lit "--") w) eqn:E; [|reflexivity].
    assert (In hyphen w) as Hin by (apply (contains_In _ _ hyphen E); left; reflexivity).
    apply Hno in Hin. discriminate. }
  assert (forall s, (forall c, In c s -> is_hyphen c = false) -> first_is_hyphen s = false)
    as Hfirst.
  { intros [|c s] Hs; [reflexivity|]. apply Hs. left. reflexivity. }
  rewrite (Hfirst w Hno), Hfirst; [reflexivity|].
  intros c Hc. apply Hno, in_rev, Hc.
Qed.

Lemma split_from_nonempty (sep : N) (s cur : str) : split_from sep cur s <> [].
Proof.
  revert cur. induction s as [|c s IH]; intros cur; cbn [split_from]; [discriminate|].
  destruct (c =? sep)%N; [discriminate | apply IH].
Qed.

(** A word without separator put after a text goes to the last piece. *)
Lemma split_from_snoc (sep : N) (x w : str) :
  forallb (fun c => negb (c =? sep)%N) w = true ->
  forall cur,
    split_from sep cur (x ++ w)
    = removelast (split_from sep cur x) ++ [last (split_from sep cur x) [] ++ w].
Proof.
  intros Hw. induction x as [|c x IH]; intros cur.
  - cbn [app split_from removelast last]. apply (split_from_whole _ _ _ Hw).
  - cbn [app split_from]. destruct (c =? sep)%N.
    + rewrite IH. pose proof (split_from_nonempty sep x []) as Hne.
      destruct (split_from sep [] x) as [|p ps]; [contradiction | reflexivity].
    + apply IH.
Qed.

Lemma drop_while_app_stop (p : N -> bool) (s : str) (c : N) (t : str) :
  p c = false -> drop_while p (s ++ c :: t) = drop_while p s ++ c :: t.
Proof.
  intros Hc. induction s as [|d s IH]; cbn [app drop_while].
  - rewrite Hc. reflexivity.
  - destruct (p d); [exact IH | reflexivity].
Qed.

(** Stripping a text that ends in a word whose first and last characters
    stay. *)
Lemma strip_chars_app_word (p : N -> bool) (seg : str) (c z : N) (mid : str) :
  p c = false -> p z = false ->
  strip_chars p (seg ++ c :: mid ++ [z]) = drop_while p seg ++ c :: mid ++ [z].
Proof.
  intros Hc Hz. unfold strip_chars. rewrite drop_while_app_stop by exact Hc.
  assert (rev (drop_while p seg ++ c :: mid ++ [z])
          = z :: rev (drop_while p seg ++ c :: mid)) as ->.
  { rewrite (app_comm_cons mid [z] c), app_assoc, rev_app_distr. reflexivity. }
  cbn [drop_while]. rewrite Hz.
  change (z :: rev (drop_while p seg ++ c :: mid))
    with (rev [z] ++ rev (drop_while p seg ++ c :: mid)).
  rewrite <- rev_app_distr, rev_involutive, <- app_assoc. reflexivity.
Qed.

Lemma scan_part_dublin (location seg : str) :
  contains (lit "san ramon") (strip_chars is_space (seg ++ lit "dublin")) = false ->
  scan_part location (seg ++ lit "dublin") = lit "dublin".
Proof.
  intros Hno. unfold scan_part. rewrite Hno.
  assert (contains (lit "dublin") (strip_chars is_space (seg ++ lit "dublin")) = true)
    as ->; [|reflexivity].
  change (lit "dublin") with (100%N :: lit "ubli" ++ [110%N]) at 2.
  rewrite strip_chars_app_word by reflexivity.
  apply contains_iff. exists (drop_while is_space seg), []. rewrite app_nil_r. reflexivity.
Qed.

Section MenuUrlFacts.
Context {U : Unicode}.

Lemma name_slug_as_specified (n : str) : name_slug n = slug_as_specified n.
Proof.
  unfold name_slug, slug_as_specified, sub_runs. cbv zeta. f_equal.
  apply sub_runs_from_fixed.
  - reflexivity.
  - apply (sub_runs_from_class_no_double _ (lower n) az09_not_hyphen false).
  - discriminate.
Qed.

Lemma name_slug_word (w : str) :
  forallb is_ascii_alnum w = true -> name_slug w = map ascii_lower w.
Proof.
  intros Hw.
  assert (forallb is_ascii w = true /\ forallb is_az09 (map ascii_lower w) = true)
    as [Ha Hl].
  { induction w as [|c w IH]; [split; reflexivity|].
    cbn [forallb] in Hw. apply andb_prop in Hw as [Hc Hw].
    destruct (alnum_lower_az09 _ Hc) as [H1 H2]. destruct (IH Hw) as [IH1 IH2].
    cbn [forallb map]. rewrite H1, H2, IH1, IH2. split; reflexivity. }
  pose proof (az09_word_clean _ Hl) as Hclean.
  transitivity (name_slug (map ascii_lower w)); [|apply name_slug_clean_id; exact Hclean].
  unfold name_slug.
  assert (lower (map ascii_lower w) = lower w) as ->; [|reflexivity].
  unfold is_clean_slug in Hclean. rewrite !andb_true_iff in Hclean.
  destruct Hclean as [[[Hc _] _] _]. rewrite (lower_slug_chars _ Hc).
  unfold lower. rewrite Ha. reflexivity.
Qed.

(** The scan of an address that holds [Dublin, CA]. *)
Lemma scan_dublin_ca (pre post : str) :
  forallb is_ascii pre = true -> forallb is_ascii post = true ->
  contains (lit "san ramon")
    (strip_chars is_space (last_part (lower pre) ++ lit "dublin")) = false ->
  forallb (fun part => negb (names_city part))
    (split_on comma (lower (lit " CA" ++ post))) = true ->
  fold_left scan_part (split_on comma (lower (pre ++ lit "Dublin, CA" ++ post)))
    (lit "san-ramon")
  = lit "dublin".
Proof.
  intros Hpre Hpost Hsr Hlater.
  assert (forallb is_ascii (lit " CA" ++ post) = true) as Hca
    by (rewrite forallb_app, Hpost; reflexivity).
  assert (lower (pre ++ lit "Dublin, CA" ++ post)
          = (lower pre ++ lit "dublin") ++ comma :: lower (lit " CA" ++ post)) as ->.
  { change (lit "Dublin, CA" ++ post) with (lit "Dublin" ++ comma :: (lit " CA" ++ post)).
    rewrite lower_ascii_app;
      [|exact Hpre | rewrite forallb_app; cbn [forallb]; rewrite Hca; reflexivity].
    rewrite (lower_ascii_comma (lit "Dublin")) by (reflexivity || exact Hca).
    rewrite <- app_assoc. reflexivity. }
  unfold split_on. rewrite split_from_app, split_from_snoc by reflexivity.
  rewrite !fold_left_app. cbn [fold_left].
  fold (split_on comma (lower pre)). fold (last_part (lower pre)).
  rewrite (scan_part_dublin _ _ Hsr).
  apply scan_parts_unnamed. intros p Hp.
  rewrite forallb_forall in Hlater. apply negb_true_iff, Hlater, Hp.
Qed.

(** C7, amended.  The name slug is the slug of the specification: the name
    in lower case, every run of characters other than a-z and 0-9 replaced
    by one hyphen, the hyphens at both ends trimmed; a word of ASCII letters
    and digits becomes the word in lower case, and ["Joe's Café!"] becomes
    [joe-s-caf].  A restaurant of that name whose ASCII address holds
    [Dublin, CA] gets the menu address
    [https://www.yelp.com/menu/joe-s-caf-dublin] when the piece of the
    address that holds [Dublin] does not hold [San Ramon] as well, which the
    scan tests first, and no later piece names a city, which would replace
    it.  [name_slug] returns a clean slug unchanged, always returns a clean
    slug, and is therefore idempotent. *)
Theorem C7_menu_url_slug :
  (forall n, name_slug n = slug_as_specified n)
  /\ (forall w, forallb is_ascii_alnum w = true -> name_slug w = map ascii_lower w)
  /\ name_slug joes_cafe = lit "joe-s-caf"
  /\ (forall pre post,
        forallb is_ascii pre = true -> forallb is_ascii post = true ->
        contains (lit "san ramon")
          (strip_chars is_space (last_part (lower pre) ++ lit "dublin")) = false ->
        forallb (fun part => negb (names_city part))
          (split_on comma (lower (lit " CA" ++ post))) = true ->
        forall r,
          name r = JStr joes_cafe ->
          address r = JStr (pre ++ lit "Dublin, CA" ++ post) ->
          construct_menu_url r = Ok (lit "https://www.yelp.com/menu/joe-s-caf-dublin"))
  /\ (forall s, is_clean_slug s = true -> name_slug s = s)
  /\ (forall s, is_clean_slug (name_slug s) = true)
  /\ (forall s, name_slug (name_slug s) = name_slug s).
Proof.
  split; [exact name_slug_as_specified|].
  split; [exact name_slug_word|].
  assert (name_slug joes_cafe = lit "joe-s-caf") as Hslug by reflexivity.
  split; [exact Hslug|].
  split; [|split; [exact name_slug_clean_id|split]].
  - intros pre post Hpre Hpost Hsr Hlater r Hname Haddr.
    unfold construct_menu_url. rewrite Hname, Haddr, Hslug. cbn [bind].
    replace (truthy (JStr (pre ++ lit "Dublin, CA" ++ post))) with true
      by (destruct pre; reflexivity).
    rewrite (scan_dublin_ca _ _ Hpre Hpost Hsr Hlater). reflexivity.
  - exact name_slug_is_clean.
  - intros s. apply name_slug_clean_id, name_slug_is_clean.
Qed.

End MenuUrlFacts.

(** The theorem on the addresses [Dublin, CA 94568] and
    [123 Main St, Dublin, CA 94568], and on the name [Test Diner]. *)
Lemma C7_menu_url_slug_witness :
  construct_menu_url (U := ascii_tables)
    (restaurant_at joes_cafe ([] ++ lit "Dublin, CA" ++ lit " 94568"))
  = Ok (lit "https://www.yelp.com/menu/joe-s-caf-dublin")
  /\ construct_menu_url (U := ascii_tables)
       (restaurant_at joes_cafe (lit "123 Main St, " ++ lit "Dublin, CA" ++ lit " 94568"))
     = Ok (lit "https://www.yelp.com/menu/joe-s-caf-dublin")
  /\ name_slug (U := ascii_tables) (lit "Diner24") = map ascii_lower (lit "Diner24")
  /\ name_slug (U := ascii_tables) (lit "joe-s-caf") = lit "joe-s-caf".
Proof.
  destruct (@C7_menu_url_slug ascii_tables) as [_ [Hword [_ [Hurl [Hid _]]]]].
  split; [|split; [|split]].
  - apply (Hurl [] (lit " 94568")); reflexivity.
  - apply (Hurl (lit "123 Main St, ") (lit " 94568")); reflexivity.
  - apply Hword. reflexivity.
  - apply Hid. reflexivity.
Defined.

(** C7, as stated, fails: an address that holds [Dublin, CA] does not always
    give [dublin].  When the piece that holds [Dublin] holds [San Ramon] as
    well (here the comma before the city is missing), or when a later piece
    names another city, the address ends in that city. *)
Lemma C7_dublin_ca_is_not_decisive :
  contains (lit "Dublin, CA") (lit "7400 San Ramon Rd Dublin, CA 94568") = true
  /\ construct_menu_url (U := ascii_tables)
       (restaurant_at joes_cafe (lit "7400 San Ramon Rd Dublin, CA 94568"))
     = Ok (lit "https://www.yelp.com/menu/joe-s-caf-san-ramon")
  /\ contains (lit "Dublin, CA") (lit "1 Main St, Dublin, CA 94568, by Hayward Rd") = true
  /\ construct_menu_url (U := ascii_tables)
       (restaurant_at joes_cafe (lit "1 Main St, Dublin, CA 94568, by Hayward Rd"))
     = Ok (lit "https://www.yelp.com/menu/joe-s-caf-hayward").
Proof. repeat split; reflexivity. Qed.
